(** * zxc: the ZX caching file system (clive/zx/zxc/zxc.go)

    A shallow embedding of the front-end operations of the caching file
    system: the walker ([walk], [getMeta], [getDirData], [getData]) and the
    operations built on it ([stat], [wstat], [get], [move], [link], [put],
    [find]).  The cache ([fsFile], [fsCache]), the remote file system
    ([zx.Getter] and its optional capabilities), the permission checks of
    [zx.Dir] and the find predicates are interfaces of the program and are
    interfaces here; an in-memory instance of them is given to run the
    operations on concrete trees. *)

From Stdlib Require Import ZArith String Ascii List Bool Lia.
From stdpp Require Import base option list strings gmap pretty.

Local Open Scope Z_scope.

(** ** Directory entries

    [zx.Dir] is a Go [map[string]string]: reading a missing key gives the
    empty string. *)

Abbreviation Dir := (gmap string string).

Definition dget (d : Dir) (k : string) : string := default "" (d !! k).

(** ** Paths *)

Module fpath.

Definition slash : ascii := "/"%char.

(** [strings.Split(s, "/")]: the segments between slashes (one more than
    the number of slashes). *)
Fixpoint split (s : string) : list string :=
  match s with
  | EmptyString => [""]
  | String c r =>
      if Ascii.eqb c slash then "" :: split r
      else match split r with
           | [] => [String c ""]
           | seg :: segs => String c seg :: segs
           end
  end.

(** [strings.Join(els, "/")]. *)
Fixpoint join (els : list string) : string :=
  match els with
  | [] => ""
  | [e] => e
  | e :: r => e +:+ "/" +:+ join r
  end.

Definition rooted (s : string) : bool :=
  match s with
  | String c _ => Ascii.eqb c slash
  | EmptyString => false
  end.

(** The element pass of Go's [path.Clean]: empty and [.] elements are
    dropped, [..] removes the element before it, is dropped at the root of
    a rooted path and is kept at the start of a relative one.  [acc] holds
    the cleaned elements, last first. *)
Fixpoint clean_els (isrooted : bool) (acc els : list string) : list string :=
  match els with
  | [] => rev acc
  | e :: r =>
      if String.eqb e "" || String.eqb e "." then clean_els isrooted acc r
      else if String.eqb e ".." then
        match acc with
        | a :: acc' =>
            if String.eqb a ".." then clean_els isrooted (e :: acc) r
            else clean_els isrooted acc' r
        | [] =>
            if isrooted then clean_els isrooted [] r
            else clean_els isrooted [e] r
        end
      else clean_els isrooted (e :: acc) r
  end.

(** The canonical string of an absolute path given by its elements. *)
Definition of_els (els : list string) : string := "/" +:+ join els.

(** Go's [path.Clean]. *)
Definition Clean (s : string) : string :=
  if String.eqb s "" then "."
  else
    let els := clean_els (rooted s) [] (split s) in
    if rooted s then of_els els
    else match els with [] => "." | _ => join els end.

(** Go's [path.Join] of two elements: empty elements are ignored, the
    result is cleaned, and joining nothing gives the empty string. *)
Definition Join (a b : string) : string :=
  if String.eqb a "" then (if String.eqb b "" then "" else Clean b)
  else if String.eqb b "" then Clean a
  else Clean (a +:+ "/" +:+ b).

(** Go's [path.Dir]: everything up to the last slash, cleaned. *)
Definition Dir (s : string) : string :=
  match rev (split s) with
  | _ :: (_ :: _) as front => Clean (join (rev front) +:+ "/")
  | _ => Clean ""
  end.

(** Go's [path.Base]: the last element, trailing slashes removed; [.] for
    the empty path and [/] for a path of slashes only. *)
Definition Base (s : string) : string :=
  if String.eqb s "" then "."
  else match rev (filter (λ e, e ≠ "") (split s)) with
       | e :: _ => e
       | [] => "/"
       end.

End fpath.

(** ** Errors

    The error values of the program.  [fmt.Errorf("%s: %s", ctx, err)] is
    [ErrCtx ctx err]; the sentinel errors of package [zx] are constructors;
    the messages the file builds itself ([inconsistent move], [move not
    supported], [bad file type]) are constructors too. *)

Inductive error : Type :=
| ErrNotExist
| ErrExists
| ErrIsDir
| ErrNotDir
| ErrPerm
| ErrNotSuffix
| ErrNotAbs
| ErrIO (msg : string)
| ErrInconsistentMove
| ErrInconsistentLink
| ErrNotSupported (op : string)
| ErrBadType (typ : string)
| ErrMsg (msg : string)
| ErrCtx (ctx : string) (e : error).

#[global] Instance error_eq_dec : EqDecision error.
Proof. solve_decision. Defined.

(** Modelled from the spec: the error kinds of section 7 (the taxonomy is
    not in zxc.go).  [BadPath] is path parsing or an inconsistent prefix;
    [Unsupported] is a capability the remote lacks. *)
Inductive kind : Type :=
| NotExist | Exists | IsDir | NotDir | Perm | IO | BadPath | Unsupported
| BadCtl | Other.

#[global] Instance kind_eq_dec : EqDecision kind.
Proof. solve_decision. Defined.

Fixpoint kind_of (e : error) : kind :=
  match e with
  | ErrNotExist => NotExist
  | ErrExists => Exists
  | ErrIsDir => IsDir
  | ErrNotDir => NotDir
  | ErrPerm => Perm
  | ErrNotSuffix | ErrNotAbs | ErrInconsistentMove | ErrInconsistentLink =>
      BadPath
  | ErrIO _ => IO
  | ErrNotSupported _ => Unsupported
  | ErrBadType _ | ErrMsg _ => Other
  | ErrCtx _ e' => kind_of e'
  end.

(** ** Package zx: the helpers zxc.go calls *)

Module zx.

(** [zx.All]: no limit on a count. *)
Definition All : Z := -1.

(** Modelled from the spec: [zx.IsIOError] and [zx.IsNotExist] are not in
    zxc.go; they recognise the [IO] and [NotExist] kinds, also under the
    context that [fmt.Errorf] adds. *)
Definition IsIOError (e : option error) : bool :=
  match e with Some e => bool_decide (kind_of e = IO) | None => false end.

Definition IsNotExist (e : option error) : bool :=
  match e with Some e => bool_decide (kind_of e = NotExist) | None => false end.

(** Modelled from the spec: [zx.UseAbsPath] is not in zxc.go.  Operations
    take absolute paths and reject others as bad paths; the accepted path is
    used cleaned. *)
Definition UseAbsPath (p : string) : error + string :=
  if fpath.rooted p then inr (fpath.Clean p) else inl (ErrCtx p ErrNotAbs).

(** Modelled from the spec: [zx.Elems] is not in zxc.go; the elements of a
    path, root first ([/] has none). *)
Definition Elems (p : string) : list string :=
  filter (λ e, e ≠ "") (fpath.split p).

(** Modelled from the spec: [zx.HasPrefix(p, pref)] is not in zxc.go;
    [pref] is a path-prefix of [p]: both are absolute and the elements of
    [pref] start those of [p] (a path is a prefix of itself). *)
Definition HasPrefix (p pref : string) : bool :=
  fpath.rooted p && fpath.rooted pref &&
  bool_decide (Elems pref `prefix_of` Elems p).

(** Modelled from the spec: [zx.Suffix(p, pref)] is not in zxc.go; what is
    left of [p] after the path-prefix [pref], as an absolute path ([/] when
    they are the same path), and the empty string when [pref] is not a
    path-prefix of [p]. *)
Definition Suffix (p pref : string) : string :=
  if HasPrefix p pref then fpath.of_els (drop (length (Elems pref)) (Elems p))
  else "".

End zx.

(** ** Files of the cache, events, messages *)

(** An [fsFile] is a node of the cache, identified by its absolute path, or
    the one synthetic [ctlfile] node. *)
Inductive fsFile : Type :=
| File (path : string)
| Ctlfile.

#[global] Instance fsFile_eq_dec : EqDecision fsFile.
Proof. solve_decision. Defined.

(** [f.path()], also what [%s] prints of a file. *)
Definition path_of (f : fsFile) : string :=
  match f with File p => p | Ctlfile => "/Ctl" end.

(** The child of a directory node by name. *)
Definition child (f : fsFile) (name : string) : fsFile :=
  File (fpath.Join (path_of f) name).

(** What travels on the channels: directory entries and bytes. *)
Inductive msg : Type :=
| MDir (d : Dir)
| MBytes (b : string).

#[global] Instance msg_eq_dec : EqDecision msg.
Proof. solve_decision. Defined.

(** A stream the program reads: its chunks and the error the producer closed
    it with. *)
Definition instream : Type := list string * option error.

(** What a request does that others can see, in order. *)
Inductive event : Type :=
| EvLock (f : fsFile)
| EvUnlock (f : fsFile)
| EvNeedSync
| EvNeedRedial
| EvCacheSync
| EvRemoteStat (p : string)
| EvRemoteGetDir (p : string)
| EvRemoteGet (p : string)
| EvRemotePut (p : string)
| EvRemoteMove (from to : string)
| EvRemoteLink (to from : string)
| EvSend (m : msg).

#[global] Instance event_eq_dec : EqDecision event.
Proof. solve_decision. Defined.

(** The node locks the request holds after the events [evs], oldest first. *)
Fixpoint locks_held_from (held : list fsFile) (evs : list event) : list fsFile :=
  match evs with
  | [] => held
  | EvLock f :: r => locks_held_from (held ++ [f]) r
  | EvUnlock f :: r => locks_held_from (filter (λ g, g ≠ f) held) r
  | _ :: r => locks_held_from held r
  end.

Definition locks_held (evs : list event) : list fsFile := locks_held_from [] evs.

Inductive walkFor : Type :=
| forStat | forGet | forPut | forDel | forCreat | forLink | forCreatAll.

#[global] Instance walkFor_eq_dec : EqDecision walkFor.
Proof. solve_decision. Defined.

(** [auth.Info], as far as zxc.go reads it. *)
Record authInfo : Type := AuthInfo { Uid : string; Gids : list string }.

(** The fields of [Fs] the operations read. *)
Record Fs : Type := MkFs {
  Tag : string;
  ai : option authInfo;
  perms : bool;
  wsync : bool;      (* [fs.sync]: write-through *)
  redialok : bool;
  ctltext : string   (* what [fs.Flags] and [fs.Stats] print in [/Ctl] *)
}.

(** ** The interfaces zxc.go is written against *)

(** The remote file system [fs.rfs]: a [zx.Getter], and a [zx.Putter],
    [zx.Mover] or [zx.Linker] when it has the capability.  [R] is the state
    of the remote; every call may change it. *)
Class Remote (R : Type) : Type := {
  r_stat : R → string → (error + Dir) * R;
  r_getdir : R → string → (error + list Dir) * R;
  r_get : R → string → Z → Z → instream * R;
  r_put : option (R → string → Dir → Z → instream → option error * R);
  r_move : option (R → string → string → option error * R);
  r_link : option (R → string → string → option error * R)
}.

(** Modelled from the spec: the cache ([fsFile], [fsCache]) is not in
    zxc.go; these are the node operations of section 4.1 and the store
    operations of section 4.2 that zxc.go calls.  [C] is the state of the
    whole cache; a node is named by its [fsFile]. *)
Class Cache (C R : Type) : Type := {
  c_metaOk : C → fsFile → bool;
  c_dataOk : C → fsFile → bool;
  c_isDel : C → fsFile → bool;
  c_oldDataOk : C → fsFile → bool;
  c_dir : C → fsFile → Dir;
  c_gone : C → fsFile → C;
  c_inval : C → fsFile → C;
  c_gotMeta : C → fsFile → Dir → option error * C;
  c_gotDir : C → fsFile → list Dir → option error * C;
  c_gotData : C → fsFile → instream → option error * C;
  c_walk1 : C → fsFile → string → option error;
  c_getDir : C → fsFile → error + list Dir;
  c_newFile : C → R → fsFile → Dir → option error * C * R;
  c_wstat : C → fsFile → Dir → option error * C;
  c_remove : C → fsFile → bool → option error * C;
  c_putData : C → fsFile → Z → instream → string → option error * C;
  c_getData : C → fsFile → Z → Z → instream;
  c_fsync : C → R → fsFile → C * R;
  c_sync : C → R → option error * C * R
}.

(** Modelled from the spec: the permission checks of [zx.Dir] are not in
    zxc.go; they are evaluated against a [Dir] and an auth subject. *)
Class Perms : Type := {
  CanGet : Dir → option authInfo → bool;
  CanWalk : Dir → option authInfo → bool;
  CanPut : Dir → option authInfo → bool;
  CanWstat : Dir → option authInfo → Dir → option error
}.

(** Modelled from the spec: the find predicates ([pred.New], [EvalAt]) are
    not in zxc.go; a predicate evaluated on an entry at a depth says whether
    the entry matches, whether the descent is pruned, and may fail. *)
Class Preds (P : Type) : Type := {
  pred_New : string → error + P;
  EvalAt : P → Dir → Z → bool * bool * option error
}.

(** What the operations take from the rest of the system: the user id
    [u.Uid], how a time and an error print, and the flags subsystem behind
    writes to [/Ctl]. *)
Class Sys (C R : Type) : Type := {
  u_Uid : string;
  time_String : N → string;
  err_Error : error → string;
  flags_Ctl : string → C → R → option error * C * R
}.

(** ** State and the monad of a request *)

Inductive outcome (A : Type) : Type :=
| Ret (a : A)        (* the call returns *)
| Fail (e : error)   (* the call returns the error *)
| Deadlock           (* the request blocks for ever *)
| Panic              (* a Go run-time panic *)
| OutOfFuel.         (* the model ran out of fuel *)

Arguments Ret {A} a.
Arguments Fail {A} e.
Arguments Deadlock {A}.
Arguments Panic {A}.
Arguments OutOfFuel {A}.

(** The call returns with no error. *)
Definition returns {A} (o : outcome A) : bool :=
  match o with Ret _ => true | _ => false end.

Section Zxc.

Context {C R P : Type}.
Context `{!Remote R, !Cache C R, !Perms, !Preds P, !Sys C R}.

(** The cache, the remote, what the request did so far, its output channel
    (how many more messages the consumer takes, [None] for all of them, and
    the error it closes the channel with) and the clock. *)
Record State : Type := MkState {
  cst : C;
  rst : R;
  log : list event;
  budget : option nat;
  cclose : option error;
  clock : N
}.

Definition M (A : Type) : Type := State → outcome A * State.

#[global] Instance M_ret : MRet M := λ A a s, (Ret a, s).

#[global] Instance M_bind : MBind M := λ A B k m s,
  match m s with
  | (Ret a, s') => k a s'
  | (Fail e, s') => (Fail e, s')
  | (Deadlock, s') => (Deadlock, s')
  | (Panic, s') => (Panic, s')
  | (OutOfFuel, s') => (OutOfFuel, s')
  end.

Definition fail {A} (e : error) : M A := λ s, (Fail e, s).
Definition panic {A} : M A := λ s, (Panic, s).
Definition out_of_fuel {A} : M A := λ s, (OutOfFuel, s).

(** A Go function that returns [error]. *)
Definition check (err : option error) : M unit :=
  match err with Some e => fail e | None => mret () end.

Definition set_cst (c : C) (s : State) : State :=
  MkState c (rst s) (log s) (budget s) (cclose s) (clock s).
Definition set_rst (r : R) (s : State) : State :=
  MkState (cst s) r (log s) (budget s) (cclose s) (clock s).
Definition add_log (ev : event) (s : State) : State :=
  MkState (cst s) (rst s) (log s ++ [ev]) (budget s) (cclose s) (clock s).

Definition emit (ev : event) : M unit := λ s, (Ret (), add_log ev s).

(** [defer cleanup] around the rest of a function body: the cleanup runs
    when the body returns, with or without an error, and when it panics. *)
Definition defer {A} (cleanup : M unit) (body : M A) : M A := λ s,
  match body s with
  | (Ret a, s') =>
      match cleanup s' with
      | (Ret _, s'') => (Ret a, s'')
      | (Fail e, s'') => (Fail e, s'')
      | (Deadlock, s'') => (Deadlock, s'')
      | (Panic, s'') => (Panic, s'')
      | (OutOfFuel, s'') => (OutOfFuel, s'')
      end
  | (Fail e, s') =>
      match cleanup s' with
      | (Ret _, s'') => (Fail e, s'')
      | (Fail _, s'') => (Fail e, s'')
      | (Deadlock, s'') => (Deadlock, s'')
      | (Panic, s'') => (Panic, s'')
      | (OutOfFuel, s'') => (OutOfFuel, s'')
      end
  | (Panic, s') => (Panic, snd (cleanup s'))
  | (Deadlock, s') => (Deadlock, s')
  | (OutOfFuel, s') => (OutOfFuel, s')
  end.

(** *** Node locks: [f.Lock()], [f.Unlock()] *)

Definition Lock (f : fsFile) : M unit := λ s,
  if decide (f ∈ locks_held (log s)) then (Deadlock, s)
  else (Ret (), add_log (EvLock f) s).

Definition Unlock (f : fsFile) : M unit := λ s,
  if decide (f ∈ locks_held (log s)) then (Ret (), add_log (EvUnlock f) s)
  else (Panic, s).

(** *** The cache, the remote, the channel and the clock in the monad *)

Definition metaOk (f : fsFile) : M bool := λ s, (Ret (c_metaOk (cst s) f), s).
Definition dataOk (f : fsFile) : M bool := λ s, (Ret (c_dataOk (cst s) f), s).
Definition isDel (f : fsFile) : M bool := λ s, (Ret (c_isDel (cst s) f), s).
Definition oldDataOk (f : fsFile) : M bool := λ s, (Ret (c_oldDataOk (cst s) f), s).
Definition dir (f : fsFile) : M Dir := λ s, (Ret (c_dir (cst s) f), s).
Definition gone (f : fsFile) : M unit := λ s, (Ret (), set_cst (c_gone (cst s) f) s).
Definition inval (f : fsFile) : M unit := λ s, (Ret (), set_cst (c_inval (cst s) f) s).
Definition gotMeta (f : fsFile) (d : Dir) : M (option error) := λ s,
  let '(err, c) := c_gotMeta (cst s) f d in (Ret err, set_cst c s).
Definition gotDir (f : fsFile) (ds : list Dir) : M (option error) := λ s,
  let '(err, c) := c_gotDir (cst s) f ds in (Ret err, set_cst c s).
Definition gotData (f : fsFile) (c : instream) : M (option error) := λ s,
  let '(err, c) := c_gotData (cst s) f c in (Ret err, set_cst c s).
Definition walk1 (f : fsFile) (name : string) : M (option error) := λ s,
  (Ret (c_walk1 (cst s) f name), s).
Definition getDir (f : fsFile) : M (error + list Dir) := λ s,
  (Ret (c_getDir (cst s) f), s).
Definition newFile (f : fsFile) (d : Dir) : M (option error) := λ s,
  let '(err, c, r) := c_newFile (cst s) (rst s) f d in
  (Ret err, set_rst r (set_cst c s)).
Definition f_wstat (f : fsFile) (nd : Dir) : M (option error) := λ s,
  let '(err, c) := c_wstat (cst s) f nd in (Ret err, set_cst c s).
Definition f_sync (f : fsFile) : M unit := λ s,
  let '(c, r) := c_fsync (cst s) (rst s) f in (Ret (), set_rst r (set_cst c s)).
Definition cache_sync : M (option error) := λ s,
  let '(err, c, r) := c_sync (cst s) (rst s) in
  (Ret err, set_rst r (set_cst c (add_log EvCacheSync s))).

Definition remote {A} (ev : event) (call : R → A * R) : M A := λ s,
  let '(a, r) := call (rst s) in (Ret a, set_rst r (add_log ev s)).

(** [ok := c <- m]: the consumer takes the message unless it closed the
    channel. *)
Definition send (m : msg) : M bool := λ s,
  match budget s with
  | Some O => (Ret false, s)
  | Some (S n) =>
      (Ret true, MkState (cst s) (rst s) (log s ++ [EvSend m]) (Some n)
                         (cclose s) (clock s))
  | None => (Ret true, add_log (EvSend m) s)
  end.

(** [return cerror(c)]. *)
Definition cerror {A} (a : A) : M A := λ s,
  match cclose s with Some e => (Fail e, s) | None => (Ret a, s) end.

(** [time.Now()]. *)
Definition now : M N := λ s,
  (Ret (clock s),
   MkState (cst s) (rst s) (log s) (budget s) (cclose s) (N.succ (clock s))).

(** [d.SetTime(k, t)]. *)
Definition SetTime (d : Dir) (k : string) (t : N) : Dir := <[k := time_String t]> d.

Variable fs : Fs.

Definition ctldir : Dir :=
  <["name" := "Ctl"]> (<["path" := "/Ctl"]> (<["addr" := "zxc!/Ctl"]>
  (<["mode" := "0644"]> (<["size" := "0"]> (<["mtime" := "0"]>
  (<["type" := "c"]> (<["uid" := u_Uid]> (<["gid" := u_Uid]>
  (<["wuid" := u_Uid]> ∅))))))))).

Definition needSync : M unit := emit EvNeedSync.

Definition needRedial : M unit :=
  if negb (redialok fs) then mret () else emit EvNeedRedial.

(** *** Fetching from the remote; [f] is locked *)

Definition getMeta (f : fsFile) : M (option error) :=
  r ← remote (EvRemoteStat (path_of f)) (λ r, r_stat r (path_of f));
  match r with
  | inl err =>
      if zx.IsIOError (Some err) && redialok fs then
        needRedial;; mret None (* have old meta; use that *)
      else
        (if zx.IsNotExist (Some err) then gone f else mret ());;
        mret (Some err)
  | inr d => gotMeta f d
  end.

Definition getDirData (f : fsFile) : M (option error) :=
  r ← remote (EvRemoteGetDir (path_of f)) (λ r, r_getdir r (path_of f));
  match r with
  | inl err =>
      old ← oldDataOk f;
      if zx.IsIOError (Some err) && redialok fs && old then
        (* use the old data *)
        needRedial;; mret None
      else
        (if zx.IsNotExist (Some err) then gone f else mret ());;
        mret (Some err)
  | inr ds =>
      gotDir f ((λ d, <["addr" := "zxc!" +:+ dget d "path"]> d) <$> ds)
  end.

Definition getData (f : fsFile) : M (option error) :=
  c ← remote (EvRemoteGet (path_of f)) (λ r, r_get r (path_of f) 0 (-1));
  err ← gotData f c;
  match err with
  | Some e =>
      old ← oldDataOk f;
      if zx.IsIOError (Some e) && redialok fs && old then
        (* use the old data *)
        needRedial;; mret None
      else mret err
  | None => mret err
  end.

(** *** walk

    [defer f.Unlock(); return f, fmt.Errorf("%s: %s", f, err)]. *)
Definition walk_fail {A} (f : fsFile) (err : error) : M A :=
  Unlock f;; fail (ErrCtx (path_of f) err).

(** The switch of [walk] taken at the last node ([len(els) == 0]); [d] is
    [f.dir()]. *)
Definition walk_end (why : walkFor) (f : fsFile) (d : Dir) : M fsFile :=
  match why with
  | forStat => mret f
  | forGet =>
      if perms fs && negb (CanGet d (ai fs)) then walk_fail f ErrPerm
      else
        ok ← dataOk f;
        if negb ok then
          err ← (if decide (dget d "type" = "d") then getDirData f
                 else getData f);
          match err with
          | Some e => walk_fail f e
          | None => mret f
          end
        else mret f
  | forPut =>
      if decide (dget d "type" = "d") then walk_fail f ErrIsDir
      else
        ok ← dataOk f;
        if negb ok then
          err ← getData f;
          match err with
          | Some e => walk_fail f e
          | None => mret f
          end
        else mret f
  | forDel =>
      ok ← dataOk f;
      if negb ok && bool_decide (dget d "type" = "d") then
        err ← getDirData f;
        match err with
        | Some e => walk_fail f e
        | None => mret f
        end
      else mret f
  | forCreat | forCreatAll =>
      if false && bool_decide (dget d "type" = "d") then walk_fail f ErrExists
      else mret f
  | forLink => walk_fail f ErrExists
  end.

(** The directory [walk] makes for a missing ancestor when walking
    [forCreatAll]; [od] is the [Dir] of the parent and [t] the time. *)
Definition newdir (nd od : Dir) (name : string) (t : N) : Dir :=
  let dd := <["type" := "d"]> nd in
  let dd := <["name" := name]> dd in
  let dd := <["path" := fpath.Join (dget od "path") name]> dd in
  let dd := <["addr" := "zxc!" +:+ dget dd "path"]> dd in
  let uid := match ai fs with Some a => Uid a | None => dget od "uid" end in
  let gid := dget od "gid" in
  let dd := <["uid" := uid]> dd in
  let dd := <["gid" := gid]> dd in
  let dd := <["mode" := dget od "mode"]> dd in
  let dd := SetTime dd "mtime" t in
  <["wuid" := uid]> dd.

(** The end of a turn of the loop of [walk] at the locked directory [f],
    after its entries were checked: the step to the child [el], with [rest]
    to walk after it; [d] is [f.dir()] and [next] the next turn of the
    loop. *)
Definition walk_step (next : fsFile → list string → M fsFile)
    (why : walkFor) (nd : Dir) (f : fsFile) (d : Dir) (el : string)
    (rest : list string) : M fsFile :=
  let last := bool_decide (rest = []) in
  if last && bool_decide (why = forStat)
     && perms fs && negb (CanGet d (ai fs)) then walk_fail f ErrPerm else
  if last && bool_decide (why ∈ [forDel; forCreat; forCreatAll; forLink])
     && perms fs && negb (CanPut d (ai fs)) then walk_fail f ErrPerm else
  err ← walk1 f el;
  let isnotexist := zx.IsNotExist err in
  err ← (if bool_decide (why = forCreatAll) && isnotexist && negb last then
           od ← dir f;
           t ← now;
           nerr ← newFile f (newdir nd od el t);
           mret (match nerr with None => None | Some _ => err end)
         else mret err);
  match err with
  | Some e =>
      if bool_decide (why ∈ [forCreat; forCreatAll; forLink])
         && last && isnotexist then mret f
      else walk_fail f (ErrCtx el e)
  | None => Unlock f;; next (child f el) rest
  end.

(** One turn of the loop of [walk] at the locked node [f], after its
    metadata were checked, with the elements [els] still to walk. *)
Definition walk_node (next : fsFile → list string → M fsFile)
    (why : walkFor) (nd : Dir) (f : fsFile) (els : list string) : M fsFile :=
  del ← isDel f;
  if (del : bool) then walk_fail f ErrNotExist else
  d ← dir f;
  match els with
  | [] => walk_end why f d
  | el :: rest =>
  if decide (dget d "type" ≠ "d") then walk_fail f ErrNotDir else
  if perms fs && negb (CanWalk d (ai fs)) then walk_fail f ErrPerm else
  ok ← dataOk f;
  err ← (if negb ok then getDirData f else mret None);
  match err with
  | Some e => walk_fail f e
  | None => walk_step next why nd f d el rest
  end end.

(** The loop of [walk], entered at node [f] with the elements [els] still
    to walk.  If the walk works, the file is returned locked. *)
Fixpoint walk_from (why : walkFor) (nd : Dir) (f : fsFile) (els : list string)
    {struct els} : M fsFile :=
  Lock f;;
  ok ← metaOk f;
  err ← (if negb ok then getMeta f else mret None);
  match err with
  | Some e => walk_fail f e
  | None => walk_node (walk_from why nd) why nd f els
  end.

(** [fs.walk(why, nd, els...)]: from the root of the cache. *)
Definition walk (why : walkFor) (nd : Dir) (els : list string) : M fsFile :=
  walk_from why nd (File "/") els.

(** *** stat, wstat *)

Definition stat (p : string) : M Dir :=
  match zx.UseAbsPath p with
  | inl err => fail err
  | inr p =>
  if decide (p = "/Ctl") then mret ctldir else
  f ← walk forStat ∅ (zx.Elems p);
  d ← dir f;
  Unlock f;;
  mret d
  end.

Definition wstat (p : string) (nd : Dir) : M Dir :=
  match zx.UseAbsPath p with
  | inl err => fail err
  | inr p =>
  if decide (p = "/Ctl") then
    (* wstat is ignored for this file *)
    mret ctldir
  else
  let why := if decide (dget nd "size" ≠ "") then forPut else forStat in
  f ← walk why ∅ (zx.Elems p);
  d ← dir f;
  let ai := if negb (perms fs) then None else ai fs in
  let nd := if decide (dget d "type" = "d") then delete "size" nd else nd in
  let nd := if decide (dget nd "wuid" ≠ "") then delete "wuid" nd else nd in
  match CanWstat d ai nd with
  | Some err => Unlock f;; fail (ErrCtx p err)
  | None =>
  err ← f_wstat f nd;
  match err with
  | Some err => Unlock f;; fail err
  | None =>
  d ← dir f; (* [d] is the map of the node, which [f.wstat] updated *)
  Unlock f;;
  (if wsync fs then f_sync f else needSync);;
  mret d
  end end end.

(** *** get *)

(** A Go [int64] after a decrement. *)
Definition wrap64 (z : Z) : Z := (z + 2 ^ 63) mod 2 ^ 64 - 2 ^ 63.

(** The bytes of [s] from [o] on ([s[o:]]) and up to [n] ([s[:n]]). *)
Definition slice_from (s : string) (o : nat) : string :=
  String.substring o (String.length s - o) s.
Definition slice_to (s : string) (n : nat) : string := String.substring 0 n s.

Definition getCtl (off count : Z) : M unit :=
  '(chunks, err) ← remote (EvRemoteGet "/Ctl") (λ r, r_get r "/Ctl" 0 zx.All);
  let resp :=
    match err with
    | None => ctltext fs +:+ foldr String.append "" chunks
    | Some _ => ctltext fs
    end in
  let len := Z.of_nat (String.length resp) in
  let o := if bool_decide (off >= len) then len else off in
  if bool_decide (o < 0) then panic else
  let resp := slice_from resp (Z.to_nat o) in
  let len := Z.of_nat (String.length resp) in
  let n := if bool_decide (count > len) || bool_decide (count < 0) then len
           else count in
  ok ← send (MBytes (slice_to resp (Z.to_nat n)));
  if negb ok then cerror () else mret ().

(** [f.getData(off, count, c)]: unlocks [f], then streams the bytes. *)
Definition f_getData (f : fsFile) (off count : Z) : M unit :=
  Unlock f;;
  '(chunks, err) ← (λ s, (Ret (c_getData (cst s) f off count), s)) : M instream;
  (fix sendall (chunks : list string) : M unit :=
     match chunks with
     | [] => check err
     | b :: chunks =>
         ok ← send (MBytes b);
         if negb ok then cerror () else sendall chunks
     end) chunks.

(** The loop of [get] over the entries [ds] of a directory. *)
Fixpoint get_loop (fuel : nat) (p : string) (ds : list Dir) (i : nat)
    (off count : Z) (ctlsent : bool) : M unit :=
  match fuel with
  | O => out_of_fuel
  | S fuel =>
  if negb (bool_decide (i < length ds)%nat) then mret () else
  if bool_decide (off > 0) then
    let off := off - 1 in
    if negb ctlsent && bool_decide (p = "/") then
      get_loop fuel p ds i off count true
    else get_loop fuel p ds (S i) off count ctlsent
  else
  if bool_decide (count = 0) then mret () (* break Dloop *) else
  let count :=
    if bool_decide (count = zx.All) then count else wrap64 (count - 1) in
  if negb ctlsent && bool_decide (p = "/") then
    ok ← send (MDir ctldir);
    if negb ok then cerror () else
    (* but not i++ *)
    get_loop fuel p ds i off count true
  else
  match ds !! i with
  | None => panic
  | Some d =>
  if bool_decide (dget d "name" = ".zx") || bool_decide (dget d "name" = ".#zx")
  then
    if bool_decide (i = length ds - 1)%nat then mret () (* break *)
    else get_loop fuel p (delete i ds) i off count ctlsent
  else
    ok ← send (MDir d);
    if negb ok then cerror () else
    get_loop fuel p ds (S i) off count ctlsent
  end
  end.

Definition get (p : string) (off count : Z) : M unit :=
  match zx.UseAbsPath p with
  | inl err => fail err
  | inr p =>
  if decide (p = "/Ctl") then getCtl off count else
  f ← walk forGet ∅ (zx.Elems p);
  d ← dir f;
  if decide (dget d "type" ≠ "d") then
    (* this unlocks f before actually sending anything *)
    f_getData f off count
  else
  r ← getDir f;
  Unlock f;;
  match r with
  | inl err => fail err
  | inr ds => get_loop (length ds + 2) p ds 0 off count false
  end
  end.

(** *** move *)

Definition inconsistentMove (from to : string) : bool :=
  if decide (from = to) then false
  else
    (* moves from inside itself? i.e. is from a prefix of to *)
    zx.HasPrefix to from.

(** [els[:len(els)-1]]. *)
Definition but_last (els : list string) : M (list string) :=
  match els with
  | [] => panic
  | _ => mret (removelast els)
  end.

Definition move (from to : string) : M unit :=
  match r_move with
  | None => fail (ErrCtx (Tag fs) (ErrNotSupported "move"))
  | Some rfs_Move =>
  match zx.UseAbsPath from with
  | inl err => fail err
  | inr from =>
  match zx.UseAbsPath to with
  | inl err => fail err
  | inr to =>
  if decide (from = to) then mret () else
  if decide (from = "/Ctl" ∨ from = "/") then
    fail (ErrCtx ("move " +:+ from) ErrPerm) else
  if decide (to = "/Ctl" ∨ to = "/") then
    fail (ErrCtx ("move " +:+ to) ErrPerm) else
  if inconsistentMove from to then
    fail (ErrCtx ("move " +:+ from) ErrInconsistentMove) else
  cache_sync;;
  let fromels := zx.Elems from in
  ffrom ← walk forDel ∅ fromels;
  inval ffrom;;
  Unlock ffrom;;
  let toels := zx.Elems to in
  fto ← walk forCreat ∅ toels;
  inval fto;;
  Unlock fto;;
  (* now we have a race, lock the parents, invalidate them, issue the
     request to the remote fs and we are done. *)
  let pfrom := fpath.Dir from in
  let pto := fpath.Dir to in
  let forward (ffrom fto : fsFile) : M unit :=
    inval ffrom;;
    inval fto;;
    err ← remote (EvRemoteMove from to) (λ r, rfs_Move r from to);
    check err in
  (* The lock order must be this way, because walk returns the file
     locked, and we must walk the inner path first, if one is a prefix of
     another *)
  match String.compare pfrom pto with
  | Gt =>
      els ← but_last fromels;
      ffrom ← walk forStat ∅ els;
      defer (Unlock ffrom) (
        els ← but_last toels;
        fto ← walk forStat ∅ els;
        defer (Unlock fto) (forward ffrom fto))
  | Eq =>
      els ← but_last fromels;
      ffrom ← walk forStat ∅ els;
      defer (Unlock ffrom) (forward ffrom fto)
  | Lt =>
      els ← but_last toels;
      fto ← walk forStat ∅ els;
      defer (Unlock fto) (
        els ← but_last fromels;
        ffrom ← walk forStat ∅ els;
        defer (Unlock ffrom) (forward ffrom fto))
  end
  end end end.

(** *** link *)

Definition inconsistentLink (oldp newp : string) : bool :=
  (* links back to a parent? i.e. is oldp a prefix of newp *)
  zx.HasPrefix newp oldp.

Definition link (to from : string) : M unit :=
  match r_link with
  | None => fail (ErrCtx (Tag fs) (ErrNotSupported "link"))
  | Some rfs_Link =>
  match zx.UseAbsPath from with
  | inl err => fail err
  | inr from =>
  match zx.UseAbsPath to with
  | inl err => fail err
  | inr to =>
  if decide (from = to) then mret () else
  if decide (from = "/Ctl" ∨ from = "/") then
    fail (ErrCtx ("link " +:+ from) ErrPerm) else
  if decide (to = "/Ctl" ∨ to = "/") then
    fail (ErrCtx ("link " +:+ to) ErrPerm) else
  if inconsistentLink from to then
    fail (ErrCtx ("link " +:+ from) ErrInconsistentLink) else
  cache_sync;;
  let toels := zx.Elems from in
  fto ← walk forStat ∅ toels;
  Unlock fto;;
  let fromels := zx.Elems from in
  ffrom ← walk forLink ∅ fromels;
  defer (Unlock ffrom) (
    inval ffrom;;
    err ← remote (EvRemoteLink to from) (λ r, rfs_Link r to from);
    getDirData ffrom;;
    check err)
  end end end.

(** *** put *)

Definition putCtl (c : option instream) : M unit :=
  match c with
  | None => λ s, (Deadlock, s) (* ranging over a nil channel *)
  | Some (chunks, cerr) =>
  check cerr;;
  let ctl := foldr String.append "" chunks in
  if String.prefix "pass " ctl then
    match r_put with
    | None => fail (ErrMsg "can't pass ctl: rfs is not a putter")
    | Some rfs_Put =>
        err ← remote (EvRemotePut "/Ctl")
                (λ r, rfs_Put r "/Ctl" ∅ 0 ([slice_from ctl 5], None));
        check err
    end
  else
    err ← (λ s, let '(err, c, r) := flags_Ctl ctl (cst s) (rst s) in
                (Ret err, set_rst r (set_cst c s))) : M (option error);
    check err
  end.

(** [f.putData(off, c, umtime)]: unlocks [f] and takes the bytes. *)
Definition f_putData (f : fsFile) (off : Z) (c : instream) (umtime : string)
    : M (option error) :=
  Unlock f;;
  ((λ s, let '(err, c) := c_putData (cst s) f off c umtime in
         (Ret err, set_cst c s)) : M (option error)).

(** The second half of [put], after the walk returned the locked node [f]
    with [Dir] [wd] and the type was checked against it: the file or
    directory is made, unless [f] is it, and written. *)
Definition put_file (p : string) (d : Dir) (typ : string) (off : Z)
    (c : option instream) (f : fsFile) (wd : Dir) : M Dir :=
  let uid := dget wd "uid" in
  let gid := dget wd "gid" in
  let uid :=
    if decide (uid = "") then
      match ai fs with
      | Some a => if decide (Uid a ≠ "") then Uid a else u_Uid
      | None => u_Uid
      end
    else uid in
  let gid := if decide (gid = "") then uid else gid in
  let wd :=
    if decide (dget wd "path" ≠ p) then
      <["type" := typ]> (<["mode" := dget wd "mode"]> (<["uid" := uid]>
      (<["gid" := gid]> ∅)))
    else wd in
  let ai := if perms fs then ai fs else None in
  match CanWstat wd ai d with
  | Some err => Unlock f;; fail err
  | None =>
  let umtime := dget d "mtime" in
  d ← (if decide (umtime = "") then t ← now; mret (SetTime d "mtime" t)
       else mret d);
  let d := <["wuid" := uid]> d in
  '(f, d) ←
    (if decide (dget wd "path" ≠ p) then (* new dir or new file *)
       let d := <["type" := typ]> d in
       let d := if decide (dget d "uid" = "") then <["uid" := uid]> d else d in
       let d := if decide (dget d "gid" = "") then <["gid" := gid]> d else d in
       let d := <["name" := fpath.Base p]> d in
       let d := <["path" := p]> d in
       let d := if decide (dget d "mode" = "")
                then <["mode" := dget wd "mode"]> d else d in
       let d := if decide (dget d "size" = "") then <["size" := "0"]> d
                else d in
       let d := <["addr" := "zxc!" +:+ p]> d in
       err ← newFile f d;
       Unlock f;;
       check err;;
       mret (File p, d)
     else
       (if decide (typ = "-") then f_wstat f {["size" := "0"]};; mret ()
        else mret ());;
       mret (f, d)) : M (fsFile * Dir);
  if bool_decide (dget wd "path" ≠ p) && bool_decide (typ = "d") then mret d
  else
  (if decide (dget wd "path" ≠ p) then Lock f else mret ());;
  let c := default ([], None) c in
  err ← f_wstat f d;
  match err with
  | Some err => Unlock f;; fail err
  | None =>
  if decide (typ = "d") then
    d ← dir f;
    Unlock f;;
    (if wsync fs then f_sync f else needSync);;
    mret d
  else
  (* putData will unlock f *)
  err ← f_putData f off c umtime;
  Lock f;;
  d ← dir f;
  Unlock f;;
  (if wsync fs then f_sync f else needSync);;
  check err;;
  mret d
  end end.

Definition put (p : string) (d : Dir) (off : Z) (c : option instream) : M Dir :=
  match zx.UseAbsPath p with
  | inl err => fail err
  | inr p =>
  if decide (p = "/") then fail (ErrCtx "/" ErrIsDir) else
  if decide (p = "/Ctl") then putCtl c;; mret ctldir else
  let els := zx.Elems p in
  let typ := dget d "type" in
  '(f, d, typ) ←
    (if decide (typ = "") then
       f ← walk forPut ∅ els; mret (f, d, typ)
     else if decide (typ = "d" ∨ typ = "-") then
       let d := if decide (typ = "d") then delete "size" d
                else if decide (dget d "size" = "") then <["size" := "0"]> d
                else d in
       f ← walk forCreat ∅ els; mret (f, d, typ)
     else if decide (typ = "D") then
       (* [if typ == "d" { delete(d, "size") }] cannot fire here *)
       let d := <["type" := "d"]> d in
       f ← walk forCreatAll d els; mret (f, d, "d")
     else if decide (typ = "F") then
       let d := <["type" := "-"]> d in
       let d := if decide (dget d "size" = "") then <["size" := "0"]> d
                else d in
       f ← walk forCreatAll d els; mret (f, d, "-")
     else fail (ErrCtx p (ErrBadType typ))) : M (fsFile * Dir * string);
  wd ← dir f;
  if bool_decide (dget wd "path" = p) && bool_decide (typ ≠ "")
     && bool_decide (dget wd "type" ≠ typ) then
    Unlock f;; fail (ErrCtx p ErrExists)
  else put_file p d typ off c f wd
  end.

(** *** find *)

(** The loop of [findr] over the entries [ds] of the directory [f]; [err]
    is the variable [err] of [findr], which the loop assigns for every
    entry but [/Ctl]; [rec] is the recursive call. *)
Fixpoint findr_children (rec : fsFile → Dir → string → M unit)
    (f : fsFile) (spref dpref : string) (ds : list Dir) (err : option error)
    : M unit :=
  match ds with
  | [] => mret ()
  | cd :: ds =>
  Lock f;;
  let isctl := bool_decide (dget cd "path" = "/Ctl") in
  let cf := if isctl then Ctlfile else child f (dget cd "name") in
  err ← (if isctl then mret err else walk1 f (dget cd "name"));
  Unlock f;;
  if bool_decide (err ≠ None) || bool_decide (dget cd "rm" ≠ "") then
    findr_children rec f spref dpref ds err
  else
  let cp := dget cd "path" in
  cd ← (if decide (spref ≠ dpref) then
          let cpath := dget cd "path" in
          let suff := zx.Suffix cpath spref in
          if decide (suff = "") then
            fail (ErrCtx ("Y" +:+ spref) (ErrCtx cpath ErrNotSuffix))
          else mret (<["path" := fpath.Join dpref suff]> cd)
        else mret cd);
  Lock cf;;
  ok ← dataOk cf;
  derr ← (if bool_decide (dget cd "type" = "d") && negb ok then getDirData cf
          else mret None);
  match derr with
  | Some e => Unlock cf;; fail (ErrCtx (path_of cf) e)
  | None =>
  (* findr will unlock cf *)
  rec cf cd cp;;
  findr_children rec f spref dpref ds err
  end
  end.

(** [f] is locked and will be unlocked before [findr] returns; its data is
    valid at the time of the call. *)
Fixpoint findr (fuel : nat) (fp : P) (spref dpref : string) (lvl : Z)
    (f : fsFile) (d : Dir) (p : string) : M unit :=
  match fuel with
  | O => out_of_fuel
  | S fuel =>
  let '(matched, pruned, err) := EvalAt fp d lvl in
  if (pruned : bool) then
    Unlock f;;
    send (MDir (if negb matched then <["err" := "pruned"]> d else d));;
    mret ()
  else
  match err with
  | Some e => Unlock f;; fail e
  | None =>
  if decide (dget d "rm" ≠ "") then Unlock f;; mret () else
  '(ds, d, err) ←
    (if decide (dget d "type" = "d") then
       r ← getDir f;
       match r with
       | inl e => mret ([], <["err" := err_Error e]> d, Some e)
       | inr ds =>
           if decide (path_of f = "/") then mret (ctldir :: ds, d, None)
           else mret (ds, d, None)
       end
     else mret ([], d, None)) : M (list Dir * Dir * option error);
  Unlock f;;
  ok ← (if matched || bool_decide (err ≠ None) then send (MDir d)
        else mret true);
  if negb ok then cerror () else
  findr_children (findr fuel fp spref dpref (lvl + 1)) f spref dpref ds err
  end
  end.

Definition find (fuel : nat) (p fpred spref dpref : string) (depth : Z)
    : M unit :=
  match zx.UseAbsPath p with
  | inl err => fail err
  | inr p =>
  '(f, d) ←
    (if decide (p = "/Ctl") then Lock Ctlfile;; mret (Ctlfile, ctldir)
     else
       f ← walk forGet ∅ (zx.Elems p);
       d ← dir f;
       mret (f, d)) : M (fsFile * Dir);
  r ← (if bool_decide (spref ≠ "") || bool_decide (dpref ≠ "") then
         match zx.UseAbsPath spref with
         | inl err => Unlock f;; fail err
         | inr spref =>
             match zx.UseAbsPath dpref with
             | inl err => Unlock f;; fail err
             | inr dpref => mret (spref, dpref)
             end
         end
       else mret (spref, dpref)) : M (string * string);
  let '(spref, dpref) := r in
  match pred_New fpred with
  | inl err => Unlock f;; fail err
  | inr fp =>
  d ← (if decide (spref ≠ dpref) then
         let suff := zx.Suffix p spref in
         if decide (suff = "") then
           Unlock f;;
           fail (ErrCtx ("suffix " +:+ spref +:+ " " +:+ p) ErrNotSuffix)
         else mret (<["path" := fpath.Join dpref suff]> d)
       else mret d);
  (* findr unlocks f *)
  findr fuel fp spref dpref depth f d p
  end
  end.

(** *** remove *)

(** [f.remove(all)]. *)
Definition f_remove (f : fsFile) (all : bool) : M (option error) := λ s,
  let '(err, c) := c_remove (cst s) f all in (Ret err, set_cst c s).

Definition remove (p : string) (all : bool) : M unit :=
  match zx.UseAbsPath p with
  | inl err => fail err
  | inr p =>
  if decide (p = "/Ctl" ∨ p = "/") then
    fail (ErrCtx ("remove " +:+ p) ErrPerm) else
  let els := zx.Elems p in
  f ← walk forDel ∅ els;
  err ← f_remove f all;
  Unlock f;;
  (if wsync fs then f_sync f else needSync);;
  check err
  end.

(** *** dpath *)

(** Go's [strings.LastIndexByte(s, c)]: the index of the last [c] in [s],
    or -1; [i] is the index of the head of [s] and [last] the result so
    far. *)
Fixpoint last_index_from (i : nat) (s : string) (c : ascii) (last : Z) : Z :=
  match s with
  | EmptyString => last
  | String x r =>
      last_index_from (S i) r c (if Ascii.eqb x c then Z.of_nat i else last)
  end.

Definition LastIndexByte (s : string) (c : ascii) : Z :=
  last_index_from 0 s c (-1).

(** [fs.dpath(d)]: the path in the address of an entry. *)
Definition dpath (d : Dir) : string :=
  let old := dget d "addr" in
  let p := LastIndexByte old "!"%char in
  let p := if bool_decide (p < 0) then 0 else p + 1 in
  slice_from old (Z.to_nat p).

End Zxc.

Arguments State : clear implicits.
Arguments M : clear implicits.

(** ** An in-memory cache and remote

    A small instance of the interfaces, to run the operations on concrete
    trees. *)

Module Mem.

(** A node of the cache: its metadata, the validity flags, the names of its
    children and its bytes. *)
Record mFile : Type := MkFile {
  m_dir : Dir;
  m_meta : bool;
  m_data : bool;
  m_gone : bool;
  m_dirty : bool;
  m_old : bool;
  m_child : list string;
  m_bytes : string
}.

Definition set_flags (meta data : bool) (n : mFile) : mFile :=
  MkFile (m_dir n) meta data (m_gone n) (m_dirty n) (m_old n) (m_child n)
         (m_bytes n).
Definition set_gone (n : mFile) : mFile :=
  MkFile (m_dir n) (m_meta n) (m_data n) true (m_dirty n) (m_old n)
         (m_child n) (m_bytes n).
Definition set_dirty (b : bool) (n : mFile) : mFile :=
  MkFile (m_dir n) (m_meta n) (m_data n) (m_gone n) b (m_old n) (m_child n)
         (m_bytes n).

Definition fresh (d : Dir) : mFile := MkFile d true false false false false [] "".

(** The nodes of the cache by path. *)
Abbreviation mCache := (gmap string mFile).

Definition node (c : mCache) (f : fsFile) : option mFile :=
  match f with File p => c !! p | Ctlfile => None end.

Definition flag (get : mFile → bool) (c : mCache) (f : fsFile) : bool :=
  match node c f with Some n => get n | None => false end.

Definition update (g : mFile → mFile) (c : mCache) (f : fsFile) : mCache :=
  match f with File p => alter g p c | Ctlfile => c end.

(** Modelled from the spec: [gotMeta(d)] accepts metadata from the remote:
    if the type or the size changed it clears [dataOk]; it sets [metaOk] and
    rewrites [addr] to [zxc!<path>]. *)
Definition gotMeta (c : mCache) (f : fsFile) (d : Dir) : option error * mCache :=
  let d := <["addr" := "zxc!" +:+ path_of f]> d in
  let n := default (fresh d) (node c f) in
  let same := bool_decide (dget d "type" = dget (m_dir n) "type")
              && bool_decide (dget d "size" = dget (m_dir n) "size") in
  let n' := MkFile d true (m_data n && same) (m_gone n) (m_dirty n) (m_old n)
                   (m_child n) (m_bytes n) in
  (None, match f with File p => <[p := n']> c | Ctlfile => c end).

(** Modelled from the spec: [gotDir(ds)] accepts a directory listing:
    children are reconciled by name, surviving children keep their identity,
    missing children are tombstoned, new children are added with [metaOk]
    from the listing; it sets [dataOk]. *)
Definition gotDir (c : mCache) (f : fsFile) (ds : list Dir)
    : option error * mCache :=
  match f, node c f with
  | File p, Some n =>
      let names := (λ d, dget d "name") <$> ds in
      let c := foldr (λ name c,
                 if bool_decide (name ∈ names) then c
                 else alter set_gone (fpath.Join p name) c) c (m_child n) in
      let c := foldr (λ d c,
                 let cp := fpath.Join p (dget d "name") in
                 match c !! cp with
                 | Some _ => c
                 | None => <[cp := fresh d]> c
                 end) c ds in
      (None, <[p := MkFile (m_dir n) (m_meta n) true (m_gone n) (m_dirty n)
                           true names (m_bytes n)]> c)
  | _, _ => (Some ErrNotExist, c)
  end.

(** Modelled from the spec: [gotData(stream)] consumes a byte stream into
    the content buffer; on error before EOF it does not set [dataOk]. *)
Definition gotData (c : mCache) (f : fsFile) (st : instream)
    : option error * mCache :=
  match st.2 with
  | Some e => (Some e, c)
  | None =>
      (None, update (λ n, MkFile (m_dir n) (m_meta n) true (m_gone n)
                                 (m_dirty n) true (m_child n)
                                 (foldr String.append "" st.1)) c f)
  end.

(** Modelled from the spec: [walk1(name)] returns the child by name,
    not-exist if absent. *)
Definition walk1 (c : mCache) (f : fsFile) (name : string) : option error :=
  match node c f with
  | Some n =>
      if bool_decide (name ∈ m_child n) then
        match c !! fpath.Join (path_of f) name with
        | Some _ => None
        | None => Some ErrNotExist
        end
      else Some ErrNotExist
  | None => Some ErrNotExist
  end.

(** The entries of a directory, in the order of its names. *)
Definition getDir (c : mCache) (f : fsFile) : error + list Dir :=
  match node c f with
  | Some n =>
      inr (omap (λ name, m_dir <$> c !! fpath.Join (path_of f) name)
                (m_child n))
  | None => inl ErrNotExist
  end.

(** Modelled from the spec: [newFile(d, remote)] creates a child node with
    metadata [d] and marks it dirty. *)
Definition newFile {R} (c : mCache) (r : R) (f : fsFile) (d : Dir)
    : option error * mCache * R :=
  match f, node c f with
  | File p, Some n =>
      let name := dget d "name" in
      let c := <[fpath.Join p name := set_dirty true (fresh d)]> c in
      (None, <[p := MkFile (m_dir n) (m_meta n) (m_data n) (m_gone n)
                           (m_dirty n) (m_old n) (m_child n ++ [name])
                           (m_bytes n)]> c, r)
  | _, _ => (Some ErrNotExist, c, r)
  end.

(** Modelled from the spec: [wstat(nd)] applies a metadata delta to [dir],
    marks the node dirty and never changes [type]. *)
Definition wstat (c : mCache) (f : fsFile) (nd : Dir) : option error * mCache :=
  (None, update (λ n, set_dirty true
                   (MkFile (delete "type" nd ∪ m_dir n) (m_meta n) (m_data n)
                           (m_gone n) (m_dirty n) (m_old n) (m_child n)
                           (m_bytes n))) c f).

(** Modelled from the spec: [remove(all)] fails on a directory that is not
    empty unless [all]; it marks the node gone and dirty. *)
Definition remove (c : mCache) (f : fsFile) (all : bool)
    : option error * mCache :=
  match node c f with
  | Some n =>
      if negb all && bool_decide (m_child n ≠ []) then
        (Some (ErrMsg "directory is not empty"), c)
      else (None, update (λ n, set_dirty true (set_gone n)) c f)
  | None => (Some ErrNotExist, c)
  end.

(** Modelled from the spec: [putData(off, stream, umtime)] overwrites the
    bytes from [off] on, updates [size], sets [mtime] and marks the node
    dirty. *)
Definition putData (c : mCache) (f : fsFile) (off : Z) (st : instream)
    (umtime : string) : option error * mCache :=
  (st.2,
   update (λ n,
     let b := slice_to (m_bytes n) (Z.to_nat off)
              +:+ foldr String.append "" st.1 in
     let d := <["size" := pretty (N.of_nat (String.length b))]> (m_dir n) in
     let d := if decide (umtime = "") then d else <["mtime" := umtime]> d in
     MkFile d (m_meta n) (m_data n) (m_gone n) true (m_old n) (m_child n) b)
     c f).

Definition getData (c : mCache) (f : fsFile) (off count : Z) : instream :=
  match node c f with
  | Some n =>
      let b := slice_from (m_bytes n) (Z.to_nat off) in
      ([if bool_decide (count < 0) then b else slice_to b (Z.to_nat count)],
       None)
  | None => ([], Some ErrNotExist)
  end.

(** Modelled from the spec: syncing clears [dirty]; this remote does not
    record what is pushed. *)
Definition fsync {R} (c : mCache) (r : R) (f : fsFile) : mCache * R :=
  (update (set_dirty false) c f, r).

Definition sync {R} (c : mCache) (r : R) : option error * mCache * R :=
  (None, set_dirty false <$> c, r).

#[global] Instance cache {R} : Cache mCache R := {|
  c_metaOk := flag m_meta;
  c_dataOk := flag m_data;
  c_isDel := flag m_gone;
  c_oldDataOk := flag m_old;
  c_dir := λ c f, default ∅ (m_dir <$> node c f);
  c_gone := update set_gone;
  c_inval := update (set_flags false false);
  c_gotMeta := gotMeta;
  c_gotDir := gotDir;
  c_gotData := gotData;
  c_walk1 := walk1;
  c_getDir := getDir;
  c_newFile := newFile;
  c_wstat := wstat;
  c_remove := remove;
  c_putData := putData;
  c_getData := getData;
  c_fsync := fsync;
  c_sync := sync
|}.

(** The remote: a tree of entries by path, each with its children and
    bytes, that can be [down] (every call is an I/O error). *)
Record rTree : Type := MkTree {
  down : bool;
  entries : gmap string (Dir * list string * string)
}.

Definition ioerr : error := ErrIO "i/o error".

Definition rstat (r : rTree) (p : string) : (error + Dir) * rTree :=
  (if down r then inl ioerr
   else match entries r !! p with
        | Some (d, _, _) => inr d
        | None => inl ErrNotExist
        end, r).

Definition rgetdir (r : rTree) (p : string) : (error + list Dir) * rTree :=
  (if down r then inl ioerr
   else match entries r !! p with
        | Some (_, names, _) =>
            inr (omap (λ name, (λ e, e.1.1) <$> entries r !! fpath.Join p name)
                      names)
        | None => inl ErrNotExist
        end, r).

Definition rget (r : rTree) (p : string) (off count : Z) : instream * rTree :=
  (if down r then ([], Some ioerr)
   else match entries r !! p with
        | Some (_, _, b) =>
            let b := slice_from b (Z.to_nat off) in
            ([if bool_decide (count < 0) then b else slice_to b (Z.to_nat count)],
             None)
        | None => ([], Some ErrNotExist)
        end, r).

(** Moving and linking one entry (the parents' name lists follow). *)
Definition rename (r : rTree) (from to : string) (keep : bool) : rTree :=
  match entries r !! from with
  | Some (d, names, b) =>
      let d := <["path" := to]> (<["name" := fpath.Base to]> d) in
      let es := <[to := (d, names, b)]>
                  (if keep then entries r else delete from (entries r)) in
      let es := alter (λ e, (e.1.1, e.1.2 ++ [fpath.Base to], e.2))
                      (fpath.Dir to) es in
      let es := if keep then es
                else alter (λ e, (e.1.1,
                                  filter (λ n, n ≠ fpath.Base from) e.1.2, e.2))
                           (fpath.Dir from) es in
      MkTree (down r) es
  | None => r
  end.

Definition rmove (r : rTree) (from to : string) : option error * rTree :=
  if down r then (Some ioerr, r)
  else match entries r !! from with
       | Some _ => (None, rename r from to false)
       | None => (Some ErrNotExist, r)
       end.

Definition rlink (r : rTree) (to from : string) : option error * rTree :=
  if down r then (Some ioerr, r)
  else match entries r !! to with
       | Some _ => (None, rename r to from true)
       | None => (Some ErrNotExist, r)
       end.

#[global] Instance rfs : Remote rTree := {|
  r_stat := rstat;
  r_getdir := rgetdir;
  r_get := rget;
  r_put := None;
  r_move := Some rmove;
  r_link := Some rlink
|}.

(** Everything is allowed. *)
#[global] Instance allow : Perms := {|
  CanGet := λ _ _, true;
  CanWalk := λ _ _, true;
  CanPut := λ _ _, true;
  CanWstat := λ _ _ _, None
|}.

(** The predicate that matches every entry and prunes nothing. *)
#[global] Instance all : Preds unit := {|
  pred_New := λ _, inr ();
  EvalAt := λ _ _ _, (true, false, None)
|}.

Fixpoint Error (e : error) : string :=
  match e with
  | ErrNotExist => "no such file or directory"
  | ErrExists => "file already exists"
  | ErrIsDir => "file is a directory"
  | ErrNotDir => "not a directory"
  | ErrPerm => "permission denied"
  | ErrNotSuffix => "not a suffix"
  | ErrNotAbs => "not an absolute path"
  | ErrIO m => m
  | ErrInconsistentMove => "inconsistent move"
  | ErrInconsistentLink => "inconsistent link"
  | ErrNotSupported op => op +:+ " not supported"
  | ErrBadType t => "bad file type '" +:+ t +:+ "'"
  | ErrMsg m => m
  | ErrCtx ctx e => ctx +:+ ": " +:+ Error e
  end.

#[global] Instance sys : Sys mCache rTree := {|
  u_Uid := "nemo";
  time_String := pretty;
  err_Error := Error;
  flags_Ctl := λ _ c r, (None, c, r)
|}.

(** Entries, file systems and states to run on. *)
Definition entry (typ path name : string) : Dir :=
  <["type" := typ]> (<["path" := path]> (<["name" := name]>
  (<["mode" := "0755"]> (<["uid" := "nemo"]> (<["gid" := "nemo"]>
  (<["size" := "0"]> ∅)))))).

Definition cached (d : Dir) (names : list string) : mFile :=
  MkFile d true true false false true names "".

Definition fs0 : Fs := MkFs "zxc!mem" None true false true "lfs zxc!mem:".

Definition state (c : mCache) (r : rTree) : State mCache rTree :=
  MkState c r [] None None 0.

(** A remote where [/] holds the directory [a], and [a] the directory [b]
    and the file [x]; [warm] is a cache that has all of it. *)
Definition tree_entries : gmap string (Dir * list string * string) :=
  <["/" := (entry "d" "/" "/", ["a"], "")]>
  (<["/a" := (entry "d" "/a" "a", ["b"; "x"], "")]>
  (<["/a/b" := (entry "d" "/a/b" "b", [], "")]>
  (<["/a/x" := (entry "-" "/a/x" "x", [], "")]> ∅))).

Definition tree : rTree := MkTree false tree_entries.

(** The same remote, when it cannot be reached. *)
Definition offline : rTree := MkTree true tree_entries.

Definition warm : mCache :=
  <["/" := cached (entry "d" "/" "/") ["a"]]>
  (<["/a" := cached (entry "d" "/a" "a") ["b"; "x"]]>
  (<["/a/b" := cached (entry "d" "/a/b" "b") []]>
  (<["/a/x" := cached (entry "-" "/a/x" "x") []]> ∅))).

(** A remote where [/] holds the files [a] and [b]. *)
Definition two_files : rTree := MkTree false
  (<["/" := (entry "d" "/" "/", ["a"; "b"], "")]>
  (<["/a" := (entry "-" "/a" "a", [], "")]>
  (<["/b" := (entry "-" "/b" "b", [], "")]> ∅))).

(** A remote where [/] holds nothing. *)
Definition bare : rTree := MkTree false
  (<["/" := (entry "d" "/" "/", [], "")]> ∅).

(** What the requests send to their clients, in order: the paths of the
    entries sent. *)
Definition sent (evs : list event) : list string :=
  omap (λ ev, match ev with
              | EvSend (MDir d) => Some (dget d "path")
              | _ => None
              end) evs.

End Mem.

(** ** Notions the properties are stated with *)

Module PathFacts.

Fixpoint noslash (s : string) : bool :=
  match s with
  | EmptyString => true
  | String c r => negb (Ascii.eqb c fpath.slash) && noslash r
  end.

(** A path element: not empty, not [.] or [..], and without a slash. *)
Definition elem (e : string) : Prop :=
  e ≠ "" ∧ e ≠ "." ∧ e ≠ ".." ∧ noslash e = true.

End PathFacts.

Section Notions.

Context {C R : Type}.
Context `{!Cache C R}.

(** The state after a fetch for [f] that failed with the error [e] the
    request does not get over: the node is tombstoned if [e] says that it
    does not exist, and the cache is as it was otherwise. *)
Definition refused (ev : event) (r' : R) (e : error) (f : fsFile)
    (s : State C R) : State C R :=
  if zx.IsNotExist (Some e)
  then set_cst (c_gone (cst s) f) (set_rst r' (add_log ev s))
  else set_rst r' (add_log ev s).

(** The node locks a request holds in state [s], oldest first. *)
Definition held (s : State C R) : list fsFile := locks_held (log s).

(** From [s] to [s'] the request added events to its log, all of them in
    [Q]. *)
Definition ext (Q : event → Prop) (s s' : State C R) : Prop :=
  ∃ evs, log s' = log s ++ evs ∧ Forall Q evs.

(** Every outcome of [m] from [s] satisfies [Φ]. *)
Definition wp {A} (m : M C R A) (s : State C R)
    (Φ : outcome A → State C R → Prop) : Prop :=
  ∀ o s', m s = (o, s') → Φ o s'.

(** [m] only adds events of [Q] to the log. *)
Definition appends {A} (Q : event → Prop) (m : M C R A) : Prop :=
  ∀ s, wp m s (λ _ s', ext Q s s').

(** [m] always returns, without an error, and leaves the locks as they
    are. *)
Definition calm {A} (m : M C R A) : Prop :=
  ∀ s, ∃ a s', m s = (Ret a, s') ∧ held s' = held s.

(** When [m] returns an error, the error is in [K]. *)
Definition fails_in {A} (K : error → Prop) (m : M C R A) : Prop :=
  ∀ s o s', m s = (o, s') → match o with Fail e => K e | _ => True end.

(** What a fetch from the remote adds to the log. *)
Definition fetch_event (ev : event) : Prop :=
  match ev with
  | EvNeedRedial | EvRemoteStat _ | EvRemoteGetDir _ | EvRemoteGet _ => True
  | _ => False
  end.

(** Events that are not a lock or an unlock. *)
Definition lock_free (ev : event) : Prop :=
  match ev with
  | EvLock _ | EvUnlock _ => False
  | _ => True
  end.

(** Events that are not the remote move. *)
Definition not_move (ev : event) : Prop :=
  match ev with
  | EvRemoteMove _ _ => False
  | _ => True
  end.

(** What a walk adds to the log. *)
Definition walk_event (ev : event) : Prop :=
  match ev with
  | EvLock _ | EvUnlock _ => True
  | _ => fetch_event ev
  end.

(** The state after the remote answered the call logged as [ev] and was
    left in state [r']. *)
Definition fetched (ev : event) (r' : R) (s : State C R) : State C R :=
  set_rst r' (add_log ev s).

(** The state after a fetch that failed with an I/O error the request
    gets over: the cache is as it was and the syncer was told to redial. *)
Definition stale (ev : event) (r' : R) (s : State C R) : State C R :=
  add_log EvNeedRedial (fetched ev r' s).



(** The node reached from [f] along the elements [els]. *)
Definition reach (f : fsFile) (els : list string) : fsFile := foldl child f els.

(** What a walk from [f] along [els] leaves, [hs] being the locks held
    before it: on success the node it returns, locked on top of [hs], which
    is the node at the end of [els] or, when walking to create, the parent
    of a missing last element; on failure the locks [hs]. *)
Definition walk_post (why : walkFor) (f : fsFile) (els : list string)
    (hs : list fsFile) (o : outcome fsFile) (s' : State C R) : Prop :=
  match o with
  | Ret g =>
      held s' = (hs ++ [g]) ∧ (g ∉ hs) ∧
      (g = reach f els ∨
       (why ∈ [forCreat; forCreatAll; forLink] ∧ els ≠ [] ∧
        g = reach f (removelast els)))
  | Fail _ => held s' = hs
  | _ => True
  end.

(** From [s] to [s'] the request either did not call the remote to move,
    or called it once, for [from] and [to], holding exactly the locks
    [order], oldest first. *)
Definition move_shape (from to : string) (order : list fsFile)
    (s s' : State C R) : Prop :=
  ∃ evs, log s' = log s ++ evs ∧
    (Forall not_move evs ∨
     ∃ pre post,
       evs = pre ++ EvRemoteMove from to :: post ∧
       Forall not_move pre ∧ Forall not_move post ∧
       locks_held (log s ++ pre) = order).

End Notions.

(** ** The discipline of locks and sends *)

(** The entries a request sent, in order. *)
Definition sent_dirs (evs : list event) : list Dir :=
  omap (λ ev, match ev with EvSend (MDir d) => Some d | _ => None end) evs.

(** The bookkeeping entries a listing leaves out. *)
Definition hidden (d : Dir) : bool :=
  bool_decide (dget d "name" = ".zx") || bool_decide (dget d "name" = ".#zx").

(** Every message of [evs] was sent while no node was locked and, if [solo],
    every lock was taken while no node was locked; [h] are the locks held
    before [evs]. *)
Fixpoint in_order (solo : bool) (h : list fsFile) (evs : list event) : bool :=
  match evs with
  | [] => true
  | EvLock f :: r =>
      (negb solo || bool_decide (h = [])) && in_order solo (h ++ [f]) r
  | EvUnlock f :: r => in_order solo (filter (λ g, g ≠ f) h) r
  | EvSend _ :: r => bool_decide (h = []) && in_order solo h r
  | _ :: r => in_order solo h r
  end.

(** Events of a request that only reads: locks, fetches and sends. *)
Definition read_event (ev : event) : Prop :=
  match ev with
  | EvSend _ => True
  | _ => walk_event ev
  end.

(** Events that are no lock, no unlock and no send. *)
Definition silent (ev : event) : Prop :=
  match ev with
  | EvLock _ | EvUnlock _ | EvSend _ => False
  | _ => True
  end.

(** The call comes back, with or without an error: it neither blocks nor
    panics; the model may run out of fuel only if [oof]. *)
Definition completes {A} (oof : bool) (o : outcome A) : Prop :=
  match o with
  | Ret _ | Fail _ => True
  | OutOfFuel => oof = true
  | Deadlock | Panic => False
  end.

Section Discipline.

Context {C R : Type}.

(** From [s], where the locks [hs] are held, to [s'] the request added
    events to its log, sent every message while no node was locked and, if
    [solo], took every lock while no node was locked. *)
Definition orderly (solo : bool) (hs : list fsFile) (s s' : State C R) : Prop :=
  ∃ evs, log s' = log s ++ evs ∧ in_order solo hs evs = true.

(** Run while the locks [hs] are held, [m] comes back, and then the locks
    held are as [post] says and the run was [orderly]. *)
Definition keeps {A} (solo oof : bool) (hs : list fsFile) (m : M C R A)
    (post : outcome A → list fsFile → Prop) : Prop :=
  ∀ s, held s = hs →
    ∀ o s', m s = (o, s') →
      completes oof o ∧
      match o with
      | Ret _ | Fail _ => post o (held s') ∧ orderly solo hs s s'
      | _ => True
      end.

(** What a walk from [f] along [els] leaves when it comes back, [hs] being
    the locks held before it (see [walk_post]). *)
Definition walk_left (why : walkFor) (f : fsFile) (els : list string)
    (hs : list fsFile) (o : outcome fsFile) (h : list fsFile) : Prop :=
  match o with
  | Ret g =>
      h = hs ++ [g] ∧ (g ∉ hs) ∧
      (g = reach f els ∨
       (why ∈ [forCreat; forCreatAll; forLink] ∧ els ≠ [] ∧
        g = reach f (removelast els)))
  | _ => h = hs
  end.

(** What [keeps] says of a request: run with no lock held it comes back
    with no lock held. *)
Definition released {A} (o : outcome A) (h : list fsFile) : Prop := h = [].

End Discipline.

Section Outcomes.

Context {C R : Type}.

(** The request came back, with or without an error, and holds no lock. *)
Definition back_unlocked {A} (o : outcome A) (s' : State C R) : Prop :=
  match o with
  | Ret _ | Fail _ => held s' = []
  | _ => False
  end.

(** Events that send no directory entry. *)
Definition no_entry (ev : event) : Prop :=
  match ev with
  | EvSend (MDir _) => False
  | _ => True
  end.

(** From [s] to [s'] the request sent only entries that are not hidden, and
    at most [count] of them if [count] is a count. *)
Definition listed (count : Z) (s s' : State C R) : Prop :=
  ∃ evs, log s' = log s ++ evs ∧
    Forall (λ d, hidden d = false) (sent_dirs evs) ∧
    (0 ≤ count < 2 ^ 63 → (length (sent_dirs evs) ≤ Z.to_nat count)%nat).

End Outcomes.

(** The byte [c] occurs in [s]. *)
Fixpoint occurs (c : ascii) (s : string) : bool :=
  match s with
  | EmptyString => false
  | String x r => Ascii.eqb x c || occurs c r
  end.

(** What an offset and a count select of a listing [l]: [count] entries
    from [off] on, all of them if [count] is [zx.All]. *)
Definition window {A} (off count : Z) (l : list A) : list A :=
  let l := drop (Z.to_nat off) l in
  if bool_decide (count = zx.All) then l else take (Z.to_nat count) l.

Section Cached.

Context {C R : Type} `{!Cache C R}.

(** Locks, unlocks and sends: what a request logs that calls neither the
    remote nor the syncer. *)
Definition local_event (ev : event) : Prop :=
  match ev with
  | EvLock _ | EvUnlock _ | EvSend _ => True
  | _ => False
  end.

(** From [s] to [s'] the request left the cache and the remote as they
    were, and logged only locks, unlocks and sends. *)
Definition from_cache (s s' : State C R) : Prop :=
  cst s' = cst s ∧ rst s' = rst s ∧ ext local_event s s'.

(** Run from a state where the cache is [c], [m] is answered [from_cache]. *)
Definition quiet {A} (c : C) (m : M C R A) : Prop :=
  ∀ s, cst s = c → ∀ o s', m s = (o, s') → from_cache s s'.

(** The nodes on the path [els] from [f] are valid in the cache [c]: the
    metadata of each node, the entries of each node but the last and, if
    [all], the data of the last. *)
Definition path_cached (all : bool) (c : C) (f : fsFile) (els : list string)
    : Prop :=
  ∀ i, (i ≤ length els)%nat →
    c_metaOk c (reach f (take i els)) = true ∧
    ((i < length els)%nat ∨ all = true →
     c_dataOk c (reach f (take i els)) = true).

End Cached.

(** * Properties *)

(** ** Paths *)

Module PathLemmas.

Import PathFacts.

Lemma app_String c s t : String c s +:+ t = String c (s +:+ t).
Proof. reflexivity. Qed.

Lemma app_empty t : "" +:+ t = t.
Proof. reflexivity. Qed.

Lemma app_assoc_s (a b c : string) : (a +:+ b) +:+ c = a +:+ (b +:+ c).
Proof. induction a as [|x a IH]; [reflexivity|]. rewrite !app_String, IH. reflexivity. Qed.

Lemma split_noslash s : Forall (λ e, noslash e = true) (fpath.split s).
Proof.
  induction s as [|c r IH]; simpl.
  - repeat constructor.
  - destruct (Ascii.eqb c fpath.slash) eqn:Ec.
    + constructor; [reflexivity | exact IH].
    + destruct (fpath.split r) as [|seg segs]; inversion IH; subst.
      * repeat constructor. simpl. rewrite Ec. reflexivity.
      * constructor; [simpl; rewrite Ec; simpl; assumption | assumption].
Qed.

Lemma split_elem_alone e : noslash e = true → fpath.split e = [e].
Proof.
  induction e as [|c r IH]; simpl; [reflexivity|].
  intros [Hc Hr]%andb_prop. apply negb_true_iff in Hc. rewrite Hc, (IH Hr).
  reflexivity.
Qed.

Lemma split_elem_slash e t :
  noslash e = true →
  fpath.split (e +:+ String fpath.slash t) = e :: fpath.split t.
Proof.
  induction e as [|c r IH]; intros He.
  - rewrite app_empty. simpl. reflexivity.
  - simpl in He. apply andb_prop in He as [Hc Hr]. apply negb_true_iff in Hc.
    rewrite app_String. simpl. rewrite Hc, (IH Hr). reflexivity.
Qed.

Lemma split_slash t : fpath.split (String fpath.slash t) = "" :: fpath.split t.
Proof. reflexivity. Qed.

Lemma elem_noslash els : Forall elem els → Forall (λ e, noslash e = true) els.
Proof.
  intros H. eapply Forall_impl; [exact H|]. intros e (_ & _ & _ & He). exact He.
Qed.

Lemma join_cons e e' r :
  fpath.join (e :: e' :: r) = e +:+ String fpath.slash (fpath.join (e' :: r)).
Proof. reflexivity. Qed.

Lemma split_join els :
  Forall (λ e, noslash e = true) els → els ≠ [] →
  fpath.split (fpath.join els) = els.
Proof.
  induction els as [|e r IH]; intros Hall Hne; [congruence|].
  inversion Hall as [|? ? He Hr]; subst.
  destruct r as [|e' r'].
  - simpl. apply split_elem_alone, He.
  - rewrite join_cons, split_elem_slash by assumption.
    f_equal. apply IH; [assumption | discriminate].
Qed.

(** The segments of the canonical string of [els]. *)
Lemma split_of_els els :
  Forall elem els →
  fpath.split (fpath.of_els els) = "" :: (if els is [] then [""] else els).
Proof.
  intros Hall. unfold fpath.of_els.
  change ("/" +:+ fpath.join els) with (String fpath.slash (fpath.join els)).
  simpl fpath.split. f_equal. destruct els as [|e r]; [reflexivity|].
  apply split_join; [apply elem_noslash, Hall | discriminate].
Qed.

Lemma filter_elems els : Forall elem els → filter (λ e, e ≠ "") els = els.
Proof.
  induction 1 as [|x l [Hx _] _ IH]; [reflexivity|].
  rewrite filter_cons_True by assumption. f_equal. exact IH.
Qed.

Lemma Elems_of_els els : Forall elem els → zx.Elems (fpath.of_els els) = els.
Proof.
  intros Hall. unfold zx.Elems. rewrite split_of_els by assumption.
  rewrite filter_cons_False by (intros Hn; apply Hn; reflexivity).
  destruct els as [|e r]; [reflexivity|]. apply filter_elems, Hall.
Qed.

Lemma clean_els_elem acc els :
  Forall elem acc → Forall (λ e, noslash e = true) els →
  Forall elem (fpath.clean_els true acc els).
Proof.
  revert acc. induction els as [|e r IH]; intros acc Hacc Hels; simpl.
  - apply Forall_rev, Hacc.
  - inversion Hels as [|? ? He Hr]; subst.
    destruct (String.eqb e "" || String.eqb e ".") eqn:E1; [apply IH; assumption|].
    apply orb_false_elim in E1 as [E1 E2].
    apply String.eqb_neq in E1. apply String.eqb_neq in E2.
    destruct (String.eqb e "..") eqn:E3; [|apply String.eqb_neq in E3].
    + destruct acc as [|a acc']; [apply IH; assumption|].
      inversion Hacc as [|? ? Ha Hacc']; subst.
      destruct (String.eqb a "..") eqn:E4.
      * apply String.eqb_eq in E4. destruct Ha as (_ & _ & Ha & _). contradiction.
      * apply IH; assumption.
    + apply IH; [|assumption]. constructor; [repeat split; assumption | assumption].
Qed.

(** Cleaning drops the empty segments and nothing else when the others are
    elements. *)
Lemma clean_els_filter rooted acc l :
  Forall (λ e, e = "" ∨ elem e) l →
  fpath.clean_els rooted acc l = rev acc ++ filter (λ e, e ≠ "") l.
Proof.
  revert acc. induction l as [|e r IH]; intros acc Hall; simpl.
  - rewrite app_nil_r. reflexivity.
  - inversion Hall as [|? ? He Hr]; subst. destruct He as [->|(H1 & H2 & H3 & _)].
    + simpl. rewrite filter_cons_False by (intros Hn; apply Hn; reflexivity).
      apply IH, Hr.
    + apply String.eqb_neq in H1 as E1. apply String.eqb_neq in H2 as E2.
      apply String.eqb_neq in H3 as E3. rewrite E1, E2, E3. simpl.
      rewrite filter_cons_True by assumption. rewrite IH by assumption.
      simpl. rewrite <- app_assoc. reflexivity.
Qed.

Lemma rooted_nonempty p : fpath.rooted p = true → String.eqb p "" = false.
Proof. destruct p; [discriminate | reflexivity]. Qed.

(** An accepted path is the canonical string of its elements. *)
Lemma UseAbsPath_canon p p' :
  zx.UseAbsPath p = inr p' →
  Forall elem (zx.Elems p') ∧ p' = fpath.of_els (zx.Elems p').
Proof.
  unfold zx.UseAbsPath. destruct (fpath.rooted p) eqn:Hr; [|discriminate].
  intros [= <-]. unfold fpath.Clean. rewrite (rooted_nonempty _ Hr), Hr.
  assert (Hall : Forall elem (fpath.clean_els true [] (fpath.split p)))
    by (apply clean_els_elem; [constructor | apply split_noslash]).
  rewrite Elems_of_els by assumption. split; [assumption | reflexivity].
Qed.

(** Cleaning a rooted string whose segments are empty or elements. *)
Lemma Clean_segments s :
  fpath.rooted s = true →
  Forall (λ e, e = "" ∨ elem e) (fpath.split s) →
  fpath.Clean s = fpath.of_els (filter (λ e, e ≠ "") (fpath.split s)).
Proof.
  intros Hr Hall. unfold fpath.Clean. rewrite (rooted_nonempty _ Hr), Hr.
  rewrite clean_els_filter by assumption. reflexivity.
Qed.

Lemma elems_or_empty els : Forall elem els → Forall (λ e, e = "" ∨ elem e) els.
Proof. intros H. eapply Forall_impl; [exact H|]. intros e He. right. exact He. Qed.

Lemma join_snoc els e :
  els ≠ [] → fpath.join (els ++ [e]) = fpath.join els +:+ "/" +:+ e.
Proof.
  induction els as [|x r IH]; intros Hne; [congruence|].
  destruct r as [|y r'].
  - reflexivity.
  - change ((x :: y :: r') ++ [e]) with (x :: (y :: r') ++ [e]).
    destruct ((y :: r') ++ [e]) as [|z zs] eqn:Ez; [discriminate|].
    rewrite !join_cons, IH by discriminate.
    change (String fpath.slash ?t) with ("/" +:+ t).
    rewrite !app_assoc_s. reflexivity.
Qed.

(** [fpath.Join] of a canonical path and an element. *)
Lemma Join_of_els els e :
  Forall elem els → elem e →
  fpath.Join (fpath.of_els els) e = fpath.of_els (els ++ [e]).
Proof.
  intros Hall He. unfold fpath.Join.
  pose proof He as (H1 & H2 & H3 & H4).
  pose proof H1 as E1. apply String.eqb_neq in E1. rewrite E1.
  change (String.eqb (fpath.of_els els) "") with false. cbv iota.
  assert (Hs : fpath.split (fpath.of_els els +:+ "/" +:+ e)
               = "" :: (if els is [] then [""; e] else els ++ [e])).
  { unfold fpath.of_els. rewrite app_assoc_s.
    change ("/" +:+ ?t) with (String fpath.slash t) at 1. simpl fpath.split. f_equal.
    destruct els as [|x r].
    - change (fpath.join [] +:+ "/" +:+ e) with (String fpath.slash e).
      simpl. rewrite split_elem_alone by assumption. reflexivity.
    - rewrite <- join_snoc by discriminate.
      apply split_join; [|destruct r; discriminate].
      apply Forall_app. split; [apply elem_noslash, Hall | repeat constructor; assumption]. }
  rewrite Clean_segments; [|reflexivity|].
  - rewrite Hs. rewrite filter_cons_False by (intros Hn; apply Hn; reflexivity).
    f_equal. destruct els as [|x r].
    + rewrite filter_cons_False by (intros Hn; apply Hn; reflexivity).
      rewrite filter_cons_True by assumption.
      reflexivity.
    + apply filter_elems. apply Forall_app. split; [assumption|].
      repeat constructor; assumption.
  - rewrite Hs. constructor; [left; reflexivity|].
    destruct els as [|x r].
    + constructor; [left; reflexivity|]. constructor; [right; exact He | constructor].
    + apply elems_or_empty. apply Forall_app. split; [assumption|]. repeat constructor; apply He.
Qed.

Lemma reach_of_els a b :
  Forall elem a → Forall elem b →
  reach (File (fpath.of_els a)) b = File (fpath.of_els (a ++ b)).
Proof.
  revert a. induction b as [|e b IH]; intros a Ha Hb.
  - rewrite app_nil_r. reflexivity.
  - inversion Hb as [|? ? He Hb']; subst.
    change (reach (File (fpath.of_els a)) (e :: b))
      with (reach (File (fpath.Join (fpath.of_els a) e)) b).
    rewrite Join_of_els by assumption.
    rewrite IH; [rewrite <- app_assoc; reflexivity| |assumption].
    apply Forall_app. split; [assumption|]. constructor; [assumption | constructor].
Qed.

(** The node a walk from the root reaches along the elements of a path. *)
Lemma reach_root els :
  Forall elem els → reach (File "/") els = File (fpath.of_els els).
Proof. intros H. apply (reach_of_els [] els); [constructor | exact H]. Qed.

Lemma removelast_elem els : Forall elem els → Forall elem (removelast els).
Proof.
  intros H. destruct (decide (els = [])) as [->|Hne]; [exact H|].
  destruct (exists_last Hne) as (l & e & ->).
  rewrite removelast_last. apply Forall_app in H as [H _]. exact H.
Qed.

(** [fpath.Dir] of a canonical path drops its last element. *)
Lemma Dir_of_els els :
  Forall elem els → fpath.Dir (fpath.of_els els) = fpath.of_els (removelast els).
Proof.
  intros Hall. destruct (decide (els = [])) as [->|Hne]; [reflexivity|].
  destruct (exists_last Hne) as (l & e & ->). clear Hne.
  pose proof Hall as Hl. apply Forall_app in Hl as [Hl _].
  rewrite removelast_last. unfold fpath.Dir. rewrite split_of_els by assumption.
  destruct (l ++ [e]) as [|z zs] eqn:Ez; [destruct l; discriminate|]. rewrite <- Ez.
  change (rev ("" :: l ++ [e])) with (rev (l ++ [e]) ++ [""]).
  rewrite rev_unit. simpl.
  destruct (rev l ++ [""]) as [|y ys] eqn:Ey; [destruct (rev l); discriminate|].
  rewrite <- Ey, rev_unit, rev_involutive.
  destruct l as [|x r]; [reflexivity|].
  change (fpath.join ("" :: x :: r)) with (fpath.of_els (x :: r)).
  assert (Hs : fpath.split (fpath.of_els (x :: r) +:+ "/") = "" :: (x :: r) ++ [""]).
  { unfold fpath.of_els. rewrite app_assoc_s.
    change ("/" +:+ ?t) with (String fpath.slash t) at 1. rewrite split_slash. f_equal.
    change (fpath.join (x :: r) +:+ "/") with (fpath.join (x :: r) +:+ "/" +:+ "").
    rewrite <- join_snoc by discriminate.
    apply split_join; [|destruct r; discriminate].
    apply Forall_app. split; [apply elem_noslash, Hl | repeat constructor]. }
  rewrite Clean_segments; [|reflexivity|].
  - rewrite Hs. rewrite filter_cons_False by (intros Hn; apply Hn; reflexivity).
    rewrite filter_app, filter_elems by assumption.
    rewrite filter_cons_False by (intros Hn; apply Hn; reflexivity).
    rewrite app_nil_r. reflexivity.
  - rewrite Hs. constructor; [left; reflexivity|].
    apply Forall_app. split; [apply elems_or_empty, Hl|].
    constructor; [left; reflexivity | constructor].
Qed.

Lemma join_app a b :
  a ≠ [] → b ≠ [] → fpath.join (a ++ b) = fpath.join a +:+ "/" +:+ fpath.join b.
Proof.
  induction a as [|x r IH]; intros Ha Hb; [congruence|].
  destruct r as [|y r'].
  - destruct b as [|z zs]; [congruence|]. reflexivity.
  - change ((x :: y :: r') ++ b) with (x :: y :: (r' ++ b)).
    rewrite !join_cons. change (y :: r' ++ b) with ((y :: r') ++ b).
    rewrite IH by (assumption || discriminate).
    change (String fpath.slash ?t) with ("/" +:+ t).
    rewrite !app_assoc_s. reflexivity.
Qed.

Lemma compare_refl_s s : String.compare s s = Eq.
Proof.
  induction s as [|c s IH]; [reflexivity|]. simpl.
  unfold Ascii.compare. rewrite N.compare_refl. exact IH.
Qed.

Lemma compare_app_lt s c t : String.compare s (s +:+ String c t) = Lt.
Proof.
  induction s as [|x s IH]; [reflexivity|]. rewrite app_String. simpl.
  unfold Ascii.compare. rewrite N.compare_refl. exact IH.
Qed.

(** A path compares less than every path below it. *)
Lemma compare_below a b :
  Forall elem b → b ≠ [] →
  String.compare (fpath.of_els a) (fpath.of_els (a ++ b)) = Lt.
Proof.
  intros Hb Hne. unfold fpath.of_els.
  destruct b as [|x r]; [congruence|]. inversion Hb as [|? ? (Hx & _) _]; subst.
  assert (Hj : ∃ c t, fpath.join (x :: r) = String c t).
  { destruct x as [|c t]; [congruence|]. destruct r; simpl; eauto. }
  destruct Hj as (c & t & Hj).
  destruct a as [|y a'].
  - change ([] ++ x :: r) with (x :: r). rewrite Hj.
    change ("/" +:+ fpath.join []) with ("/" +:+ "").
    change ("/" +:+ String c t) with ("/" +:+ "" +:+ String c t).
    rewrite <- app_assoc_s. apply compare_app_lt.
  - rewrite join_app by discriminate.
    change ("/" +:+ fpath.join (x :: r)) with (String fpath.slash (fpath.join (x :: r))).
    rewrite <- app_assoc_s. apply compare_app_lt.
Qed.

End PathLemmas.

(** ** The log of a request and the locks it holds *)

Section Logic.

Context {C R P : Type}.
Context `{!Remote R, !Cache C R, !Perms, !Preds P, !Sys C R}.
Variable fs : Fs.

Local Abbreviation State := (State C R).
Local Abbreviation M := (M C R).

Lemma bind_unfold {A B} (m : M A) (k : A → M B) (s : State) :
  (m ≫= k) s =
  match m s with
  | (Ret a, s') => k a s'
  | (Fail e, s') => (Fail e, s')
  | (Deadlock, s') => (Deadlock, s')
  | (Panic, s') => (Panic, s')
  | (OutOfFuel, s') => (OutOfFuel, s')
  end.
Proof. reflexivity. Qed.

(** *** Rules for [wp] *)

Lemma wp_bind {A B} (m : M A) (k : A → M B) (s : State) Φ :
  wp m s (λ o s1,
    match o with
    | Ret a => wp (k a) s1 Φ
    | Fail e => Φ (Fail e) s1
    | Deadlock => Φ Deadlock s1
    | Panic => Φ Panic s1
    | OutOfFuel => Φ OutOfFuel s1
    end) →
  wp (m ≫= k) s Φ.
Proof.
  intros Hm o s' E. rewrite bind_unfold in E.
  destruct (m s) as [o1 s1] eqn:E1. specialize (Hm _ _ E1).
  destruct o1; [exact (Hm _ _ E) | inversion E; subst; exact Hm ..].
Qed.

Lemma wp_mono {A} (m : M A) (s : State) (Φ Ψ : outcome A → State → Prop) :
  wp m s Φ → (∀ o s', Φ o s' → Ψ o s') → wp m s Ψ.
Proof. intros Hm HΦ o s' E. apply HΦ, Hm, E. Qed.

Lemma wp_val {A} (m : M A) (s : State) o s' Φ : m s = (o, s') → Φ o s' → wp m s Φ.
Proof. intros E HΦ o1 s1 E1. rewrite E in E1. inversion E1; subst. exact HΦ. Qed.

Lemma wp_Lock f (s : State) Φ :
  (f ∈ held s → Φ Deadlock s) →
  (f ∉ held s → Φ (Ret ()) (add_log (EvLock f) s)) →
  wp (Lock f) s Φ.
Proof.
  intros H1 H2 o s'. unfold Lock. fold (held s).
  destruct (decide (f ∈ held s)); intros [= <- <-]; auto.
Qed.

Lemma wp_Unlock f (s : State) Φ :
  (f ∉ held s → Φ Panic s) →
  (f ∈ held s → Φ (Ret ()) (add_log (EvUnlock f) s)) →
  wp (Unlock f) s Φ.
Proof.
  intros H1 H2 o s'. unfold Unlock. fold (held s).
  destruct (decide (f ∈ held s)); intros [= <- <-]; auto.
Qed.

Lemma wp_defer {A} (cleanup : M ()) (body : M A) (s : State) Φ :
  wp body s (λ o s1,
    match o with
    | Ret a => wp cleanup s1 (λ o' s2,
        match o' with
        | Ret _ => Φ (Ret a) s2
        | Fail e => Φ (Fail e) s2
        | Deadlock => Φ Deadlock s2
        | Panic => Φ Panic s2
        | OutOfFuel => Φ OutOfFuel s2
        end)
    | Fail e => wp cleanup s1 (λ o' s2,
        match o' with
        | Ret _ | Fail _ => Φ (Fail e) s2
        | Deadlock => Φ Deadlock s2
        | Panic => Φ Panic s2
        | OutOfFuel => Φ OutOfFuel s2
        end)
    | Panic => wp cleanup s1 (λ _ s2, Φ Panic s2)
    | Deadlock => Φ Deadlock s1
    | OutOfFuel => Φ OutOfFuel s1
    end) →
  wp (defer cleanup body) s Φ.
Proof.
  intros Hb o s' E. unfold defer in E.
  destruct (body s) as [o1 s1] eqn:E1. specialize (Hb _ _ E1).
  destruct o1.
  - destruct (cleanup s1) as [o2 s2] eqn:E2. specialize (Hb _ _ E2).
    destruct o2; inversion E; subst; exact Hb.
  - destruct (cleanup s1) as [o2 s2] eqn:E2. specialize (Hb _ _ E2).
    destruct o2; inversion E; subst; exact Hb.
  - inversion E; subst; exact Hb.
  - inversion E; subst. apply (Hb (cleanup s1).1).
    destruct (cleanup s1); reflexivity.
  - inversion E; subst; exact Hb.
Qed.

(** *** Extensions of the log *)

Lemma ext_refl Q (s : State) : ext Q s s.
Proof. exists []. rewrite app_nil_r. split; [reflexivity | constructor]. Qed.

Lemma ext_trans Q (s1 s2 s3 : State) : ext Q s1 s2 → ext Q s2 s3 → ext Q s1 s3.
Proof.
  intros (e1 & E1 & F1) (e2 & E2 & F2). exists (e1 ++ e2).
  rewrite E2, E1, app_assoc. split; [reflexivity | apply Forall_app; split; assumption].
Qed.

Lemma ext_log Q (s s' : State) : log s' = log s → ext Q s s'.
Proof. intros E. exists []. rewrite app_nil_r. split; [exact E | constructor]. Qed.

Lemma ext_add (Q : event → Prop) (s : State) ev : Q ev → ext Q s (add_log ev s).
Proof. intros HQ. exists [ev]. split; [reflexivity | repeat constructor; exact HQ]. Qed.

Lemma ext_impl (Q Q' : event → Prop) (s s' : State) :
  (∀ ev, Q ev → Q' ev) → ext Q s s' → ext Q' s s'.
Proof.
  intros HQ (evs & E & F). exists evs. split; [exact E|].
  eapply Forall_impl; [exact F | exact HQ].
Qed.

Lemma appends_impl {A} (Q Q' : event → Prop) (m : M A) :
  (∀ ev, Q ev → Q' ev) → appends Q m → appends Q' m.
Proof. intros HQ Hm s o s' E. eapply ext_impl; [exact HQ | exact (Hm s o s' E)]. Qed.

Lemma appends_bind {A B} Q (m : M A) (k : A → M B) :
  appends Q m → (∀ a, appends Q (k a)) → appends Q (m ≫= k).
Proof.
  intros Hm Hk s. apply wp_bind. eapply wp_mono; [apply Hm|].
  intros o s1 Hext. destruct o; try exact Hext.
  eapply wp_mono; [apply Hk|]. intros o' s2 Hext2. eapply ext_trans; eassumption.
Qed.

Lemma appends_quiet {A} Q (m : M A) :
  (∀ s, log (m s).2 = log s) → appends Q m.
Proof.
  intros Hm s o s' E. apply ext_log. specialize (Hm s). rewrite E in Hm. exact Hm.
Qed.

Lemma appends_ret {A} Q (a : A) : appends Q (mret a : M A).
Proof. apply appends_quiet. reflexivity. Qed.


Lemma ret_bind {A B} (a : A) (k : A → M B) (s : State) :
  (mret a ≫= k) s = k a s.
Proof. reflexivity. Qed.


Lemma bind_assoc {A B D} (m : M A) (g : A → M B) (k : B → M D) (s : State) :
  ((m ≫= g) ≫= k) s = (m ≫= λ a, g a ≫= k) s.
Proof.
  rewrite (bind_unfold (m ≫= g)), !(bind_unfold m).
  destruct (m s) as [[a| | | |] s1]; reflexivity.
Qed.


Lemma appends_fail {A} Q e : appends Q (fail e : M A).
Proof. apply appends_quiet. reflexivity. Qed.

Lemma appends_panic {A} Q : appends Q (panic : M A).
Proof. apply appends_quiet. reflexivity. Qed.

Lemma appends_out_of_fuel {A} Q : appends Q (out_of_fuel : M A).
Proof. apply appends_quiet. reflexivity. Qed.

Lemma appends_check Q err : appends Q (check err : M ()).
Proof. destruct err; [apply appends_fail | apply appends_ret]. Qed.

Lemma appends_emit (Q : event → Prop) ev : Q ev → appends Q (emit ev : M ()).
Proof. intros HQ s o s' [= <- <-]. apply ext_add, HQ. Qed.

Lemma appends_Lock (Q : event → Prop) f : Q (EvLock f) → appends Q (Lock f : M ()).
Proof.
  intros HQ s. apply wp_Lock; intros _; [apply ext_refl | apply ext_add, HQ].
Qed.

Lemma appends_Unlock (Q : event → Prop) f : Q (EvUnlock f) → appends Q (Unlock f : M ()).
Proof.
  intros HQ s. apply wp_Unlock; intros _; [apply ext_refl | apply ext_add, HQ].
Qed.

Lemma appends_remote {A} (Q : event → Prop) ev (call : R → A * R) :
  Q ev → appends Q (remote ev call : M A).
Proof.
  intros HQ s o s'. unfold remote. destruct (call (rst s)) as [a r].
  intros [= <- <-]. exists [ev]. split; [reflexivity | repeat constructor; exact HQ].
Qed.

Lemma appends_send (Q : event → Prop) m : Q (EvSend m) → appends Q (send m : M bool).
Proof.
  intros HQ s o s'. unfold send. destruct (budget s) as [[|n]|]; intros [= <- <-].
  - apply ext_refl.
  - exists [EvSend m]. split; [reflexivity | repeat constructor; exact HQ].
  - apply ext_add, HQ.
Qed.

Lemma appends_cerror {A} Q (a : A) : appends Q (cerror a : M A).
Proof. apply appends_quiet. intros s. unfold cerror. destruct (cclose s); reflexivity. Qed.

Lemma appends_cache_sync (Q : event → Prop) :
  Q EvCacheSync → appends Q (cache_sync : M (option error)).
Proof.
  intros HQ s o s'. unfold cache_sync.
  destruct (c_sync (cst s) (rst s)) as [[err c] r]. intros [= <- <-].
  exists [EvCacheSync]. split; [reflexivity | repeat constructor; exact HQ].
Qed.

Lemma appends_defer {A} Q (cleanup : M ()) (body : M A) :
  appends Q cleanup → appends Q body → appends Q (defer cleanup body).
Proof.
  intros Hc Hb s. apply wp_defer. eapply wp_mono; [apply Hb|].
  intros o s1 Hext.
  destruct o; try exact Hext;
    (eapply wp_mono; [apply Hc|]; intros o' s2 Hext2;
     destruct o'; eapply ext_trans; eassumption).
Qed.

(** The operations of the cache and the clock leave the log alone. *)
Lemma appends_metaOk Q f : appends Q (metaOk f : M bool).
Proof. apply appends_quiet. reflexivity. Qed.

Lemma appends_dataOk Q f : appends Q (dataOk f : M bool).
Proof. apply appends_quiet. reflexivity. Qed.

Lemma appends_isDel Q f : appends Q (isDel f : M bool).
Proof. apply appends_quiet. reflexivity. Qed.

Lemma appends_oldDataOk Q f : appends Q (oldDataOk f : M bool).
Proof. apply appends_quiet. reflexivity. Qed.

Lemma appends_dir Q f : appends Q (dir f : M Dir).
Proof. apply appends_quiet. reflexivity. Qed.

Lemma appends_gone Q f : appends Q (gone f : M ()).
Proof. apply appends_quiet. reflexivity. Qed.

Lemma appends_inval Q f : appends Q (inval f : M ()).
Proof. apply appends_quiet. reflexivity. Qed.

Lemma appends_gotMeta Q f d : appends Q (gotMeta f d : M (option error)).
Proof.
  apply appends_quiet. intros s. unfold gotMeta.
  destruct (c_gotMeta _ _ _) ; reflexivity.
Qed.

Lemma appends_gotDir Q f ds : appends Q (gotDir f ds : M (option error)).
Proof.
  apply appends_quiet. intros s. unfold gotDir.
  destruct (c_gotDir _ _ _) ; reflexivity.
Qed.

Lemma appends_gotData Q f st : appends Q (gotData f st : M (option error)).
Proof.
  apply appends_quiet. intros s. unfold gotData.
  destruct (c_gotData _ _ _) ; reflexivity.
Qed.

Lemma appends_walk1 Q f name : appends Q (walk1 f name : M (option error)).
Proof. apply appends_quiet. reflexivity. Qed.

Lemma appends_getDir Q f : appends Q (getDir f : M (error + list Dir)).
Proof. apply appends_quiet. reflexivity. Qed.

Lemma appends_newFile Q f d : appends Q (newFile f d : M (option error)).
Proof.
  apply appends_quiet. intros s. unfold newFile.
  destruct (c_newFile _ _ _ _) as [[? ?] ?]; reflexivity.
Qed.

Lemma appends_f_wstat Q f d : appends Q (f_wstat f d : M (option error)).
Proof.
  apply appends_quiet. intros s. unfold f_wstat.
  destruct (c_wstat _ _ _) ; reflexivity.
Qed.

Lemma appends_f_sync Q f : appends Q (f_sync f : M ()).
Proof.
  apply appends_quiet. intros s. unfold f_sync.
  destruct (c_fsync _ _ _) ; reflexivity.
Qed.

Lemma appends_now Q  : appends Q (now : M N).
Proof. apply appends_quiet. reflexivity. Qed.

(** *** The locks held along the log *)

Lemma locks_held_from_app h l1 l2 :
  locks_held_from h (l1 ++ l2) = locks_held_from (locks_held_from h l1) l2.
Proof.
  revert h. induction l1 as [|ev l1 IH]; intros h; [reflexivity|].
  destruct ev; simpl; apply IH.
Qed.

Lemma held_lock (s : State) f : held (add_log (EvLock f) s) = held s ++ [f].
Proof. unfold held, locks_held. simpl. rewrite locks_held_from_app. reflexivity. Qed.

Lemma held_unlock (s : State) f :
  held (add_log (EvUnlock f) s) = filter (λ g, g ≠ f) (held s).
Proof. unfold held, locks_held. simpl. rewrite locks_held_from_app. reflexivity. Qed.

Lemma held_ext (s s' : State) : ext lock_free s s' → held s' = held s.
Proof.
  intros (evs & E & F). unfold held, locks_held. rewrite E, locks_held_from_app.
  generalize (locks_held_from [] (log s)). clear E.
  induction F as [|ev evs Hev _ IH]; intros h; [reflexivity|].
  destruct ev; simpl in *; try contradiction; apply IH.
Qed.

Lemma filter_ne_snoc (h : list fsFile) f :
  f ∉ h → filter (λ g, g ≠ f) (h ++ [f]) = h.
Proof.
  intros Hn. rewrite filter_app, filter_cons_False, filter_nil, app_nil_r
    by (intros Hf; apply Hf; reflexivity).
  induction h as [|x h IH]; [reflexivity|].
  apply not_elem_of_cons in Hn as [Hx Hn].
  rewrite filter_cons_True by congruence. f_equal. apply IH, Hn.
Qed.

(** *** Calm operations *)

Lemma calm_ret {A} (a : A) : calm (mret a : M A).
Proof. intros s. eauto. Qed.

Lemma calm_bind {A B} (m : M A) (k : A → M B) :
  calm m → (∀ a, calm (k a)) → calm (m ≫= k).
Proof.
  intros Hm Hk s. destruct (Hm s) as (a & s1 & E1 & H1).
  destruct (Hk a s1) as (b & s2 & E2 & H2).
  exists b, s2. rewrite bind_unfold, E1, E2, H2, H1. split; reflexivity.
Qed.

Lemma calm_quiet {A} (m : M A) :
  (∀ s, ∃ a s', m s = (Ret a, s') ∧ log s' = log s) → calm m.
Proof.
  intros Hm s. destruct (Hm s) as (a & s' & E & Hl). exists a, s'.
  split; [exact E|]. unfold held. rewrite Hl. reflexivity.
Qed.

Lemma fetch_lock_free ev : fetch_event ev → lock_free ev.
Proof. destruct ev; simpl; tauto. Qed.

Lemma calm_emit ev : lock_free ev → calm (emit ev : M ()).
Proof.
  intros Hev s. exists (), (add_log ev s). split; [reflexivity|].
  apply held_ext, ext_add, Hev.
Qed.

Lemma calm_remote {A} ev (call : R → A * R) :
  lock_free ev → calm (remote ev call : M A).
Proof.
  intros Hev s. unfold remote. destruct (call (rst s)) as [a r] eqn:E.
  eexists _, _. split; [reflexivity|]. apply held_ext.
  exists [ev]. split; [reflexivity | repeat constructor; exact Hev].
Qed.

Lemma calm_metaOk f : calm (metaOk f : M bool).
Proof. apply calm_quiet. intros s. eauto. Qed.

Lemma calm_dataOk f : calm (dataOk f : M bool).
Proof. apply calm_quiet. intros s. eauto. Qed.

Lemma calm_isDel f : calm (isDel f : M bool).
Proof. apply calm_quiet. intros s. eauto. Qed.

Lemma calm_oldDataOk f : calm (oldDataOk f : M bool).
Proof. apply calm_quiet. intros s. eauto. Qed.

Lemma calm_dir f : calm (dir f : M Dir).
Proof. apply calm_quiet. intros s. eauto. Qed.

Lemma calm_gone f : calm (gone f : M ()).
Proof. apply calm_quiet. intros s. eauto. Qed.

Lemma calm_inval f : calm (inval f : M ()).
Proof. apply calm_quiet. intros s. eauto. Qed.

Lemma calm_gotMeta f d : calm (gotMeta f d : M (option error)).
Proof.
  apply calm_quiet. intros s. unfold gotMeta.
  destruct (c_gotMeta _ _ _) ; eauto.
Qed.

Lemma calm_gotDir f ds : calm (gotDir f ds : M (option error)).
Proof.
  apply calm_quiet. intros s. unfold gotDir.
  destruct (c_gotDir _ _ _) ; eauto.
Qed.

Lemma calm_gotData f st : calm (gotData f st : M (option error)).
Proof.
  apply calm_quiet. intros s. unfold gotData.
  destruct (c_gotData _ _ _) ; eauto.
Qed.

Lemma calm_walk1 f name : calm (walk1 f name : M (option error)).
Proof. apply calm_quiet. intros s. eauto. Qed.

Lemma calm_getDir f : calm (getDir f : M (error + list Dir)).
Proof. apply calm_quiet. intros s. eauto. Qed.

Lemma calm_newFile f d : calm (newFile f d : M (option error)).
Proof.
  apply calm_quiet. intros s. unfold newFile.
  destruct (c_newFile _ _ _ _) as [[? ?] ?]; eauto.
Qed.

Lemma calm_f_wstat f d : calm (f_wstat f d : M (option error)).
Proof.
  apply calm_quiet. intros s. unfold f_wstat.
  destruct (c_wstat _ _ _) ; eauto.
Qed.

Lemma calm_f_sync f : calm (f_sync f : M ()).
Proof.
  apply calm_quiet. intros s. unfold f_sync.
  destruct (c_fsync _ _ _) ; eauto.
Qed.

Lemma calm_now  : calm (now : M N).
Proof. apply calm_quiet. intros s. eauto. Qed.

Lemma calm_cache_sync : calm (cache_sync : M (option error)).
Proof.
  intros s. unfold cache_sync. destruct (c_sync (cst s) (rst s)) as [[err c] r].
  eexists _, _. split; [reflexivity|]. apply held_ext.
  exists [EvCacheSync]. split; [reflexivity | repeat constructor].
Qed.

Lemma wp_calm {A} (m : M A) (s : State) hs Φ :
  calm m → held s = hs →
  (∀ a s', held s' = hs → Φ (Ret a) s') →
  wp m s Φ.
Proof.
  intros Hm Hs HΦ o s' E. destruct (Hm s) as (a & s1 & E1 & H1).
  rewrite E1 in E. inversion E; subst. apply HΦ. exact H1.
Qed.

End Logic.

(** Proves [appends Q m] along the structure of [m]. *)
Ltac appends_step :=
  lazymatch goal with
  | |- appends _ (mbind _ _) => apply appends_bind; [|intros ?]
  | |- appends _ (mret _) => apply appends_ret
  | |- appends _ (fail _) => apply appends_fail
  | |- appends _ panic => apply appends_panic
  | |- appends _ out_of_fuel => apply appends_out_of_fuel
  | |- appends _ (check _) => apply appends_check
  | |- appends _ (cerror _) => apply appends_cerror
  | |- appends _ (emit _) => apply appends_emit
  | |- appends _ (Lock _) => apply appends_Lock
  | |- appends _ (Unlock _) => apply appends_Unlock
  | |- appends _ (remote _ _) => apply appends_remote
  | |- appends _ (send _) => apply appends_send
  | |- appends _ cache_sync => apply appends_cache_sync
  | |- appends _ (defer _ _) => apply appends_defer
  | |- appends _ (metaOk _) => apply appends_metaOk
  | |- appends _ (dataOk _) => apply appends_dataOk
  | |- appends _ (isDel _) => apply appends_isDel
  | |- appends _ (oldDataOk _) => apply appends_oldDataOk
  | |- appends _ (dir _) => apply appends_dir
  | |- appends _ (gone _) => apply appends_gone
  | |- appends _ (inval _) => apply appends_inval
  | |- appends _ (gotMeta _ _) => apply appends_gotMeta
  | |- appends _ (gotDir _ _) => apply appends_gotDir
  | |- appends _ (gotData _ _) => apply appends_gotData
  | |- appends _ (walk1 _ _) => apply appends_walk1
  | |- appends _ (getDir _) => apply appends_getDir
  | |- appends _ (newFile _ _) => apply appends_newFile
  | |- appends _ (f_wstat _ _) => apply appends_f_wstat
  | |- appends _ (f_sync _) => apply appends_f_sync
  | |- appends _ now => apply appends_now
  | |- appends _ (if ?b then _ else _) => destruct b
  | |- appends _ (match ?x with _ => _ end) => destruct x
  | |- appends _ (let '(_, _) := ?x in _) => destruct x
  end.

Ltac appends_tac :=
  repeat (first [appends_step | exact I | eassumption | solve [auto 2]]).

(** Proves [calm m] along the structure of [m]. *)
Ltac calm_step :=
  lazymatch goal with
  | |- calm (mbind _ _) => apply calm_bind; [|intros ?]
  | |- calm (mret _) => apply calm_ret
  | |- calm (emit _) => apply calm_emit
  | |- calm (remote _ _) => apply calm_remote
  | |- calm (metaOk _) => apply calm_metaOk
  | |- calm (dataOk _) => apply calm_dataOk
  | |- calm (isDel _) => apply calm_isDel
  | |- calm (oldDataOk _) => apply calm_oldDataOk
  | |- calm (dir _) => apply calm_dir
  | |- calm (gone _) => apply calm_gone
  | |- calm (inval _) => apply calm_inval
  | |- calm (gotMeta _ _) => apply calm_gotMeta
  | |- calm (gotDir _ _) => apply calm_gotDir
  | |- calm (gotData _ _) => apply calm_gotData
  | |- calm (walk1 _ _) => apply calm_walk1
  | |- calm (getDir _) => apply calm_getDir
  | |- calm (newFile _ _) => apply calm_newFile
  | |- calm (f_wstat _ _) => apply calm_f_wstat
  | |- calm (f_sync _) => apply calm_f_sync
  | |- calm now => apply calm_now
  | |- calm cache_sync => apply calm_cache_sync
  | |- calm (if ?b then _ else _) => destruct b
  | |- calm (match ?x with _ => _ end) => destruct x
  | |- calm (let '(_, _) := ?x in _) => destruct x
  end.

Ltac calm_tac :=
  repeat (first [calm_step | exact I | eassumption | solve [auto 2]]).

(** Steps over a calm operation in a [wp] goal; [Hh] tells the locks held
    and is restated for the new state, [a] names what the operation
    returns. *)
Tactic Notation "wp_calm_bind" ident(Hh) "as" ident(a) :=
  apply wp_bind; eapply wp_calm; [calm_tac | exact Hh |];
  let s := fresh "s" in
  let H := fresh "Hh" in
  intros a s H; clear Hh; rename H into Hh.

Section Walk.

Context {C R P : Type}.
Context `{!Remote R, !Cache C R, !Perms, !Preds P, !Sys C R}.
Variable fs : Fs.

Local Abbreviation State := (State C R).
Local Abbreviation M := (M C R).

Lemma appends_needRedial : appends fetch_event (needRedial fs : M ()).
Proof. unfold needRedial, needSync. appends_tac. Qed.

Lemma appends_getMeta f : appends fetch_event (getMeta fs f : M (option error)).
Proof. unfold getMeta. pose proof appends_needRedial. appends_tac. Qed.

Lemma appends_getDirData f : appends fetch_event (getDirData fs f : M (option error)).
Proof. unfold getDirData. pose proof appends_needRedial. appends_tac. Qed.

Lemma appends_getData f : appends fetch_event (getData fs f : M (option error)).
Proof. unfold getData. pose proof appends_needRedial. appends_tac. Qed.

Lemma calm_needRedial : calm (needRedial fs : M ()).
Proof. unfold needRedial. calm_tac. Qed.

Lemma calm_getMeta f : calm (getMeta fs f : M (option error)).
Proof. unfold getMeta. pose proof calm_needRedial. calm_tac. Qed.

Lemma calm_getDirData f : calm (getDirData fs f : M (option error)).
Proof. unfold getDirData. pose proof calm_needRedial. calm_tac. Qed.

Lemma calm_getData f : calm (getData fs f : M (option error)).
Proof. unfold getData. pose proof calm_needRedial. calm_tac. Qed.

Lemma fetch_walk ev : fetch_event ev → walk_event ev.
Proof. destruct ev; simpl; tauto. Qed.

Lemma walk_from_eq why nd f els :
  walk_from fs why nd f els =
  (Lock f;;
   ok ← metaOk f;
   err ← (if negb ok then getMeta fs f else mret None);
   match err with
   | Some e => walk_fail f e
   | None => walk_node fs (walk_from fs why nd) why nd f els
   end).
Proof. destruct els; reflexivity. Qed.

Lemma appends_walk_from why nd els f :
  appends walk_event (walk_from fs why nd f els : M fsFile).
Proof.
  pose proof (λ f, appends_impl _ _ _ fetch_walk (appends_getMeta f)) as HM.
  pose proof (λ f, appends_impl _ _ _ fetch_walk (appends_getDirData f)) as HD.
  pose proof (λ f, appends_impl _ _ _ fetch_walk (appends_getData f)) as HG.
  revert f. induction els as [|el rest IH]; intros f; rewrite walk_from_eq;
    unfold walk_node, walk_step, walk_end, walk_fail; appends_tac.
Qed.

Lemma appends_walk why nd els : appends walk_event (walk fs why nd els : M fsFile).
Proof. apply appends_walk_from. Qed.

(** *** The locks of a walk *)

Lemma walk_fail_held {A} f e (s : State) hs :
  held s = hs ++ [f] → f ∉ hs →
  wp (walk_fail f e : M A) s
    (λ o s', match o with
             | Ret _ => False
             | Fail _ => held s' = hs
             | _ => True
             end).
Proof.
  intros Hh Hn. unfold walk_fail. apply wp_bind, wp_Unlock; [intros _; exact I|].
  intros _ o s' [= <- <-]. rewrite held_unlock, Hh. apply filter_ne_snoc, Hn.
Qed.

Lemma walk_fail_post {A} f e (s : State) hs (Φ : outcome A → State → Prop) :
  held s = hs ++ [f] → f ∉ hs →
  (∀ e' s', held s' = hs → Φ (Fail e') s') →
  Φ Deadlock = (λ _, True) → Φ Panic = (λ _, True) → Φ OutOfFuel = (λ _, True) →
  wp (walk_fail f e : M A) s Φ.
Proof.
  intros Hh Hn HF HD HP HO. eapply wp_mono; [apply (walk_fail_held f e s hs Hh Hn)|].
  intros o s' Ho. destruct o; [contradiction | apply HF, Ho | rewrite HD | rewrite HP | rewrite HO]; exact I.
Qed.

Lemma walk_end_held why f d (s : State) hs :
  held s = hs ++ [f] → f ∉ hs →
  wp (walk_end fs why f d) s (walk_post why f [] hs).
Proof.
  intros Hh Hn.
  pose proof (calm_getDirData f) as HD. pose proof (calm_getData f) as HG.
  assert (Hret : ∀ s, held s = hs ++ [f] → wp (mret f : M fsFile) s (walk_post why f [] hs)).
  { intros s0 Hs o s' [= <- <-]. simpl. split; [exact Hs|]. split; [exact Hn|]. left; reflexivity. }
  assert (Hfail : ∀ e s, held s = hs ++ [f] → wp (walk_fail f e : M fsFile) s (walk_post why f [] hs)).
  { intros e s0 Hs. apply (walk_fail_post f e s0 hs); auto. }
  unfold walk_end. destruct why.
  - auto.
  - destruct (perms fs && negb (CanGet d (ai fs))); [auto|].
    wp_calm_bind Hh as ok. destruct (negb ok); [|auto].
    wp_calm_bind Hh as err. destruct err; auto.
  - destruct (decide (dget d "type" = "d")); [auto|].
    wp_calm_bind Hh as ok. destruct (negb ok); [|auto].
    wp_calm_bind Hh as err. destruct err; auto.
  - wp_calm_bind Hh as ok.
    destruct (negb ok && bool_decide (dget d "type" = "d")); [|auto].
    wp_calm_bind Hh as err. destruct err; auto.
  - simpl. auto.
  - auto.
  - simpl. auto.
Qed.

Lemma walk_node_held next why nd f els (s : State) hs :
  (∀ el rest s0, els = el :: rest → held s0 = hs →
     wp (next (child f el) rest) s0 (walk_post why (child f el) rest hs)) →
  held s = hs ++ [f] → f ∉ hs →
  wp (walk_node fs next why nd f els) s (walk_post why f els hs).
Proof.
  intros Hnext Hh Hn.
  pose proof (calm_getDirData f) as HD.
  assert (Hfail : ∀ e s, held s = hs ++ [f] →
            wp (walk_fail f e : M fsFile) s (walk_post why f els hs)).
  { intros e s0 Hs. apply (walk_fail_post f e s0 hs); auto. }
  unfold walk_node, walk_step.
  wp_calm_bind Hh as del. destruct del; [auto|].
  wp_calm_bind Hh as d.
  destruct els as [|el rest]; [apply walk_end_held; assumption|].
  destruct (decide (dget d "type" ≠ "d")); [auto|].
  destruct (perms fs && negb (CanWalk d (ai fs))); [auto|].
  wp_calm_bind Hh as ok. wp_calm_bind Hh as err. destruct err as [e|]; [auto|].
  cbv zeta.
  destruct (bool_decide (rest = []) && bool_decide (why = forStat)
            && perms fs && negb (CanGet d (ai fs))); [auto|].
  destruct (bool_decide (rest = [])
            && bool_decide (why ∈ [forDel; forCreat; forCreatAll; forLink])
            && perms fs && negb (CanPut d (ai fs))); [auto|].
  wp_calm_bind Hh as err1. wp_calm_bind Hh as err. destruct err as [e|].
  - destruct (bool_decide (why ∈ [forCreat; forCreatAll; forLink])) eqn:Ew;
      [|simpl; auto].
    destruct (bool_decide (rest = [])) eqn:Er; [|simpl; auto].
    destruct (zx.IsNotExist err1); [|simpl; auto].
    simpl. intros o s' [= <- <-]. simpl.
    apply bool_decide_eq_true in Ew, Er. subst rest.
    split; [exact Hh|]. split; [exact Hn|]. right.
    split; [exact Ew|]. split; [discriminate | reflexivity].
  - apply wp_bind, wp_Unlock; [intros _; exact I|]. intros _.
    eapply wp_mono.
    + apply (Hnext el rest); [reflexivity|].
      rewrite held_unlock, Hh. apply filter_ne_snoc, Hn.
    + intros o s' Ho. destruct o; try exact Ho.
      destruct Ho as (H1 & H2 & H3). split; [exact H1|]. split; [exact H2|].
      destruct H3 as [->|(Hw & Hr & ->)]; [left; reflexivity|].
      right. split; [exact Hw|]. split; [discriminate|].
      destruct rest; [congruence | reflexivity].
Qed.

(** A walk that returns a node returns it locked, on top of the locks held
    before; a walk that fails leaves the locks held before. *)
Lemma walk_from_held why nd els f (s : State) :
  wp (walk_from fs why nd f els) s (walk_post why f els (held s)).
Proof.
  revert f s. induction els as [|el rest IH]; intros f s; rewrite walk_from_eq.
  all: apply wp_bind, wp_Lock; [intros _; exact I|]; intros Hn.
  all: pose proof (held_lock s f) as Hh.
  all: pose proof (calm_getMeta f) as HM.
  all: wp_calm_bind Hh as ok; wp_calm_bind Hh as err.
  all: destruct err as [e|]; [apply (walk_fail_post f e _ (held s)); auto|].
  all: apply walk_node_held; try assumption.
  - intros el rest s' [=].
  - intros el' rest' s' [= <- <-] Hs'. rewrite <- Hs'. apply IH.
Qed.

End Walk.

(** ** move: the order of the parent locks *)

Section Move.

Context {C R P : Type}.
Context `{!Remote R, !Cache C R, !Perms, !Preds P, !Sys C R}.
Variable fs : Fs.

Local Abbreviation State := (State C R).
Local Abbreviation M := (M C R).

Variables (from to : string) (order : list fsFile).

Local Abbreviation shape := (move_shape from to order).

Lemma shape_refl (s : State) : shape s s.
Proof. exists []. rewrite app_nil_r. split; [reflexivity | left; constructor]. Qed.

Lemma shape_ext (s s' : State) : ext not_move s s' → shape s s'.
Proof. intros (evs & E & F). exists evs. split; [exact E | left; exact F]. Qed.

Lemma shape_pre (s sc s' : State) : ext not_move s sc → shape sc s' → shape s s'.
Proof.
  intros (e1 & E1 & F1) (evs & E & Hs). exists (e1 ++ evs).
  split; [rewrite E, E1, app_assoc; reflexivity|].
  destruct Hs as [F|(pre & post & -> & Fp & Fq & Hl)].
  - left. apply Forall_app. split; assumption.
  - right. exists (e1 ++ pre), post. rewrite <- app_assoc.
    split; [reflexivity|]. split; [apply Forall_app; split; assumption|].
    split; [assumption|]. rewrite app_assoc, <- E1. exact Hl.
Qed.

Lemma shape_post (s s1 s2 : State) : shape s s1 → ext not_move s1 s2 → shape s s2.
Proof.
  intros (evs & E & Hs) (e2 & E2 & F2). exists (evs ++ e2).
  split; [rewrite E2, E, app_assoc; reflexivity|].
  destruct Hs as [F|(pre & post & -> & Fp & Fq & Hl)].
  - left. apply Forall_app. split; assumption.
  - right. exists pre, (post ++ e2). rewrite <- app_assoc.
    split; [reflexivity|]. split; [assumption|].
    split; [apply Forall_app; split; assumption | exact Hl].
Qed.

Lemma wp_shape_end {A} (m : M A) (s : State) :
  appends not_move m → wp m s (λ _ s', shape s s').
Proof. intros Hm o s' E. apply shape_ext. exact (Hm s o s' E). Qed.

Lemma wp_shape_bind {A B} (m : M A) (k : A → M B) (s : State) :
  wp m s (λ o sc,
    ext not_move s sc ∧
    match o with
    | Ret a => wp (k a) sc (λ _ s', shape sc s')
    | _ => True
    end) →
  wp (m ≫= k) s (λ _ s', shape s s').
Proof.
  intros Hm. apply wp_bind. eapply wp_mono; [exact Hm|].
  intros o sc [Hext Ho]. destruct o; try (apply shape_ext, Hext).
  eapply wp_mono; [exact Ho|]. intros o' s' Hs. eapply shape_pre; eassumption.
Qed.

Lemma wp_shape_calm {A B} (m : M A) (k : A → M B) (s : State) hs :
  calm m → appends not_move m → held s = hs →
  (∀ a sc, held sc = hs → wp (k a) sc (λ _ s', shape sc s')) →
  wp (m ≫= k) s (λ _ s', shape s s').
Proof.
  intros Hc Ha Hh Hk. apply wp_shape_bind. intros o sc E.
  split; [exact (Ha s o sc E)|].
  destruct (Hc s) as (a & s1 & E1 & H1). rewrite E1 in E. injection E as <- <-.
  apply Hk. rewrite H1. exact Hh.
Qed.

Lemma walk_not_move ev : walk_event ev → not_move ev.
Proof. destruct ev; simpl; tauto. Qed.

Lemma wp_shape_walk {B} why nd els (k : fsFile → M B) (s : State) hs :
  held s = hs →
  (∀ g sc, held sc = hs ++ [g] → g ∉ hs →
     (g = reach (File "/") els ∨
      (why ∈ [forCreat; forCreatAll; forLink] ∧ els ≠ [] ∧
       g = reach (File "/") (removelast els))) →
     wp (k g) sc (λ _ s', shape sc s')) →
  wp (walk fs why nd els ≫= k) s (λ _ s', shape s s').
Proof.
  intros Hh Hk. apply wp_shape_bind. intros o sc E.
  split; [eapply ext_impl; [exact walk_not_move | exact (appends_walk fs why nd els s o sc E)]|].
  pose proof (walk_from_held fs why nd els (File "/") s o sc E) as Hp.
  destruct o; try exact I. rewrite Hh in Hp. destruct Hp as (H1 & H2 & H3).
  apply Hk; assumption.
Qed.

Lemma wp_shape_unlock {B} f (k : () → M B) (s : State) hs :
  held s = hs ++ [f] → f ∉ hs →
  (∀ sc, held sc = hs → wp (k ()) sc (λ _ s', shape sc s')) →
  wp (Unlock f ≫= k) s (λ _ s', shape s s').
Proof.
  intros Hh Hn Hk. apply wp_shape_bind. apply wp_Unlock.
  - intros _. split; [apply ext_refl | exact I].
  - intros _. split; [apply ext_add; exact I|]. apply Hk.
    rewrite held_unlock, Hh. apply filter_ne_snoc, Hn.
Qed.

Lemma wp_shape_defer {A} (cleanup : M ()) (body : M A) (s : State) :
  appends not_move cleanup →
  wp body s (λ _ s', shape s s') →
  wp (defer cleanup body) s (λ _ s', shape s s').
Proof.
  intros Hc Hb. apply wp_defer. eapply wp_mono; [exact Hb|].
  intros o s1 Hs.
  destruct o; try exact Hs;
    (intros o' s2 E; pose proof (Hc s1 o' s2 E) as Hext;
     destruct o'; eapply shape_post; eassumption).
Qed.

Lemma shape_forward (call : R → option error * R) (f1 f2 : fsFile) (s : State) :
  held s = order →
  wp (inval f1;; inval f2;;
      err ← remote (EvRemoteMove from to) call; check err) s
     (λ _ s', shape s s').
Proof.
  intros Hh.
  eapply wp_shape_calm; [calm_tac | appends_tac | exact Hh |]. intros a1 s1 Hh1.
  eapply wp_shape_calm; [calm_tac | appends_tac | exact Hh1 |]. intros a2 s2 Hh2.
  apply wp_bind. intros o s3 E. unfold remote in E.
  destruct (call (rst s2)) as [err r]. injection E as <- <-.
  eapply wp_mono; [apply (appends_check not_move err)|].
  intros o s4 Hext. eapply shape_post; [|exact Hext].
  exists [EvRemoteMove from to]. split; [reflexivity|]. right.
  exists [], []. split; [reflexivity|]. split; [constructor|]. split; [constructor|].
  rewrite app_nil_r. exact Hh2.
Qed.

Lemma parent_node p0 p :
  zx.UseAbsPath p0 = inr p →
  reach (File "/") (removelast (zx.Elems p)) = File (fpath.Dir p).
Proof.
  intros [Hall Hc]%PathLemmas.UseAbsPath_canon.
  rewrite PathLemmas.reach_root by (apply PathLemmas.removelast_elem, Hall).
  rewrite Hc at 2. rewrite PathLemmas.Dir_of_els by assumption. reflexivity.
Qed.

Lemma forStat_not_creat : forStat ∉ [forCreat; forCreatAll; forLink].
Proof. intros Hin. repeat (apply elem_of_cons in Hin as [?|Hin]; [discriminate|]). inversion Hin. Qed.

Lemma wp_shape_parent {B} p0 p (k : fsFile → M B) (s : State) hs :
  zx.UseAbsPath p0 = inr p →
  held s = hs →
  (∀ sc, held sc = hs ++ [File (fpath.Dir p)] → File (fpath.Dir p) ∉ hs →
     wp (k (File (fpath.Dir p))) sc (λ _ s', shape sc s')) →
  wp (els ← but_last (zx.Elems p); ffrom ← walk fs forStat ∅ els; k ffrom) s
     (λ _ s', shape s s').
Proof.
  intros Hp Hh Hk. unfold but_last.
  destruct (zx.Elems p) as [|e l] eqn:Ee.
  { apply wp_bind. intros o s1 [= <- <-]. apply shape_refl. }
  rewrite <- Ee. apply wp_bind. intros o s1 [= <- <-].
  apply wp_shape_walk with (hs := hs); [exact Hh|].
  intros g sc H1 H2 [H3|(Hw & _)]; [|destruct (forStat_not_creat Hw)].
  rewrite (parent_node p0 p Hp) in H3. subst g. apply Hk; assumption.
Qed.

Lemma move_shape_all (from0 to0 : string) (s : State) :
  zx.UseAbsPath from0 = inr from →
  zx.UseAbsPath to0 = inr to →
  order = match String.compare (fpath.Dir from) (fpath.Dir to) with
          | Gt => [File (fpath.Dir from); File (fpath.Dir to)]
          | Eq => [File (fpath.Dir from)]
          | Lt => [File (fpath.Dir to); File (fpath.Dir from)]
          end →
  held s = [] →
  wp (move fs from0 to0) s (λ _ s', shape s s').
Proof.
  intros Hf Ht Ho Hh. unfold move.
  destruct r_move as [rfs_Move|]; [|apply wp_shape_end; appends_tac].
  rewrite Hf, Ht.
  destruct (decide (from = to)); [apply wp_shape_end; appends_tac|].
  destruct (decide (from = "/Ctl" ∨ from = "/")); [apply wp_shape_end; appends_tac|].
  destruct (decide (to = "/Ctl" ∨ to = "/")); [apply wp_shape_end; appends_tac|].
  destruct (inconsistentMove from to); [apply wp_shape_end; appends_tac|].
  eapply wp_shape_calm; [calm_tac | appends_tac | exact Hh |]. intros a1 s1 Hh1.
  cbv zeta.
  apply wp_shape_walk with (hs := []); [exact Hh1|]. intros g1 s2 Hh2 Hn2 _.
  eapply wp_shape_calm; [calm_tac | appends_tac | exact Hh2 |]. intros a3 s3 Hh3.
  apply wp_shape_unlock with (hs := []); [exact Hh3 | exact Hn2|]. intros s4 Hh4.
  apply wp_shape_walk with (hs := []); [exact Hh4|]. intros g2 s5 Hh5 Hn5 _.
  eapply wp_shape_calm; [calm_tac | appends_tac | exact Hh5 |]. intros a6 s6 Hh6.
  apply wp_shape_unlock with (hs := []); [exact Hh6 | exact Hn5|]. intros s7 Hh7.
  destruct (String.compare (fpath.Dir from) (fpath.Dir to)) eqn:Ec.
  - apply (wp_shape_parent from0 from _ s7 []); [exact Hf | exact Hh7|].
    intros s8 Hh8 Hn8. apply wp_shape_defer; [appends_tac|].
    apply shape_forward. rewrite Hh8, Ho. reflexivity.
  - apply (wp_shape_parent to0 to _ s7 []); [exact Ht | exact Hh7|].
    intros s8 Hh8 Hn8. apply wp_shape_defer; [appends_tac|].
    apply (wp_shape_parent from0 from _ s8 [File (fpath.Dir to)]); [exact Hf | exact Hh8|].
    intros s9 Hh9 Hn9. apply wp_shape_defer; [appends_tac|].
    apply shape_forward. rewrite Hh9, Ho. reflexivity.
  - apply (wp_shape_parent from0 from _ s7 []); [exact Hf | exact Hh7|].
    intros s8 Hh8 Hn8. apply wp_shape_defer; [appends_tac|].
    apply (wp_shape_parent to0 to _ s8 [File (fpath.Dir from)]); [exact Ht | exact Hh8|].
    intros s9 Hh9 Hn9. apply wp_shape_defer; [appends_tac|].
    apply shape_forward. rewrite Hh9, Ho. reflexivity.
Qed.

End Move.

Section MoveOrder.

Context {C R P : Type}.
Context `{!Remote R, !Cache C R, !Perms, !Preds P, !Sys C R}.
Variable fs : Fs.

Local Abbreviation State := (State C R).

Lemma Dir_canon p0 p :
  zx.UseAbsPath p0 = inr p →
  Forall PathFacts.elem (zx.Elems (fpath.Dir p)) ∧
  fpath.Dir p = fpath.of_els (zx.Elems (fpath.Dir p)).
Proof.
  intros [Hall Hc]%PathLemmas.UseAbsPath_canon.
  pose proof (PathLemmas.removelast_elem _ Hall) as Hr.
  assert (Hd : fpath.Dir p = fpath.of_els (removelast (zx.Elems p)))
    by (rewrite Hc at 1; apply PathLemmas.Dir_of_els, Hall).
  rewrite Hd, PathLemmas.Elems_of_els by assumption.
  split; [exact Hr | reflexivity].
Qed.

(** A path compares less than the paths it is a strict path-prefix of. *)
Lemma prefix_compare (a b : string) :
  Forall PathFacts.elem (zx.Elems b) →
  a = fpath.of_els (zx.Elems a) → b = fpath.of_els (zx.Elems b) →
  zx.HasPrefix b a = true → a ≠ b →
  String.compare a b = Lt.
Proof.
  intros Hb Ha Hcb Hp Hne. unfold zx.HasPrefix in Hp.
  apply andb_prop in Hp as [_ Hp]. apply bool_decide_eq_true in Hp.
  destruct Hp as [k Hk]. rewrite Ha, Hcb, Hk.
  rewrite Hk in Hb. apply Forall_app in Hb as [_ Hb].
  apply PathLemmas.compare_below; [exact Hb|].
  intros ->. apply Hne. rewrite Ha, Hcb, Hk, app_nil_r. reflexivity.
Qed.

(** C1 (amended): when [move] calls the remote, it holds exactly the locks
    of the two parents [A = dirname(from)] and [B = dirname(to)], and for
    distinct parents the one whose path string compares greater was locked
    first: [A] before [B] when [A > B], [B] before [A] when [A < B].  So the
    inner parent is locked first when one is a path-prefix of the other:
    [B] before [A] when [A] is a strict prefix of [B], and [A] before [B]
    when [B] is a strict prefix of [A].  The order depends on the two path
    strings only. *)
Theorem move_lock_order (from to from' to' : string) (s s' : State)
    (o : outcome ()) (evs : list event) :
  zx.UseAbsPath from = inr from' →
  zx.UseAbsPath to = inr to' →
  held s = [] →
  move fs from to s = (o, s') →
  log s' = log s ++ evs →
  EvRemoteMove from' to' ∈ evs →
  fpath.Dir from' ≠ fpath.Dir to' →
  ∃ pre post,
    evs = pre ++ EvRemoteMove from' to' :: post ∧
    (EvRemoteMove from' to' ∉ pre) ∧
    (String.ltb (fpath.Dir to') (fpath.Dir from') = true →
       locks_held (log s ++ pre) = [File (fpath.Dir from'); File (fpath.Dir to')]) ∧
    (String.ltb (fpath.Dir from') (fpath.Dir to') = true →
       locks_held (log s ++ pre) = [File (fpath.Dir to'); File (fpath.Dir from')]) ∧
    (zx.HasPrefix (fpath.Dir to') (fpath.Dir from') = true →
       locks_held (log s ++ pre) = [File (fpath.Dir to'); File (fpath.Dir from')]) ∧
    (zx.HasPrefix (fpath.Dir from') (fpath.Dir to') = true →
       locks_held (log s ++ pre) = [File (fpath.Dir from'); File (fpath.Dir to')]).
Proof.
  intros Hf Ht Hh Hm Hl Hin Hne.
  destruct (move_shape_all fs from' to' _ from to s Hf Ht eq_refl Hh o s' Hm)
    as (evs' & Hl' & Hs).
  rewrite Hl in Hl'. apply app_inv_head in Hl'. subst evs'.
  destruct Hs as [F|(pre & post & -> & Fp & Fq & Ho)].
  { rewrite Forall_forall in F. destruct (F _ Hin). }
  exists pre, post. split; [reflexivity|].
  split. { intros Hp. rewrite Forall_forall in Fp. exact (Fp _ Hp). }
  destruct (Dir_canon _ _ Hf) as [Ef Cf]. destruct (Dir_canon _ _ Ht) as [Et Ct].
  assert (Hlt : String.compare (fpath.Dir from') (fpath.Dir to') = Lt →
                locks_held (log s ++ pre) = [File (fpath.Dir to'); File (fpath.Dir from')]).
  { intros Ec. rewrite Ec in Ho. exact Ho. }
  assert (Hgt : String.compare (fpath.Dir to') (fpath.Dir from') = Lt →
                locks_held (log s ++ pre) = [File (fpath.Dir from'); File (fpath.Dir to')]).
  { intros Ec. rewrite String.compare_antisym, Ec in Ho. exact Ho. }
  repeat split.
  - unfold String.ltb. intros Hb. apply Hgt.
    destruct (String.compare (fpath.Dir to') (fpath.Dir from')); congruence.
  - unfold String.ltb. intros Hb. apply Hlt.
    destruct (String.compare (fpath.Dir from') (fpath.Dir to')); congruence.
  - intros Hp. apply Hlt. apply prefix_compare; assumption.
  - intros Hp. apply Hgt. apply prefix_compare; try assumption. congruence.
Qed.

End MoveOrder.

(** ** move and link: the checks before anything is done *)

Section Guards.

Context {C R P : Type}.
Context `{!Remote R, !Cache C R, !Perms, !Preds P, !Sys C R}.
Variable fs : Fs.

Local Abbreviation State := (State C R).
Local Abbreviation M := (M C R).

(** Only [/] and [/Ctl] are path-prefixes of [/] and of [/Ctl]. *)
Lemma prefix_of_reserved p p' :
  p' = fpath.of_els (zx.Elems p') →
  zx.HasPrefix p p' = true → p = "/" ∨ p = "/Ctl" → p' = "/" ∨ p' = "/Ctl".
Proof.
  intros Hc Hp Hr. unfold zx.HasPrefix in Hp.
  apply andb_prop in Hp as [_ Hp]. apply bool_decide_eq_true in Hp.
  destruct Hp as [k Hk]. rewrite Hc. clear Hc.
  destruct Hr as [-> | ->].
  - change (zx.Elems "/") with (@nil string) in Hk.
    destruct (zx.Elems p'); [left; reflexivity | discriminate].
  - change (zx.Elems "/Ctl") with ["Ctl"] in Hk.
    destruct (zx.Elems p') as [|e [|e' l]]; [left; reflexivity | |].
    + injection Hk as <- _. right. reflexivity.
    + injection Hk as _ Hk. discriminate.
Qed.

(** C2 (amended): for valid absolute paths [from] and [to] with [from] a
    strict path-prefix of [to], [from] being neither [/] nor [/Ctl], and on
    a remote that can move, [move] fails with an error of kind [BadPath]
    (inconsistent move) and changes nothing: the cache, the remote, the
    locks and the log are as before. *)
Theorem move_into_itself (from to from' to' : string) (s : State) :
  is_Some r_move →
  zx.UseAbsPath from = inr from' →
  zx.UseAbsPath to = inr to' →
  from' ≠ "/" → from' ≠ "/Ctl" →
  from' ≠ to' →
  zx.HasPrefix to' from' = true →
  move fs from to s
    = (Fail (ErrCtx ("move " +:+ from') ErrInconsistentMove), s) ∧
  kind_of (ErrCtx ("move " +:+ from') ErrInconsistentMove) = BadPath.
Proof.
  intros [rf Hr] Hf Ht H1 H2 Hne Hp. split; [|reflexivity].
  unfold move. rewrite Hr, Hf, Ht.
  destruct (decide (from' = to')); [contradiction|].
  destruct (decide (from' = "/Ctl" ∨ from' = "/")) as [[?|?]|_];
    [contradiction | contradiction |].
  destruct (decide (to' = "/Ctl" ∨ to' = "/")) as [Hto|_].
  { apply PathLemmas.UseAbsPath_canon in Hf as [_ Hc].
    assert (Hto' : to' = "/" ∨ to' = "/Ctl") by tauto.
    destruct (prefix_of_reserved to' from' Hc Hp Hto'); contradiction. }
  unfold inconsistentMove. destruct (decide (from' = to')); [contradiction|].
  rewrite Hp. reflexivity.
Qed.

(** C10: for every valid absolute path [p] (also [/] and [/Ctl], and also
    when the two arguments are two spellings of [p]), [move] on a remote
    that can move and [link] on a remote that can link return at once with
    no error and leave the whole state as it was: the cache, the remote,
    the locks and the log (no lock is taken and no remote call made). *)
Theorem move_link_same_path (from to p : string) (s : State) :
  zx.UseAbsPath from = inr p →
  zx.UseAbsPath to = inr p →
  (is_Some r_move → move fs from to s = (Ret (), s)) ∧
  (is_Some r_link → link fs to from s = (Ret (), s)).
Proof.
  intros Hf Ht. split; intros [rf Hr].
  - unfold move. rewrite Hr, Hf, Ht.
    destruct (decide (p = p)); [reflexivity | congruence].
  - unfold link. rewrite Hr, Hf, Ht.
    destruct (decide (p = p)); [reflexivity | congruence].
Qed.

Lemma any_event (Q : event → Prop) ev : Q ev → (λ _ : event, True) ev.
Proof. intros _. exact I. Qed.

(** C3 (amended): for distinct valid absolute paths [to] and [from], on a
    remote that can link: when one of them is [/] or [/Ctl], [link] fails
    with [Perm], not [BadPath], and changes nothing; when none is and
    neither path is a path-prefix of the other, [link] is not rejected as
    inconsistent: it goes on to sync the cache. *)
Theorem link_checks (to from to' from' : string) (s : State) :
  is_Some r_link →
  zx.UseAbsPath to = inr to' →
  zx.UseAbsPath from = inr from' →
  from' ≠ to' →
  ((from' = "/Ctl" ∨ from' = "/") ∨ (to' = "/Ctl" ∨ to' = "/") →
     ∃ e, link fs to from s = (Fail e, s) ∧ kind_of e = Perm) ∧
  (¬ (from' = "/Ctl" ∨ from' = "/") → ¬ (to' = "/Ctl" ∨ to' = "/") →
   zx.HasPrefix to' from' = false → zx.HasPrefix from' to' = false →
     ∀ o s', link fs to from s = (o, s') →
       ∃ evs, log s' = log s ++ EvCacheSync :: evs).
Proof.
  intros [rf Hr] Ht Hf Hne. split.
  - intros Hres. unfold link. rewrite Hr, Hf, Ht.
    destruct (decide (from' = to')); [contradiction|].
    destruct (decide (from' = "/Ctl" ∨ from' = "/")); [eexists; split; reflexivity|].
    destruct (decide (to' = "/Ctl" ∨ to' = "/")); [eexists; split; reflexivity|].
    tauto.
  - intros H1 H2 Hp1 Hp2 o s'. unfold link. rewrite Hr, Hf, Ht.
    destruct (decide (from' = to')); [contradiction|].
    destruct (decide (from' = "/Ctl" ∨ from' = "/")); [contradiction|].
    destruct (decide (to' = "/Ctl" ∨ to' = "/")); [contradiction|].
    unfold inconsistentLink. rewrite Hp1. rewrite bind_unfold.
    unfold cache_sync at 1. destruct (c_sync (cst s) (rst s)) as [[err c] r].
    match goal with |- ?m ?s1 = _ → _ => intros E; assert (Ha : appends (λ _, True) m) end.
    { pose proof (λ why nd els, appends_impl _ _ _ (any_event walk_event)
                   (appends_walk fs why nd els)) as HW.
      pose proof (λ f, appends_impl _ _ _ (any_event fetch_event)
                   (appends_getDirData fs f)) as HD.
      cbv zeta. appends_tac. }
    destruct (Ha _ _ _ E) as (evs & El & _). exists evs.
    rewrite El. simpl. rewrite <- app_assoc. reflexivity.
Qed.

End Guards.

(** ** walk: failures of the remote *)

Section Fetch.

Context {C R P : Type}.
Context `{!Remote R, !Cache C R, !Perms, !Preds P, !Sys C R}.
Variable fs : Fs.

Local Abbreviation State := (State C R).
Local Abbreviation M := (M C R).

Lemma IsIOError_true e : kind_of e = IO → zx.IsIOError (Some e) = true.
Proof. intros E. apply bool_decide_eq_true_2, E. Qed.

Lemma IsIOError_false e : kind_of e ≠ IO → zx.IsIOError (Some e) = false.
Proof. intros E. apply bool_decide_eq_false_2, E. Qed.

Lemma getMeta_io f (s : State) e r' :
  r_stat (rst s) (path_of f) = (inl e, r') →
  kind_of e = IO → redialok fs = true →
  getMeta fs f s = (Ret None, stale (EvRemoteStat (path_of f)) r' s).
Proof.
  intros Hr Hk Hd. unfold getMeta. rewrite bind_unfold. unfold remote at 1.
  simpl rst. rewrite Hr, (IsIOError_true e Hk), Hd. unfold needRedial. rewrite Hd.
  reflexivity.
Qed.

Lemma getMeta_err f (s : State) e r' :
  r_stat (rst s) (path_of f) = (inl e, r') →
  kind_of e ≠ IO →
  getMeta fs f s = (Ret (Some e), refused (EvRemoteStat (path_of f)) r' e f s).
Proof.
  intros Hr Hk. unfold getMeta, refused. rewrite bind_unfold. unfold remote at 1.
  simpl rst. rewrite Hr, (IsIOError_false e Hk).
  destruct (zx.IsNotExist (Some e)); reflexivity.
Qed.

Lemma getDirData_io f (s : State) e r' :
  r_getdir (rst s) (path_of f) = (inl e, r') →
  kind_of e = IO → redialok fs = true → c_oldDataOk (cst s) f = true →
  getDirData fs f s = (Ret None, stale (EvRemoteGetDir (path_of f)) r' s).
Proof.
  intros Hr Hk Hd Ho. unfold getDirData. rewrite bind_unfold. unfold remote at 1.
  simpl rst. rewrite Hr. rewrite bind_unfold. unfold oldDataOk at 1.
  change (cst (set_rst r' (add_log (EvRemoteGetDir (path_of f)) s))) with (cst s).
  rewrite Ho, (IsIOError_true e Hk), Hd. unfold needRedial. rewrite Hd.
  reflexivity.
Qed.

Lemma getDirData_err f (s : State) e r' :
  r_getdir (rst s) (path_of f) = (inl e, r') →
  kind_of e ≠ IO →
  getDirData fs f s
    = (Ret (Some e), refused (EvRemoteGetDir (path_of f)) r' e f s).
Proof.
  intros Hr Hk. unfold getDirData, refused. rewrite bind_unfold. unfold remote at 1.
  simpl rst. rewrite Hr. rewrite bind_unfold. unfold oldDataOk at 1.
  rewrite (IsIOError_false e Hk).
  destruct (zx.IsNotExist (Some e)); reflexivity.
Qed.

Lemma Lock_free f (s : State) : f ∉ held s → Lock f s = (Ret (), add_log (EvLock f) s).
Proof. intros Hn. unfold Lock. fold (held s). destruct (decide (f ∈ held s)); [contradiction | reflexivity]. Qed.

Lemma Unlock_held f (s : State) : f ∈ held s → Unlock f s = (Ret (), add_log (EvUnlock f) s).
Proof. intros Hn. unfold Unlock. fold (held s). destruct (decide (f ∈ held s)); [reflexivity | contradiction]. Qed.

Lemma walk_fail_eq {A} f e (s : State) :
  f ∈ held s →
  (walk_fail f e : M A) s = (Fail (ErrCtx (path_of f) e), add_log (EvUnlock f) s).
Proof. intros Hh. unfold walk_fail. rewrite bind_unfold, (Unlock_held f s Hh). reflexivity. Qed.

Lemma held_stale ev r' (s : State) : lock_free ev → held (stale ev r' s) = held s.
Proof.
  intros Hev. apply held_ext. exists [ev; EvNeedRedial].
  split; [unfold stale, fetched; simpl; rewrite <- app_assoc; reflexivity|].
  repeat constructor. exact Hev.
Qed.

Lemma held_refused ev r' e f (s : State) :
  lock_free ev → held (refused ev r' e f s) = held s.
Proof.
  intros Hev. apply held_ext. exists [ev].
  split; [unfold refused; destruct (zx.IsNotExist (Some e)); reflexivity|].
  repeat constructor. exact Hev.
Qed.

Lemma held_locked f (s : State) : f ∈ held (add_log (EvLock f) s).
Proof. rewrite held_lock. apply elem_of_app. right. constructor. Qed.

(** C7: a fetch of metadata or of the entries of a directory that fails
    with an I/O error, while redial is enabled and the node holds old data,
    returns no error, leaves the cache as it was and tells the syncer to
    redial, and the walk goes on from the node; a fetch that fails with an
    error that is not an I/O error returns that error, after marking the
    node gone if the error says that it does not exist, and the walk fails
    with that error and releases the node. *)
Theorem walk_remote_failures (next : fsFile → list string → M fsFile)
    (why : walkFor) (nd : Dir) (f : fsFile) (el : string)
    (rest els : list string) (s : State) (e : error) (r' : R) :
  let sl := add_log (EvLock f) s in
  let mev := EvRemoteStat (path_of f) in
  let dev := EvRemoteGetDir (path_of f) in
  let d := c_dir (cst s) f in
  (r_stat (rst s) (path_of f) = (inl e, r') →
     (kind_of e = IO → redialok fs = true → c_oldDataOk (cst s) f = true →
        getMeta fs f s = (Ret None, stale mev r' s) ∧
        cst (stale mev r' s) = cst s ∧
        (f ∉ held s → c_metaOk (cst s) f = false →
           walk_from fs why nd f els s
             = walk_node fs (walk_from fs why nd) why nd f els (stale mev r' sl))) ∧
     (kind_of e ≠ IO →
        getMeta fs f s = (Ret (Some e), refused mev r' e f s) ∧
        (f ∉ held s → c_metaOk (cst s) f = false →
           walk_from fs why nd f els s
             = (Fail (ErrCtx (path_of f) e),
                add_log (EvUnlock f) (refused mev r' e f sl))))) ∧
  (r_getdir (rst s) (path_of f) = (inl e, r') →
     (kind_of e = IO → redialok fs = true → c_oldDataOk (cst s) f = true →
        getDirData fs f s = (Ret None, stale dev r' s) ∧
        cst (stale dev r' s) = cst s ∧
        (c_isDel (cst s) f = false → dget d "type" = "d" →
         perms fs && negb (CanWalk d (ai fs)) = false →
         c_dataOk (cst s) f = false →
           walk_node fs next why nd f (el :: rest) s
             = walk_step fs next why nd f d el rest (stale dev r' s))) ∧
     (kind_of e ≠ IO →
        getDirData fs f s = (Ret (Some e), refused dev r' e f s) ∧
        (f ∈ held s → c_isDel (cst s) f = false → dget d "type" = "d" →
         perms fs && negb (CanWalk d (ai fs)) = false →
         c_dataOk (cst s) f = false →
           walk_node fs next why nd f (el :: rest) s
             = (Fail (ErrCtx (path_of f) e),
                add_log (EvUnlock f) (refused dev r' e f s))))).
Proof.
  intros sl mev dev d. split; intros Hr; split.
  - intros Hk Hd Ho. split; [apply (getMeta_io f s e r'); assumption|].
    split; [reflexivity|].
    intros Hn Hm. rewrite walk_from_eq, bind_unfold, (Lock_free f s Hn).
    rewrite bind_unfold. unfold metaOk at 1. simpl cst. rewrite Hm. simpl negb.
    cbv iota. fold sl. rewrite bind_unfold, (getMeta_io f sl e r' Hr Hk Hd).
    reflexivity.
  - intros Hk. split; [apply (getMeta_err f s e r'); assumption|].
    intros Hn Hm. rewrite walk_from_eq, bind_unfold, (Lock_free f s Hn).
    rewrite bind_unfold. unfold metaOk at 1. simpl cst. rewrite Hm. simpl negb.
    cbv iota. fold sl. rewrite bind_unfold, (getMeta_err f sl e r' Hr Hk).
    apply walk_fail_eq. rewrite held_refused by exact I. apply held_locked.
  - intros Hk Hd Ho. split; [apply (getDirData_io f s e r'); assumption|].
    split; [reflexivity|].
    intros Hdel Ht Hp Hdo. unfold walk_node. rewrite bind_unfold.
    unfold isDel at 1. rewrite Hdel. rewrite bind_unfold. unfold dir at 1. fold d.
    destruct (decide (dget d "type" ≠ "d")); [contradiction|]. rewrite Hp.
    rewrite bind_unfold. unfold dataOk at 1. rewrite Hdo. simpl negb.
    cbv iota. rewrite bind_unfold, (getDirData_io f s e r' Hr Hk Hd Ho).
    reflexivity.
  - intros Hk. split; [apply (getDirData_err f s e r'); assumption|].
    intros Hh Hdel Ht Hp Hdo. unfold walk_node. rewrite bind_unfold.
    unfold isDel at 1. rewrite Hdel. rewrite bind_unfold. unfold dir at 1. fold d.
    destruct (decide (dget d "type" ≠ "d")); [contradiction|]. rewrite Hp.
    rewrite bind_unfold. unfold dataOk at 1. rewrite Hdo. simpl negb.
    cbv iota. rewrite bind_unfold, (getDirData_err f s e r' Hr Hk).
    apply walk_fail_eq. rewrite held_refused by exact I. exact Hh.
Qed.

End Fetch.

(** ** put: the checks on the type *)

Section FailsIn.

Context {C R P : Type}.
Context `{!Remote R, !Cache C R, !Perms, !Preds P, !Sys C R}.

Local Abbreviation State := (State C R).
Local Abbreviation M := (M C R).

Lemma fails_in_bind {A B} K (m : M A) (k : A → M B) :
  fails_in K m → (∀ a, fails_in K (k a)) → fails_in K (m ≫= k).
Proof.
  intros Hm Hk s o s' E. rewrite bind_unfold in E.
  destruct (m s) as [o1 s1] eqn:E1. specialize (Hm s o1 s1 E1).
  destruct o1; [exact (Hk a s1 o s' E) | injection E as <- <-; exact Hm ..].
Qed.

Lemma fails_in_let {A B} K (v : B) (b : B → M A) :
  (∀ x, fails_in K (b x)) → fails_in K (let x := v in b x).
Proof. intros Hb. apply Hb. Qed.

Lemma fails_in_calm {A} K (m : M A) : calm m → fails_in K m.
Proof.
  intros Hm s o s' E. destruct (Hm s) as (a & s1 & E1 & _).
  rewrite E1 in E. injection E as <- <-. exact I.
Qed.

Lemma fails_in_ret {A} K (a : A) : fails_in K (mret a : M A).
Proof. intros s o s' [= <- <-]. exact I. Qed.

Lemma fails_in_fail {A} (K : error → Prop) e : K e → fails_in K (fail e : M A).
Proof. intros HK s o s' [= <- <-]. exact HK. Qed.

Lemma fails_in_check (K : error → Prop) err :
  (∀ e, err = Some e → K e) → fails_in K (check err : M ()).
Proof.
  intros HK. destruct err as [e|]; [apply fails_in_fail; auto | apply fails_in_ret].
Qed.

Lemma fails_in_Lock K f : fails_in K (Lock f : M ()).
Proof. intros s o s'. unfold Lock. destruct (decide _); intros [= <- <-]; exact I. Qed.

Lemma fails_in_Unlock K f : fails_in K (Unlock f : M ()).
Proof. intros s o s'. unfold Unlock. destruct (decide _); intros [= <- <-]; exact I. Qed.

End FailsIn.

(** Proves [fails_in K m] along the structure of [m]; a [let] is made a
    variable, as what [m] computes does not matter. *)
Ltac fails_step :=
  lazymatch goal with
  | |- fails_in ?K (let x := ?v in @?b x) =>
      let y := fresh x in
      refine (fails_in_let K v b _); intros y; cbv beta
  | |- fails_in _ (mbind _ _) => apply fails_in_bind; [|intros ?]
  | |- fails_in _ (mret _) => apply fails_in_ret
  | |- fails_in _ (fail _) => apply fails_in_fail
  | |- fails_in _ (check _) => apply fails_in_check
  | |- fails_in _ (Lock _) => apply fails_in_Lock
  | |- fails_in _ (Unlock _) => apply fails_in_Unlock
  | |- fails_in _ (if ?b then _ else _) => destruct b
  | |- fails_in _ (match ?x with _ => _ end) => destruct x eqn:?
  | |- fails_in _ (let '(_, _) := ?x in _) => destruct x
  | |- fails_in _ _ => apply fails_in_calm; calm_tac
  end.

Section Put.

Context {C R P : Type}.
Context `{!Remote R, !Cache C R, !Perms, !Preds P, !Sys C R}.
Variable fs : Fs.

Local Abbreviation State := (State C R).
Local Abbreviation M := (M C R).

Lemma calm_needSync : calm (needSync : M ()).
Proof. unfold needSync. apply calm_emit. exact I. Qed.

Lemma of_els_inj a b :
  Forall PathFacts.elem a → Forall PathFacts.elem b →
  fpath.of_els a = fpath.of_els b → a = b.
Proof.
  intros Ha Hb E. rewrite <- (PathLemmas.Elems_of_els a Ha), E.
  apply PathLemmas.Elems_of_els, Hb.
Qed.

(** A path other than [/] is not its own parent. *)
Lemma Dir_ne p0 p : zx.UseAbsPath p0 = inr p → p ≠ "/" → fpath.Dir p ≠ p.
Proof.
  intros Hp Hne Hd. destruct (PathLemmas.UseAbsPath_canon _ _ Hp) as [Hall Hc].
  rewrite Hc in Hd at 1. rewrite PathLemmas.Dir_of_els in Hd by assumption.
  rewrite Hc in Hd at 2.
  apply of_els_inj in Hd; [|apply PathLemmas.removelast_elem, Hall | exact Hall].
  destruct (decide (zx.Elems p = [])) as [E|E].
  - apply Hne. rewrite Hc, E. reflexivity.
  - destruct (exists_last E) as (l & e & El). rewrite El, removelast_last in Hd.
    apply (f_equal length) in Hd. rewrite length_app in Hd. simpl in Hd. lia.
Qed.

(** The node a walk to create returns is the node of the path or the node
    of its parent. *)
Lemma walk_creat_node p0 p (s s1 : State) f :
  zx.UseAbsPath p0 = inr p →
  walk fs forCreat ∅ (zx.Elems p) s = (Ret f, s1) →
  (f = File p ∨ f = File (fpath.Dir p)) ∧ f ∈ held s1.
Proof.
  intros Hp Hw. pose proof (walk_from_held fs forCreat ∅ (zx.Elems p) (File "/") s _ _ Hw) as (Hh & _ & Hr).
  split.
  - destruct (PathLemmas.UseAbsPath_canon _ _ Hp) as [Hall Hc].
    destruct Hr as [->|(_ & _ & ->)].
    + left. rewrite PathLemmas.reach_root by assumption. rewrite <- Hc. reflexivity.
    + right. apply (parent_node p0 p Hp).
  - rewrite Hh. apply elem_of_app. right. constructor.
Qed.

Section NoExists.

(** The permission check and the cache do not report [Exists]. *)
Variable c : option instream.
Hypothesis HW : ∀ wd a nd e, CanWstat wd a nd = Some e → kind_of e ≠ Exists.
Hypothesis HN : ∀ c0 r f nd e c1 r1,
  c_newFile c0 r f nd = (Some e, c1, r1) → kind_of e ≠ Exists.
Hypothesis HS : ∀ c0 f nd e c1,
  c_wstat c0 f nd = (Some e, c1) → kind_of e ≠ Exists.
Hypothesis HD : ∀ c0 f off um e c1,
  c_putData c0 f off (default ([], None) c) um = (Some e, c1) →
  kind_of e ≠ Exists.

Local Abbreviation K := (λ e : error, kind_of e ≠ Exists).

Lemma fails_in_newFile {B} f d (k : option error → M B) :
  (∀ err, (∀ e, err = Some e → K e) → fails_in K (k err)) →
  fails_in K (newFile f d ≫= k).
Proof.
  intros Hk s o s' E. rewrite bind_unfold in E. unfold newFile at 1 in E.
  destruct (c_newFile (cst s) (rst s) f d) as [[err c1] r1] eqn:En.
  refine (Hk err _ _ _ _ E). intros e ->. eapply HN, En.
Qed.

Lemma fails_in_f_wstat {B} f d (k : option error → M B) :
  (∀ err, (∀ e, err = Some e → K e) → fails_in K (k err)) →
  fails_in K (f_wstat f d ≫= k).
Proof.
  intros Hk s o s' E. rewrite bind_unfold in E. unfold f_wstat at 1 in E.
  destruct (c_wstat (cst s) f d) as [err c1] eqn:En.
  refine (Hk err _ _ _ _ E). intros e ->. eapply HS, En.
Qed.

Lemma fails_in_f_putData {B} f off um (k : option error → M B) :
  (∀ err, (∀ e, err = Some e → K e) → fails_in K (k err)) →
  fails_in K (f_putData f off (default ([], None) c) um ≫= k).
Proof.
  intros Hk s o s' E. rewrite bind_unfold in E. unfold f_putData in E.
  rewrite bind_unfold in E.
  destruct (Unlock f s) as [[[]| | | |] s1] eqn:Eu;
    try (injection E as <- <-; exact I);
    try (unfold Unlock in Eu; destruct (decide _); discriminate).
  destruct (c_putData (cst s1) f off (default ([], None) c) um) as [err c1] eqn:Ep.
  refine (Hk err _ _ _ _ E). intros e ->. eapply HD, Ep.
Qed.

Lemma put_file_no_exists p d typ off f wd :
  fails_in K (put_file fs p d typ off c f wd : M Dir).
Proof.
  pose proof calm_needSync as HNS.
  cbv beta delta [put_file].
  repeat first
    [ lazymatch goal with
      | |- fails_in _ (newFile _ _ ≫= _) => apply fails_in_newFile; intros ? ?
      | |- fails_in _ (f_wstat _ _ ≫= _) => apply fails_in_f_wstat; intros ? ?
      | |- fails_in _ (f_putData _ _ _ _ ≫= _) =>
          apply fails_in_f_putData; intros ? ?
      | |- fails_in ?K0 (let x := default ?v0 c in @?b x) =>
          change (fails_in K0 (b (default v0 c))); cbv beta
      | |- fails_in _ _ => fails_step
      end
    | solve [eauto] ].
Qed.

End NoExists.

(** C8 (amended): for a valid absolute path [p] other than [/] and [/Ctl]:
    a [put] whose type is none of the five fails with the bad-file-type
    error before anything is done; a [put] of type [-] or [d] walks to
    create: when the walk fails, [put] fails with the error of the walk;
    when it returns a node, this is the node of [p] (which exists) or of
    its parent (the last element is missing), and [put] fails with an error
    of kind [Exists] exactly when it is the node of [p] and its type is not
    the type put.  The permission check and the cache are taken not to
    report [Exists], and the node to record its path. *)
Theorem put_type_checks (p p' : string) (d : Dir) (off : Z)
    (c : option instream) (s : State) :
  zx.UseAbsPath p = inr p' → p' ≠ "/" → p' ≠ "/Ctl" →
  (∀ wd a nd e, CanWstat wd a nd = Some e → kind_of e ≠ Exists) →
  (∀ c0 r f nd e c1 r1,
     c_newFile c0 r f nd = (Some e, c1, r1) → kind_of e ≠ Exists) →
  (∀ c0 f nd e c1, c_wstat c0 f nd = (Some e, c1) → kind_of e ≠ Exists) →
  (∀ c0 f off um e c1,
     c_putData c0 f off (default ([], None) c) um = (Some e, c1) →
     kind_of e ≠ Exists) →
  let typ := dget d "type" in
  (typ ≠ "" → typ ≠ "-" → typ ≠ "d" → typ ≠ "D" → typ ≠ "F" →
     put fs p d off c s = (Fail (ErrCtx p' (ErrBadType typ)), s)) ∧
  (typ = "-" ∨ typ = "d" →
     (∀ e s1, walk fs forCreat ∅ (zx.Elems p') s = (Fail e, s1) →
        put fs p d off c s = (Fail e, s1)) ∧
     (∀ f s1, walk fs forCreat ∅ (zx.Elems p') s = (Ret f, s1) →
        dget (c_dir (cst s1) f) "path" = path_of f →
        (f = File p' ∨ f = File (fpath.Dir p')) ∧
        ∀ o s', put fs p d off c s = (o, s') →
          ((∃ e, o = Fail e ∧ kind_of e = Exists) ↔
           (f = File p' ∧ dget (c_dir (cst s1) f) "type" ≠ typ)))).
Proof.
  intros Hp Hroot Hctl HW HN HS HD typ. split.
  - intros H1 H2 H3 H4 H5. unfold put. rewrite Hp.
    destruct (decide (p' = "/")); [contradiction|].
    destruct (decide (p' = "/Ctl")); [contradiction|].
    fold typ.
    destruct (decide (typ = "")); [contradiction|].
    destruct (decide (typ = "d" ∨ typ = "-")); [tauto|].
    destruct (decide (typ = "D")); [contradiction|].
    destruct (decide (typ = "F")); [contradiction|].
    reflexivity.
  - intros Htyp.
    assert (Hne : typ ≠ "") by (destruct Htyp as [E|E]; rewrite E; discriminate).
    assert (Hput : ∃ d1, put fs p d off c =
      ('(f, d, typ) ← (f ← walk fs forCreat ∅ (zx.Elems p'); mret (f, d1, typ));
       wd ← dir f;
       if bool_decide (dget wd "path" = p') && bool_decide (typ ≠ "")
          && bool_decide (dget wd "type" ≠ typ)
       then Unlock f;; fail (ErrCtx p' ErrExists)
       else put_file fs p' d typ off c f wd)).
    { unfold put. rewrite Hp.
      destruct (decide (p' = "/")); [contradiction|].
      destruct (decide (p' = "/Ctl")); [contradiction|].
      fold typ.
      destruct (decide (typ = "")); [contradiction|].
      destruct (decide (typ = "d" ∨ typ = "-")); [|tauto].
      eexists. reflexivity. }
    destruct Hput as [d1 Hput]. rewrite Hput. clear Hput. split.
    + intros e s1 Hw. rewrite !bind_unfold, Hw. reflexivity.
    + intros f s1 Hw Hpath.
      destruct (walk_creat_node p p' s s1 f Hp Hw) as [Hf Hheld].
      split; [exact Hf|]. intros o s'.
      rewrite !bind_unfold, Hw. simpl. rewrite bind_unfold. unfold dir at 1.
      rewrite Hpath.
      destruct (decide (f = File p' ∧ dget (c_dir (cst s1) f) "type" ≠ typ))
        as [[-> Ht]|Hn].
      * simpl path_of. rewrite !bool_decide_eq_true_2 by assumption || reflexivity.
        simpl. rewrite bind_unfold, (Unlock_held _ _ Hheld).
        intros [= <- <-]. split; [intros _; split; [reflexivity | exact Ht]|].
        intros _. eexists. split; reflexivity.
      * assert (Hc : bool_decide (path_of f = p') && bool_decide (typ ≠ "")
                     && bool_decide (dget (c_dir (cst s1) f) "type" ≠ typ) = false).
        { destruct (decide (dget (c_dir (cst s1) f) "type" = typ)) as [Ht|Ht].
          - rewrite (bool_decide_eq_false_2 (_ ≠ typ)) by tauto.
            rewrite andb_false_r. reflexivity.
          - rewrite (bool_decide_eq_false_2 (path_of f = p')); [reflexivity|].
            intros Hpf. destruct Hf as [->| ->]; [tauto|].
            simpl in Hpf. exact (Dir_ne p p' Hp Hroot Hpf). }
        rewrite Hc. intros E.
        pose proof (put_file_no_exists c HW HN HS HD p' d1 typ off f _ _ _ _ E) as Hk.
        split; [|tauto]. intros (e & -> & He). contradiction.
Qed.

End Put.

(** ** find: the paths of the entries *)

Section Find.

Context {C R P : Type}.
Context `{!Remote R, !Cache C R, !Perms, !Preds P, !Sys C R}.
Variable fs : Fs.

Local Abbreviation State := (State C R).
Local Abbreviation M := (M C R).








Lemma walk_get_held els (s s1 : State) f :
  walk fs forGet ∅ els s = (Ret f, s1) → f ∈ held s1.
Proof.
  intros Hw.
  pose proof (walk_from_held fs forGet ∅ els (File "/") s _ _ Hw) as (Hh & _ & _).
  rewrite Hh. apply elem_of_app. right. constructor.
Qed.



End Find.

(** * The operations on concrete trees *)

Section Runs.

Local Abbreviation st := (Mem.state Mem.warm Mem.tree).

Local Ltac conjs := repeat match goal with |- _ ∧ _ => split end.
Local Ltac run := vm_compute; reflexivity.

Lemma run_to {A B} (x : A * B) (a : A) : x.1 = a → x = (a, x.2).
Proof. destruct x as [a' b]. simpl. intros ->. reflexivity. Qed.

Local Ltac runs := first [apply run_to; run | run].

(** The in-memory cache and permission check report no [Exists]. *)
Lemma Mem_CanWstat (wd : Dir) a nd e :
  CanWstat wd a nd = Some e → kind_of e ≠ Exists.
Proof. intros E. discriminate E. Qed.

Lemma Mem_newFile (c0 : Mem.mCache) (r : Mem.rTree) f nd e c1 r1 :
  c_newFile c0 r f nd = (Some e, c1, r1) → kind_of e ≠ Exists.
Proof.
  simpl. unfold Mem.newFile.
  destruct f as [q|]; [destruct (Mem.node c0 (File q))|];
    intros E; inversion E; discriminate.
Qed.

Lemma Mem_wstat (c0 : Mem.mCache) f nd e c1 :
  c_wstat (R := Mem.rTree) c0 f nd = (Some e, c1) → kind_of e ≠ Exists.
Proof. intros E. discriminate E. Qed.

Lemma Mem_putData (c0 : Mem.mCache) f off um e c1 :
  c_putData (R := Mem.rTree) c0 f off ([], None) um = (Some e, c1) →
  kind_of e ≠ Exists.
Proof. intros E. discriminate E. Qed.

(** C1, at [move("/a/x", "/a/b/y")]: at the call of the remote the locks of
    [/a/b] and of [/a] are held, the one of [/a/b] taken first. *)
Lemma move_lock_order_witness :
  ∃ pre post,
    log (move Mem.fs0 "/a/x" "/a/b/y" st).2
      = pre ++ EvRemoteMove "/a/x" "/a/b/y" :: post ∧
    locks_held pre = [File "/a/b"; File "/a"].
Proof.
  destruct (move_lock_order Mem.fs0 "/a/x" "/a/b/y" "/a/x" "/a/b/y" st
              (move Mem.fs0 "/a/x" "/a/b/y" st).2
              (move Mem.fs0 "/a/x" "/a/b/y" st).1
              (log (move Mem.fs0 "/a/x" "/a/b/y" st).2))
    as (pre & post & E & _ & _ & _ & H & _).
  - run.
  - run.
  - run.
  - apply surjective_pairing.
  - reflexivity.
  - apply (bool_decide_unpack _). vm_compute. exact I.
  - vm_compute. discriminate.
  - exists pre, post. split; [exact E | apply H; run].
Defined.

(** The claim C1 has [A] locked before [B] when [A] is a strict prefix of
    [B].  In [move("/a/x", "/a/b/y")] the parent [A = /a] is a strict prefix
    of the parent [B = /a/b], and at the call of the remote the two locks
    held are the one of [B], taken first, and the one of [A]. *)
Lemma move_locks_inner_parent_first :
  fpath.Dir "/a/x" = "/a" ∧ fpath.Dir "/a/b/y" = "/a/b" ∧
  zx.HasPrefix "/a/b" "/a" = true ∧
  ∃ s' i,
    move Mem.fs0 "/a/x" "/a/b/y" st = (Ret (), s') ∧
    log s' !! i = Some (EvRemoteMove "/a/x" "/a/b/y") ∧
    locks_held (take i (log s')) = [File "/a/b"; File "/a"].
Proof.
  conjs; [run..|].
  exists (move Mem.fs0 "/a/x" "/a/b/y" st).2, 22%nat.
  conjs; runs.
Qed.

(** C2, at [move("/a", "/a/b")]. *)
Lemma move_into_itself_witness :
  move Mem.fs0 "/a" "/a/b" st
    = (Fail (ErrCtx "move /a" ErrInconsistentMove), st) ∧
  kind_of (ErrCtx "move /a" ErrInconsistentMove) = BadPath.
Proof.
  apply (move_into_itself Mem.fs0 "/a" "/a/b" "/a" "/a/b" st).
  - eexists; reflexivity.
  - run.
  - run.
  - discriminate.
  - discriminate.
  - discriminate.
  - run.
Defined.

(** The claim C2 has every move of a path into itself fail with [BadPath].
    [/] is a strict prefix of [/a], and [move("/", "/a")] fails with
    [Perm]: the reserved paths are refused before the prefix is checked. *)
Lemma move_root_into_itself_is_perm :
  zx.HasPrefix "/a" "/" = true ∧
  move Mem.fs0 "/" "/a" st = (Fail (ErrCtx "move /" ErrPerm), st) ∧
  kind_of (ErrCtx "move /" ErrPerm) = Perm.
Proof. conjs; reflexivity. Qed.

(** C3, at [link("/a/x", "/a/z")]: the link is not rejected, and syncs the
    cache. *)
Lemma link_checks_witness :
  ∃ evs, log (link Mem.fs0 "/a/x" "/a/z" st).2 = EvCacheSync :: evs.
Proof.
  destruct (link_checks Mem.fs0 "/a/x" "/a/z" "/a/x" "/a/z" st) as [_ H].
  - eexists; reflexivity.
  - run.
  - run.
  - discriminate.
  - apply (H ltac:(intros [E|E]; discriminate E)
             ltac:(intros [E|E]; discriminate E)
             ltac:(run) ltac:(run)
             _ _ (surjective_pairing _)).
Defined.

(** The claim C3 has a link fail with [BadPath] when [to] is a path-prefix
    of [from].  [/] is a path-prefix of [/a], and [link("/", "/a")] fails
    with [Perm]: the reserved paths are refused before the prefix is
    checked. *)
Lemma link_of_root_is_perm :
  zx.HasPrefix "/a" "/" = true ∧
  link Mem.fs0 "/" "/a" st = (Fail (ErrCtx "link /" ErrPerm), st) ∧
  kind_of (ErrCtx "link /" ErrPerm) = Perm.
Proof. conjs; reflexivity. Qed.

(** The prefix check of [link] as it is written: it takes its arguments in
    the other order, so it refuses [link("/a/b", "/a")], where [from] is a
    path-prefix of [to], and lets [link("/a", "/a/b")] through, where [to]
    is one of [from] (the walk then fails because [/a/b] exists). *)
Lemma link_prefix_check_as_written :
  (link Mem.fs0 "/a/b" "/a" st).1 = Fail (ErrCtx "link /a" ErrInconsistentLink) ∧
  (link Mem.fs0 "/a" "/a/b" st).1 = Fail (ErrCtx "/a/b" ErrExists).
Proof. conjs; run. Qed.

(** C4: [link] resolves the path [from], not [to], before it walks [from]
    to link.  On the tree where [/a/x] exists: [link("/a/x", "/a/z")], whose
    target does not exist, is accepted and fails in the first walk with
    [NotExist], though the source exists; [link("/a/x", "/a/b")], whose
    target exists, fails in the second walk with [Exists].  In neither case
    is the link forwarded to the remote. *)
Theorem link_walks_target_twice :
  (c_walk1 (R := Mem.rTree) (cst st) (File "/a") "x" = None ∧
   (link Mem.fs0 "/a/x" "/a/z" st).1
     = Fail (ErrCtx "/a" (ErrCtx "z" ErrNotExist)) ∧
   (EvRemoteLink "/a/x" "/a/z" ∉ log (link Mem.fs0 "/a/x" "/a/z" st).2)) ∧
  ((link Mem.fs0 "/a/x" "/a/b" st).1 = Fail (ErrCtx "/a/b" ErrExists) ∧
   (EvRemoteLink "/a/x" "/a/b" ∉ log (link Mem.fs0 "/a/x" "/a/b" st).2)).
Proof.
  conjs; try run; apply (bool_decide_unpack _); vm_compute; exact I.
Qed.

(** C5: [get("/", 0, -1)] of a root that holds the files [a] and [b] sends
    [/Ctl], then [a], then [b]; with offset 1 it sends [a] and [b]; with
    count 1 it sends [/Ctl] alone.  But the entry [/Ctl] is sent from inside
    the loop over the entries of the directory: the loop over no entries
    returns at once, whatever the path, and of a root that holds nothing
    [get("/", 0, -1)] sends nothing at all. *)
Theorem get_root_listing :
  (∀ fuel p off count ctlsent (s : State Mem.mCache Mem.rTree),
     get_loop (S fuel) p [] 0 off count ctlsent s = (Ret (), s)) ∧
  Mem.sent (log (get Mem.fs0 "/" 0 zx.All (Mem.state ∅ Mem.two_files)).2)
    = ["/Ctl"; "/a"; "/b"] ∧
  Mem.sent (log (get Mem.fs0 "/" 1 zx.All (Mem.state ∅ Mem.two_files)).2)
    = ["/a"; "/b"] ∧
  Mem.sent (log (get Mem.fs0 "/" 0 1 (Mem.state ∅ Mem.two_files)).2)
    = ["/Ctl"] ∧
  (get Mem.fs0 "/" 0 zx.All (Mem.state ∅ Mem.bare)).1 = Ret () ∧
  Mem.sent (log (get Mem.fs0 "/" 0 zx.All (Mem.state ∅ Mem.bare)).2) = [].
Proof. conjs; [reflexivity | run..]. Qed.

(** C6: [wstat] of the directory [/a] with [size] in the delta fails with
    [IsDir] and changes nothing in the cache: it walks as for a put, and
    that walk refuses a directory, before the key is dropped.  Without
    [size] the same [wstat] is applied, and with [size] on the file [/a/x]
    too. *)
Theorem wstat_size_of_directory :
  dget (c_dir (R := Mem.rTree) (cst st) (File "/a")) "type" = "d" ∧
  (wstat Mem.fs0 "/a" {["size" := "10"]} st).1 = Fail (ErrCtx "/a" ErrIsDir) ∧
  cst (wstat Mem.fs0 "/a" {["size" := "10"]} st).2 = cst st ∧
  returns (wstat Mem.fs0 "/a" {["mode" := "0700"]} st).1 = true ∧
  returns (wstat Mem.fs0 "/a/x" {["size" := "10"]} st).1 = true.
Proof. conjs; [run | run | reflexivity | run | run]. Qed.

(** C7, at a fetch of the metadata of [/a] from a remote that cannot be
    reached. *)
Lemma walk_remote_failures_witness :
  getMeta Mem.fs0 (File "/a") (Mem.state Mem.warm Mem.offline)
    = (Ret None,
       stale (EvRemoteStat "/a") Mem.offline (Mem.state Mem.warm Mem.offline)).
Proof.
  destruct (walk_remote_failures Mem.fs0 (λ f _, mret f) forStat ∅
              (File "/a") "b" [] [] (Mem.state Mem.warm Mem.offline)
              Mem.ioerr Mem.offline) as [H _].
  destruct (H ltac:(reflexivity)) as [H1 _].
  destruct (H1 ltac:(run) ltac:(run)
               ltac:(run)) as [E _].
  exact E.
Defined.

(** C8, at a [put] of a directory over the file [/a/x]. *)
Lemma put_type_checks_witness :
  ∃ e, (put Mem.fs0 "/a/x" {["type" := "d"]} 0 None st).1 = Fail e ∧
       kind_of e = Exists.
Proof.
  destruct (put_type_checks Mem.fs0 "/a/x" "/a/x" {["type" := "d"]} 0 None st)
    as [_ H].
  - run.
  - discriminate.
  - discriminate.
  - exact Mem_CanWstat.
  - exact Mem_newFile.
  - exact Mem_wstat.
  - exact Mem_putData.
  - destruct (H (or_intror eq_refl)) as [_ H2].
    destruct (H2 (File "/a/x") (walk Mem.fs0 forCreat ∅ ["a"; "x"] st).2
                 ltac:(runs) ltac:(run))
      as [_ H3].
    destruct (proj2 (H3 _ _ (surjective_pairing _))) as (e & E & K).
    + split; [reflexivity | vm_compute; discriminate].
    + exists e. split; [exact E | exact K].
Defined.

(** The claim C8 has a [put] of a type that is none of the five fail with
    the bad-file-type error.  [put("/", {type: x})] fails with [IsDir]: the
    root and [/Ctl] are dealt with before the type is looked at. *)
Lemma put_root_of_bad_type_is_dir :
  put Mem.fs0 "/" {["type" := "x"]} 0 None st = (Fail (ErrCtx "/" ErrIsDir), st) ∧
  kind_of (ErrCtx "/" ErrIsDir) = IsDir.
Proof. conjs; reflexivity. Qed.


(** C10, at [/Ctl]. *)
Lemma move_link_same_path_witness :
  move Mem.fs0 "/Ctl" "/Ctl" st = (Ret (), st) ∧
  link Mem.fs0 "/Ctl" "/Ctl" st = (Ret (), st).
Proof.
  destruct (move_link_same_path Mem.fs0 "/Ctl" "/Ctl" "/Ctl" st) as [Hm Hl].
  - run.
  - run.
  - split; [apply Hm | apply Hl]; eexists; reflexivity.
Defined.

End Runs.

(** * More of the file system: locks, sends and what the requests never do *)

(** ** Rules for [keeps] *)

Section Keeps.

Context {C R P : Type}.
Context `{!Remote R, !Cache C R, !Perms, !Preds P, !Sys C R}.
Variable fs : Fs.
Variable solo : bool.

Local Abbreviation State := (State C R).
Local Abbreviation M := (M C R).

Lemma in_order_app h l1 l2 :
  in_order solo h (l1 ++ l2)
  = in_order solo h l1 && in_order solo (locks_held_from h l1) l2.
Proof.
  revert h. induction l1 as [|ev l1 IH]; intros h; [reflexivity|].
  destruct ev; simpl; rewrite ?IH, ?andb_assoc; reflexivity.
Qed.

Lemma in_order_silent h evs : Forall silent evs → in_order solo h evs = true.
Proof.
  intros F. revert h. induction F as [|ev evs Hev _ IH]; intros h; [reflexivity|].
  destruct ev; simpl in *; try contradiction; apply IH.
Qed.

Lemma su_refl hs (s : State) : orderly solo hs s s.
Proof. exists []. rewrite app_nil_r. split; reflexivity. Qed.

Lemma su_trans (s s1 s2 : State) :
  orderly solo (held s) s s1 → orderly solo (held s1) s1 s2 →
  orderly solo (held s) s s2.
Proof.
  intros (e1 & E1 & F1) (e2 & E2 & F2). exists (e1 ++ e2).
  split; [rewrite E2, E1, app_assoc; reflexivity|].
  rewrite in_order_app, F1. simpl.
  unfold held, locks_held in F2. rewrite E1, locks_held_from_app in F2. exact F2.
Qed.

Lemma su_ext hs (s s' : State) : ext silent s s' → orderly solo hs s s'.
Proof.
  intros (evs & E & F). exists evs. split; [exact E | apply in_order_silent, F].
Qed.

Lemma su_add hs (s : State) ev :
  match ev with
  | EvSend _ => hs = []
  | EvLock _ => solo = true → hs = []
  | _ => True
  end →
  orderly solo hs s (add_log ev s).
Proof.
  intros Hev. exists [ev]. split; [reflexivity|].
  destruct ev; try reflexivity; simpl.
  - destruct solo; [rewrite (Hev eq_refl)|]; reflexivity.
  - rewrite Hev. reflexivity.
Qed.

Lemma silent_lock_free ev : silent ev → lock_free ev.
Proof. destruct ev; simpl; tauto. Qed.

Lemma fetch_silent ev : fetch_event ev → silent ev.
Proof. destruct ev; simpl; tauto. Qed.

Lemma completes_weaken {A} oof (o : outcome A) : completes false o → completes oof o.
Proof. destruct o; simpl; try tauto. discriminate. Qed.

Lemma keeps_weaken {A} oof hs (m : M A) post :
  keeps solo false hs m post → keeps solo oof hs m post.
Proof.
  intros Hm s Hh o s' E. destruct (Hm s Hh o s' E) as [Hc Hp].
  split; [apply completes_weaken, Hc | exact Hp].
Qed.

Lemma keeps_impl {A} oof hs (m : M A) (post post' : outcome A → list fsFile → Prop) :
  keeps solo oof hs m post → (∀ o h, post o h → post' o h) → keeps solo oof hs m post'.
Proof.
  intros Hm Hi s Hh o s' E. destruct (Hm s Hh o s' E) as [Hc Hp].
  split; [exact Hc|]. destruct o; try exact I; destruct Hp; split; auto.
Qed.

Lemma keeps_ret {A} oof hs (a : A) (post : outcome A → list fsFile → Prop) :
  post (Ret a) hs → keeps solo oof hs (mret a : M A) post.
Proof.
  intros Hp s Hh o s' [= <- <-]. rewrite Hh.
  split; [exact I|]. split; [exact Hp | apply su_refl].
Qed.

Lemma keeps_fail {A} oof hs e (post : outcome A → list fsFile → Prop) :
  post (Fail e) hs → keeps solo oof hs (fail e : M A) post.
Proof.
  intros Hp s Hh o s' [= <- <-]. rewrite Hh.
  split; [exact I|]. split; [exact Hp | apply su_refl].
Qed.

Lemma keeps_ret_bind {A B} oof hs (a : A) (k : A → M B) post :
  keeps solo oof hs (k a) post → keeps solo oof hs (mret a ≫= k) post.
Proof. intros Hk s Hh o s' E. exact (Hk s Hh o s' E). Qed.

Lemma keeps_fail_bind {A B} oof hs e (k : A → M B)
    (post : outcome B → list fsFile → Prop) :
  post (Fail e) hs → keeps solo oof hs (fail e ≫= k) post.
Proof.
  intros Hp s Hh o s' [= <- <-]. rewrite Hh.
  split; [exact I|]. split; [exact Hp | apply su_refl].
Qed.

Lemma keeps_bind_assoc {A B D} oof hs (m : M A) (g : A → M B) (k : B → M D) post :
  keeps solo oof hs (m ≫= λ a, g a ≫= k) post → keeps solo oof hs ((m ≫= g) ≫= k) post.
Proof. intros Hm s Hh o s' E. rewrite bind_assoc in E. exact (Hm s Hh o s' E). Qed.

Lemma keeps_let {A B} oof hs (v : B) (b : B → M A) post :
  (∀ x, x = v → keeps solo oof hs (b x) post) →
  keeps solo oof hs (let x := v in b x) post.
Proof. intros Hb. exact (Hb v eq_refl). Qed.

Lemma keeps_let_bind {A B D} oof hs (v : B) (b : B → M A) (k : A → M D) post :
  (∀ x, x = v → keeps solo oof hs (b x ≫= k) post) →
  keeps solo oof hs ((let x := v in b x) ≫= k) post.
Proof. intros Hb. exact (Hb v eq_refl). Qed.

Lemma keeps_out_of_fuel {A} hs (post : outcome A → list fsFile → Prop) :
  keeps solo true hs (out_of_fuel : M A) post.
Proof. intros s Hh o s' [= <- <-]. split; [reflexivity | exact I]. Qed.

Lemma keeps_check oof hs err (post : outcome () → list fsFile → Prop) :
  post (Ret ()) hs → (∀ e, err = Some e → post (Fail e) hs) →
  keeps solo oof hs (check err : M ()) post.
Proof.
  intros H1 H2. destruct err as [e|]; [apply keeps_fail; auto | apply keeps_ret, H1].
Qed.

Lemma keeps_cerror {A} oof hs (a : A) (post : outcome A → list fsFile → Prop) :
  post (Ret a) hs → (∀ e, post (Fail e) hs) →
  keeps solo oof hs (cerror a : M A) post.
Proof.
  intros H1 H2 s Hh o s'. unfold cerror.
  destruct (cclose s); intros [= <- <-]; rewrite Hh;
    (split; [exact I|]; split; [auto | apply su_refl]).
Qed.

Lemma keeps_bind {A B} oof hs (m : M A) (k : A → M B) mid post :
  keeps solo oof hs m mid →
  (∀ a h, mid (Ret a) h → keeps solo oof h (k a) post) →
  (∀ e h, mid (Fail e) h → post (Fail e) h) →
  keeps solo oof hs (m ≫= k) post.
Proof.
  intros Hm Hk Hf s Hh o s' E. rewrite bind_unfold in E.
  destruct (m s) as [o1 s1] eqn:E1. destruct (Hm s Hh o1 s1 E1) as [Hc Hp].
  destruct o1; try (injection E as <- <-; split; [exact Hc|]; try exact I).
  - destruct Hp as [Hp Hu]. destruct (Hk a _ Hp s1 eq_refl o s' E) as [Hc2 Hp2].
    split; [exact Hc2|]. destruct o; try exact I.
    all: destruct Hp2 as [Hp2 Hu2]; split; [exact Hp2|].
    all: subst hs; eapply su_trans; eassumption.
  - destruct Hp as [Hp Hu]. split; [apply Hf, Hp | exact Hu].
Qed.

(** An operation that always returns and adds no lock, unlock or send. *)
Lemma keeps_still_end {A} oof hs (m : M A) (post : outcome A → list fsFile → Prop) :
  calm m → appends silent m →
  (∀ a, post (Ret a) hs) →
  keeps solo oof hs m post.
Proof.
  intros Hc Ha Hp s Hh o s' E.
  destruct (Hc s) as (a & s1 & E1 & H1). rewrite E1 in E. injection E as <- <-.
  split; [exact I|]. rewrite H1, Hh. split; [apply Hp|].
  apply su_ext. exact (Ha s _ _ E1).
Qed.

Lemma keeps_step {A B} oof hs hs1 (m : M A) (k : A → M B) post :
  (∀ s, held s = hs → ∃ a s1,
     m s = (Ret a, s1) ∧ held s1 = hs1 ∧ orderly solo hs s s1 ∧
     ∀ o s', k a s1 = (o, s') →
       completes oof o ∧
       match o with
       | Ret _ | Fail _ => post o (held s') ∧ orderly solo hs1 s1 s'
       | _ => True
       end) →
  keeps solo oof hs (m ≫= k) post.
Proof.
  intros Hm s Hh o s' E. rewrite bind_unfold in E.
  destruct (Hm s Hh) as (a & s1 & E1 & H1 & Hu & Hk). rewrite E1 in E.
  destruct (Hk o s' E) as [Hc Hp]. split; [exact Hc|].
  destruct o; try exact I.
  all: destruct Hp as [Hp Hu2]; split; [exact Hp|].
  all: subst hs hs1; eapply su_trans; eassumption.
Qed.

Lemma keeps_still {A B} oof hs (m : M A) (k : A → M B) post :
  calm m → appends silent m →
  (∀ a, keeps solo oof hs (k a) post) →
  keeps solo oof hs (m ≫= k) post.
Proof.
  intros Hc Ha Hk. apply keeps_step with (hs1 := hs). intros s Hh.
  destruct (Hc s) as (a & s1 & E1 & H1). exists a, s1.
  split; [exact E1|]. split; [rewrite H1; exact Hh|].
  split; [apply su_ext; exact (Ha s _ _ E1)|].
  apply Hk. rewrite H1. exact Hh.
Qed.

Lemma keeps_Lock {B} oof hs f (k : () → M B) post :
  f ∉ hs → (solo = true → hs = []) →
  keeps solo oof (hs ++ [f]) (k ()) post →
  keeps solo oof hs (Lock f ≫= k) post.
Proof.
  intros Hn Hs Hk. apply keeps_step with (hs1 := hs ++ [f]). intros s Hh.
  exists (), (add_log (EvLock f) s). rewrite <- Hh in Hn.
  split; [apply Lock_free, Hn|]. split; [rewrite held_lock, Hh; reflexivity|].
  split; [apply su_add; exact Hs|].
  apply Hk. rewrite held_lock, Hh. reflexivity.
Qed.

Lemma held_unlock_top (s : State) hs f :
  held s = hs ++ [f] → f ∉ hs → held (add_log (EvUnlock f) s) = hs.
Proof. intros Hh Hn. rewrite held_unlock, Hh. apply filter_ne_snoc, Hn. Qed.

Lemma held_top (s : State) hs f : held s = hs ++ [f] → f ∈ held s.
Proof. intros ->. apply elem_of_app. right. constructor. Qed.

Lemma keeps_Unlock {B} oof hs f (k : () → M B) post :
  f ∉ hs →
  keeps solo oof hs (k ()) post →
  keeps solo oof (hs ++ [f]) (Unlock f ≫= k) post.
Proof.
  intros Hn Hk. apply keeps_step with (hs1 := hs). intros s Hh.
  exists (), (add_log (EvUnlock f) s).
  split; [apply Unlock_held, (held_top s hs f Hh)|].
  split; [apply held_unlock_top; assumption|].
  split; [apply su_add; exact I|].
  apply Hk. apply held_unlock_top; assumption.
Qed.

Lemma keeps_Unlock_end oof hs f (post : outcome () → list fsFile → Prop) :
  f ∉ hs → post (Ret ()) hs →
  keeps solo oof (hs ++ [f]) (Unlock f : M ()) post.
Proof.
  intros Hn Hp s Hh o s' E.
  rewrite (Unlock_held f s (held_top s hs f Hh)) in E. injection E as <- <-.
  split; [exact I|]. rewrite (held_unlock_top s hs f Hh Hn).
  split; [exact Hp | apply su_add; exact I].
Qed.

Lemma locks_held_send l m : locks_held (l ++ [EvSend m]) = locks_held l.
Proof. unfold locks_held. rewrite locks_held_from_app. reflexivity. Qed.

Lemma keeps_send {B} oof m (k : bool → M B) post :
  (∀ ok, keeps solo oof [] (k ok) post) →
  keeps solo oof [] (send m ≫= k) post.
Proof.
  intros Hk. apply keeps_step with (hs1 := []). intros s Hh. unfold send.
  destruct (budget s) as [[|n]|].
  - exists false, s. split; [reflexivity|]. split; [exact Hh|].
    split; [apply su_refl|]. apply Hk, Hh.
  - eexists true, _. split; [reflexivity|].
    assert (Hh1 : held (MkState (cst s) (rst s) (log s ++ [EvSend m]) (Some n)
                          (cclose s) (clock s)) = []).
    { unfold held. simpl. rewrite locks_held_send. exact Hh. }
    split; [exact Hh1|].
    split; [exists [EvSend m]; split; reflexivity|]. apply Hk, Hh1.
  - exists true, (add_log (EvSend m) s). split; [reflexivity|].
    assert (Hh1 : held (add_log (EvSend m) s) = []).
    { unfold held. simpl. rewrite locks_held_send. exact Hh. }
    split; [exact Hh1|]. split; [apply su_add; reflexivity|]. apply Hk, Hh1.
Qed.

(** [defer f.Unlock()] around a body that leaves [f] locked on top. *)
Lemma keeps_defer_Unlock {A} oof hs f (body : M A) post :
  f ∉ hs →
  keeps solo oof (hs ++ [f]) body (λ o h, h = hs ++ [f] ∧ post o hs) →
  keeps solo oof (hs ++ [f]) (defer (Unlock f) body) post.
Proof.
  intros Hn Hb s Hh o s' E. unfold defer in E.
  destruct (body s) as [o1 s1] eqn:E1. destruct (Hb s Hh o1 s1 E1) as [Hc Hp].
  destruct o1; try (injection E as <- <-; split; [exact Hc | exact I]);
    try destruct Hc.
  all: destruct Hp as [[Hh1 Hp] Hu].
  all: rewrite (Unlock_held f s1 (held_top s1 hs f Hh1)) in E; injection E as <- <-.
  all: split; [exact I|]; rewrite (held_unlock_top s1 hs f Hh1 Hn).
  all: split; [exact Hp|].
  all: rewrite <- Hh in Hu |- *; eapply su_trans; [exact Hu|].
  all: apply su_add; exact I.
Qed.

End Keeps.

(** Proves [keeps solo oof hs m post] along the structure of [m]; what is left
    are the conditions on the locks and the [post] of each way out. *)
Ltac keeps_step :=
  lazymatch goal with
  | |- keeps _ _ _ (let _ := _ in _) _ => cbv zeta
  | |- keeps _ _ _ (mret _) _ => apply keeps_ret
  | |- keeps _ _ _ (fail _) _ => apply keeps_fail
  | |- keeps _ _ _ (check _) _ => apply keeps_check
  | |- keeps _ _ _ (cerror _) _ => apply keeps_cerror
  | |- keeps _ _ _ (walk_fail _ _) _ => unfold walk_fail
  | |- keeps _ _ _ (mbind _ (mret _)) _ => apply keeps_ret_bind
  | |- keeps _ _ _ (mbind _ (fail _)) _ => apply keeps_fail_bind
  | |- keeps _ _ _ (mbind _ (check ?e)) _ => destruct e eqn:?; unfold check
  | |- keeps _ _ _ (mbind _ (Lock _)) _ =>
      apply keeps_Lock;
        [ | first [intros _; reflexivity | discriminate | assumption | idtac] | ]
  | |- keeps _ _ (_ ++ [?f]) (mbind _ (Unlock ?f)) _ => apply keeps_Unlock
  | |- keeps _ _ [?f] (mbind _ (Unlock ?f)) _ => apply (keeps_Unlock _ _ [] f)
  | |- keeps _ _ (_ ++ [?f]) (Unlock ?f) _ => apply keeps_Unlock_end
  | |- keeps _ _ [?f] (Unlock ?f) _ => apply (keeps_Unlock_end _ _ [] f)
  | |- keeps _ _ [] (mbind _ (send _)) _ => apply keeps_send; intros ?
  | |- keeps _ _ _ (mbind _ (mbind _ _)) _ => apply keeps_bind_assoc
  | |- keeps _ _ _ (mbind _ ?m) _ =>
      first
        [ apply keeps_still; [solve [calm_tac] | solve [appends_tac] | intros ?]
        | lazymatch m with
          | (if ?b then _ else _) => destruct b eqn:?
          | (match ?x with _ => _ end) => destruct x eqn:?
          end ]
  | |- keeps _ _ _ (if ?b then _ else _) _ => destruct b eqn:?
  | |- keeps _ _ _ (match ?x with _ => _ end) _ => destruct x eqn:?
  end.

Ltac keeps_tac := repeat keeps_step.

(** ** The locks of a walk *)

Section WalkRuns.

Context {C R P : Type}.
Context `{!Remote R, !Cache C R, !Perms, !Preds P, !Sys C R}.
Variable fs : Fs.

Local Abbreviation State := (State C R).
Local Abbreviation M := (M C R).

Lemma silent_getMeta f : appends silent (getMeta fs f : M (option error)).
Proof. exact (appends_impl _ _ _ fetch_silent (appends_getMeta fs f)). Qed.

Lemma silent_getDirData f : appends silent (getDirData fs f : M (option error)).
Proof. exact (appends_impl _ _ _ fetch_silent (appends_getDirData fs f)). Qed.

Lemma silent_getData f : appends silent (getData fs f : M (option error)).
Proof. exact (appends_impl _ _ _ fetch_silent (appends_getData fs f)). Qed.

Lemma bind_if_ret {A B} (b : bool) (m : M A) (a : A) (k : A → M B) :
  ((if b then m else mret a) ≫= k) = (if b then m ≫= k else k a).
Proof. destruct b; reflexivity. Qed.

Lemma keeps_walk_from solo why nd els f hs :
  (solo = true → hs = []) →
  (∀ k, reach f (take k els) ∉ hs) →
  keeps solo false hs (walk_from fs why nd f els) (walk_left why f els hs).
Proof.
  pose proof (calm_getMeta fs) as CM. pose proof (calm_getDirData fs) as CD.
  pose proof (calm_getData fs) as CG.
  pose proof silent_getMeta as SM. pose proof silent_getDirData as SD.
  pose proof silent_getData as SG.
  intros Hsolo. revert f. induction els as [|el rest IH]; intros f Hout; rewrite walk_from_eq.
  all: pose proof (Hout 0%nat) as Hf; simpl in Hf.
  all: unfold walk_node, walk_step, walk_end.
  - keeps_tac; try assumption; try reflexivity.
    all: try (split; [reflexivity|]; split; [assumption|]; left; reflexivity).
  - keeps_tac; try assumption; try reflexivity.
    + match goal with H : _ && _ && _ = true |- _ =>
        apply andb_prop in H as [[Hw Hr]%andb_prop _] end.
      apply bool_decide_eq_true in Hw, Hr. subst rest.
      split; [reflexivity|]. split; [assumption|]. right.
      split; [exact Hw|]. split; [discriminate | reflexivity].
    + eapply keeps_impl; [apply IH; intros k; exact (Hout (S k))|].
      intros o h Ho. destruct o; try exact Ho.
      destruct Ho as (H1 & H2 & H3). split; [exact H1|]. split; [exact H2|].
      destruct H3 as [->|(Hw & Hr & ->)]; [left; reflexivity|].
      right. split; [exact Hw|]. split; [discriminate|].
      destruct rest; [congruence | reflexivity].
Qed.

(** [fs.walk]: run while the locks [hs] are held, none of them on a node of
    the path (and none at all if [solo]), the walk comes back: it neither
    blocks nor panics.  When it
    returns a node, the node is locked on top of [hs] and is the node at
    the end of the path or, walking to create, the parent of a last element
    that is missing; when it fails, the locks are [hs] again. *)
Lemma keeps_walk solo why nd els hs :
  (solo = true → hs = []) →
  (∀ k, reach (File "/") (take k els) ∉ hs) →
  keeps solo false hs (walk fs why nd els) (walk_left why (File "/") els hs).
Proof. apply keeps_walk_from. Qed.

End WalkRuns.

(** ** The requests release their locks *)

Section Requests.

Context {C R P : Type}.
Context `{!Remote R, !Cache C R, !Perms, !Preds P, !Sys C R}.
Variable fs : Fs.

Local Abbreviation State := (State C R).
Local Abbreviation M := (M C R).

Lemma keeps_walk_bind {B} solo oof why nd els hs (k : fsFile → M B) post :
  (solo = true → hs = []) →
  (∀ i, reach (File "/") (take i els) ∉ hs) →
  (∀ g, walk_left why (File "/") els hs (Ret g) (hs ++ [g]) →
        keeps solo oof (hs ++ [g]) (k g) post) →
  (∀ e, post (Fail e) hs) →
  keeps solo oof hs (walk fs why nd els ≫= k) post.
Proof.
  intros Hs Hout Hk Hf.
  apply keeps_bind with (mid := walk_left why (File "/") els hs).
  - apply keeps_weaken, keeps_walk; [exact Hs | exact Hout].
  - intros g h Hg. pose proof Hg as (-> & _). apply Hk, Hg.
  - intros e h ->. apply Hf.
Qed.

Lemma calm_f_remove f all : calm (f_remove f all : M (option error)).
Proof.
  apply calm_quiet. intros s. unfold f_remove.
  destruct (c_remove _ _ _); eauto.
Qed.

Lemma appends_f_remove Q f all : appends Q (f_remove f all : M (option error)).
Proof.
  apply appends_quiet. intros s. unfold f_remove.
  destruct (c_remove _ _ _); reflexivity.
Qed.

Lemma calm_sync_now f : calm ((if wsync fs then f_sync f else needSync) : M ()).
Proof. unfold needSync. calm_tac. Qed.

Lemma silent_sync_now f :
  appends silent ((if wsync fs then f_sync f else needSync) : M ()).
Proof. unfold needSync. appends_tac. Qed.

End Requests.

Ltac keeps_op_step :=
  lazymatch goal with
  | |- keeps _ _ [] (mbind _ (walk _ _ _ _)) _ =>
      apply keeps_walk_bind;
      [intros _; reflexivity | intros ?; apply not_elem_of_nil | intros ? (_ & _ & ?); simpl app | intros ?]
  | |- keeps _ _ [?f] (defer (Unlock ?f) _) _ =>
      apply (keeps_defer_Unlock _ _ [] f)
  | |- keeps _ _ (_ ++ [?f]) (defer (Unlock ?f) _) _ =>
      apply keeps_defer_Unlock
  | |- keeps _ _ _ _ _ => keeps_step
  end.

Ltac keeps_op := repeat keeps_op_step.

(** The same, with every [let] made a variable that comes with its
    equation. *)
Ltac keeps_let_step :=
  lazymatch goal with
  | |- keeps ?so ?o ?h (let x := ?v in @?b x) ?post =>
      let y := fresh x in
      let Hy := fresh "E" y in
      refine (keeps_let so o h v b post _); intros y Hy; cbv beta
  | |- keeps ?so ?o ?h (mbind ?k (let x := ?v in @?b x)) ?post =>
      let y := fresh x in
      let Hy := fresh "E" y in
      refine (keeps_let_bind so o h v b k post _); intros y Hy; cbv beta
  | |- keeps _ _ _ _ _ => keeps_op_step
  end.

Ltac keeps_lets := repeat keeps_let_step.

Section Released.

Context {C R P : Type}.
Context `{!Remote R, !Cache C R, !Perms, !Preds P, !Sys C R}.
Variable fs : Fs.

Local Abbreviation State := (State C R).
Local Abbreviation M := (M C R).

Lemma keeps_stat p : keeps true false [] (stat fs p : M Dir) released.
Proof. unfold stat. keeps_op; try reflexivity; apply not_elem_of_nil. Qed.

Lemma keeps_wstat p nd : keeps true false [] (wstat fs p nd : M Dir) released.
Proof.
  pose proof (calm_sync_now fs) as CS. pose proof (silent_sync_now fs) as SS.
  unfold wstat. keeps_op; try reflexivity; try apply not_elem_of_nil.
Qed.

Lemma keeps_remove p all : keeps true false [] (remove fs p all : M ()) released.
Proof.
  pose proof (calm_sync_now fs) as CS. pose proof (silent_sync_now fs) as SS.
  pose proof calm_f_remove as CR. pose proof (appends_f_remove silent) as SR.
  unfold remove. keeps_op; try reflexivity; try apply not_elem_of_nil.
Qed.

Lemma keeps_link to from : keeps true false [] (link fs to from : M ()) released.
Proof.
  pose proof (calm_getDirData fs) as CD. pose proof (silent_getDirData fs) as SD.
  unfold link. keeps_op; try reflexivity; try apply not_elem_of_nil.
  all: split; reflexivity.
Qed.

(** A node on the way to a path does not compare greater than the path. *)
Lemma on_path_compare (a b : list string) i :
  Forall PathFacts.elem b → a = take i b →
  String.compare (fpath.of_els a) (fpath.of_els b) ≠ Gt.
Proof.
  intros Hb ->. rewrite <- (take_drop i b) at 2.
  destruct (drop i b) as [|x r] eqn:Ed.
  - rewrite app_nil_r, PathLemmas.compare_refl_s. discriminate.
  - rewrite PathLemmas.compare_below; [discriminate | | discriminate].
    rewrite <- Ed. apply Forall_drop, Hb.
Qed.

(** The walk to the parent of [q] does not meet the parent of [p] when this
    one compares greater. *)
Lemma parent_off_path p0 p q0 q i :
  zx.UseAbsPath p0 = inr p → zx.UseAbsPath q0 = inr q →
  String.compare (fpath.Dir p) (fpath.Dir q) = Gt →
  reach (File "/") (take i (removelast (zx.Elems q))) ∉ [File (fpath.Dir p)].
Proof.
  intros Hp Hq Hc Hin.
  apply elem_of_cons in Hin as [Hin|Hin]; [|inversion Hin].
  destruct (PathLemmas.UseAbsPath_canon _ _ Hp) as [Ap Cp].
  destruct (PathLemmas.UseAbsPath_canon _ _ Hq) as [Aq Cq].
  pose proof (PathLemmas.removelast_elem _ Ap) as Rp.
  pose proof (PathLemmas.removelast_elem _ Aq) as Rq.
  rewrite PathLemmas.reach_root in Hin by (apply Forall_take, Rq).
  rewrite Cp in Hin at 1. rewrite PathLemmas.Dir_of_els in Hin by exact Ap.
  apply (f_equal path_of) in Hin.
  change (fpath.of_els (take i (removelast (zx.Elems q)))
          = fpath.of_els (removelast (zx.Elems p))) in Hin.
  apply of_els_inj in Hin; [|apply Forall_take, Rq | exact Rp].
  rewrite Cp in Hc at 1. rewrite Cq in Hc at 1.
  rewrite !PathLemmas.Dir_of_els in Hc by assumption.
  exact (on_path_compare _ _ i Rq (eq_sym Hin) Hc).
Qed.

Lemma but_last_eq (els : list string) :
  els ≠ [] → (but_last els : M (list string)) = mret (removelast els).
Proof. destruct els; [congruence | reflexivity]. Qed.

Lemma Elems_nonempty p0 p : zx.UseAbsPath p0 = inr p → p ≠ "/" → zx.Elems p ≠ [].
Proof.
  intros Hp Hne He. destruct (PathLemmas.UseAbsPath_canon _ _ Hp) as [_ Cp].
  rewrite He in Cp. contradiction.
Qed.

Lemma keeps_parent {B} p0 p hs (k : fsFile → M B) post :
  zx.UseAbsPath p0 = inr p → p ≠ "/" →
  (∀ i, reach (File "/") (take i (removelast (zx.Elems p))) ∉ hs) →
  keeps false false (hs ++ [File (fpath.Dir p)]) (k (File (fpath.Dir p))) post →
  (∀ e, post (Fail e) hs) →
  keeps false false hs
    (els ← but_last (zx.Elems p); f ← walk fs forStat ∅ els; k f) post.
Proof.
  intros Hp Hne Hout Hk Hf.
  rewrite (but_last_eq _ (Elems_nonempty p0 p Hp Hne)).
  apply keeps_ret_bind.
  apply keeps_walk_bind; [discriminate | exact Hout | | exact Hf].
  intros g (_ & _ & [Hg|(Hw & _)]); [|destruct (forStat_not_creat Hw)].
  rewrite (parent_node p0 p Hp) in Hg. subst g. exact Hk.
Qed.

Lemma keeps_move from to : keeps false false [] (move fs from to : M ()) released.
Proof.
  unfold move.
  destruct r_move as [rfs_Move|]; [|keeps_op; reflexivity].
  destruct (zx.UseAbsPath from) as [e|from'] eqn:Hf; [keeps_op; reflexivity|].
  destruct (zx.UseAbsPath to) as [e|to'] eqn:Ht; [keeps_op; reflexivity|].
  destruct (decide (from' = to')); [keeps_op; reflexivity|].
  destruct (decide (from' = "/Ctl" ∨ from' = "/")); [keeps_op; reflexivity|].
  destruct (decide (to' = "/Ctl" ∨ to' = "/")); [keeps_op; reflexivity|].
  destruct (inconsistentMove from' to'); [keeps_op; reflexivity|].
  assert (Hfr : from' ≠ "/") by tauto. assert (Htr : to' ≠ "/") by tauto.
  keeps_op; try reflexivity; try apply not_elem_of_nil.
  all: match goal with H : String.compare _ _ = _ |- _ => rename H into Hc end.
  - apply (keeps_parent from from'); [exact Hf | exact Hfr | | | reflexivity].
    { intros i. apply not_elem_of_nil. }
    keeps_op; try apply not_elem_of_nil; intros; split; reflexivity.
  - apply (keeps_parent to to'); [exact Ht | exact Htr | | | reflexivity].
    { intros i. apply not_elem_of_nil. }
    apply (keeps_defer_Unlock _ _ [] _); [apply not_elem_of_nil|].
    apply (keeps_parent from from'); [exact Hf | exact Hfr | | | split; reflexivity].
    { intros i. apply (parent_off_path to to' from from' i Ht Hf).
      rewrite String.compare_antisym, Hc. reflexivity. }
    apply keeps_defer_Unlock.
    { intros Hin. apply elem_of_cons in Hin as [Hin|Hin]; [|inversion Hin].
      injection Hin as Hin. rewrite Hin, PathLemmas.compare_refl_s in Hc.
      discriminate. }
    keeps_op; intros; (split; [reflexivity|]; split; reflexivity).
  - apply (keeps_parent from from'); [exact Hf | exact Hfr | | | reflexivity].
    { intros i. apply not_elem_of_nil. }
    apply (keeps_defer_Unlock _ _ [] _); [apply not_elem_of_nil|].
    apply (keeps_parent to to'); [exact Ht | exact Htr | | | split; reflexivity].
    { intros i. apply (parent_off_path from from' to to' i Hf Ht Hc). }
    apply keeps_defer_Unlock.
    { intros Hin. apply elem_of_cons in Hin as [Hin|Hin]; [|inversion Hin].
      injection Hin as Hin. rewrite Hin, PathLemmas.compare_refl_s in Hc.
      discriminate. }
    keeps_op; intros; (split; [reflexivity|]; split; reflexivity).
Qed.

Lemma calm_putData f off c um :
  calm ((λ s, let '(err, c0) := c_putData (cst s) f off c um in
              (Ret err, set_cst c0 s)) : M (option error)).
Proof. apply calm_quiet. intros s. destruct (c_putData _ _ _ _ _); eauto. Qed.

Lemma silent_putData f off c um :
  appends silent ((λ s, let '(err, c0) := c_putData (cst s) f off c um in
                        (Ret err, set_cst c0 s)) : M (option error)).
Proof. apply appends_quiet. intros s. destruct (c_putData _ _ _ _ _); reflexivity. Qed.

Lemma keeps_put_file p d typ off c f wd :
  p ≠ "" → keeps true false [f] (put_file fs p d typ off c f wd : M Dir) released.
Proof.
  pose proof (calm_sync_now fs) as CS. pose proof (silent_sync_now fs) as SS.
  pose proof calm_putData as CP. pose proof silent_putData as SP.
  intros Hp. cbv beta delta [put_file f_putData].
  destruct (decide (dget wd "path" ≠ p)) as [Hnew|Hold]; cbv iota.
  - do 5 keeps_let_step.
    assert (Hwd : dget wd0 "path" ≠ p).
    { subst wd0. unfold dget. rewrite !lookup_insert_ne by discriminate.
      rewrite lookup_empty. simpl. congruence. }
    destruct (decide (dget wd0 "path" ≠ p)) as [_|Hc]; [|contradiction].
    rewrite (bool_decide_eq_true_2 _ Hwd).
    keeps_lets; try reflexivity; try apply not_elem_of_nil.
  - do 5 keeps_let_step. subst wd0.
    destruct (decide (dget wd "path" ≠ p)) as [Hc|_]; [contradiction|].
    rewrite (bool_decide_eq_false_2 _ Hold).
    keeps_lets; try reflexivity; try apply not_elem_of_nil.
    all: try match goal with H : false && _ = true |- _ => discriminate H end.
Qed.

Lemma calm_flags_Ctl ctl :
  calm ((λ s, let '(err, c, r) := flags_Ctl ctl (cst s) (rst s) in
              (Ret err, set_rst r (set_cst c s))) : M (option error)).
Proof.
  apply calm_quiet. intros s. destruct (flags_Ctl _ _ _) as [[? ?] ?]; eauto.
Qed.

Lemma silent_flags_Ctl ctl :
  appends silent ((λ s, let '(err, c, r) := flags_Ctl ctl (cst s) (rst s) in
                        (Ret err, set_rst r (set_cst c s))) : M (option error)).
Proof.
  apply appends_quiet. intros s. destruct (flags_Ctl _ _ _) as [[? ?] ?]; reflexivity.
Qed.

Lemma keeps_putCtl st : keeps true false [] (putCtl (Some st) : M ()) released.
Proof.
  pose proof calm_flags_Ctl as CF. pose proof silent_flags_Ctl as SF.
  unfold putCtl. destruct st as [chunks cerr].
  keeps_op; try reflexivity.
Qed.

Lemma canon_nonempty p0 p : zx.UseAbsPath p0 = inr p → p ≠ "".
Proof.
  intros [_ Cp]%PathLemmas.UseAbsPath_canon. rewrite Cp. discriminate.
Qed.

Lemma keeps_put p d off c :
  (zx.UseAbsPath p = inr "/Ctl" → c ≠ None) →
  keeps true false [] (put fs p d off c : M Dir) released.
Proof.
  intros Hc. unfold put.
  destruct (zx.UseAbsPath p) as [e|p'] eqn:Hp; [keeps_op; reflexivity|].
  pose proof (canon_nonempty p p' Hp) as Hne.
  destruct (decide (p' = "/")); [keeps_op; reflexivity|].
  destruct (decide (p' = "/Ctl")) as [->|Hctl].
  { destruct c as [st|]; [|destruct (Hc eq_refl eq_refl)].
    apply keeps_bind with (mid := released).
    - apply keeps_putCtl.
    - intros [] h ->. keeps_op. reflexivity.
    - intros e h ->. reflexivity. }
  repeat first [apply keeps_put_file; exact Hne | keeps_let_step];
    try reflexivity; try apply not_elem_of_nil.
Qed.

Lemma calm_getData_raw f off count :
  calm ((λ s, (Ret (c_getData (cst s) f off count), s)) : M instream).
Proof. apply calm_quiet. intros s. eauto. Qed.

Lemma silent_getData_raw f off count :
  appends silent ((λ s, (Ret (c_getData (cst s) f off count), s)) : M instream).
Proof. apply appends_quiet. reflexivity. Qed.

Lemma keeps_f_getData f off count :
  keeps true false [f] (f_getData f off count : M ()) released.
Proof.
  pose proof calm_getData_raw as CG. pose proof silent_getData_raw as SG.
  unfold f_getData. keeps_op; [apply not_elem_of_nil|].
  match goal with H : _ = (_, _) |- _ => clear H end.
  match goal with |- keeps _ _ _ (_ ?l) _ => induction l as [|b l IH] end.
  - keeps_op; reflexivity.
  - keeps_op; try reflexivity. exact IH.
Qed.

(** What is left of the loop of [get]: the entries from [i] on, and [/Ctl]
    if it is still to be sent. *)
Lemma keeps_get_loop fuel p ds i off count ctlsent :
  (length ds - i + (if negb ctlsent && bool_decide (p = "/") then 1 else 0)
   < fuel)%nat →
  keeps true false [] (get_loop fuel p ds i off count ctlsent : M ()) released.
Proof.
  revert ds i off count ctlsent.
  induction fuel as [|fuel IH]; intros ds i off count ctlsent Hm; [lia|].
  simpl get_loop.
  destruct (bool_decide (i < length ds)%nat) eqn:Hi; simpl negb; cbv iota;
    [|keeps_op; reflexivity].
  apply bool_decide_eq_true in Hi.
  destruct (bool_decide (off > 0)).
  { destruct (negb ctlsent && bool_decide (p = "/")) eqn:Hc.
    - apply IH. simpl. lia.
    - apply IH. rewrite Hc. lia. }
  destruct (bool_decide (count = 0)); [keeps_op; reflexivity|].
  cbv zeta.
  destruct (negb ctlsent && bool_decide (p = "/")) eqn:Hc.
  { keeps_op; try reflexivity. apply IH. simpl. lia. }
  destruct (ds !! i) as [d|] eqn:Hd.
  2:{ apply lookup_ge_None in Hd. lia. }
  destruct (bool_decide (dget d "name" = ".zx")
            || bool_decide (dget d "name" = ".#zx")).
  - destruct (bool_decide (i = length ds - 1)%nat); [keeps_op; reflexivity|].
    apply IH. rewrite Hc, length_delete by (rewrite Hd; eauto). lia.
  - keeps_op; try reflexivity. apply IH. rewrite Hc. lia.
Qed.

Lemma keeps_getCtl off count :
  0 ≤ off → keeps true false [] (getCtl fs off count : M ()) released.
Proof.
  intros Hoff. unfold getCtl.
  apply keeps_still; [calm_tac | appends_tac |]. intros [chunks err].
  cbv zeta.
  match goal with |- keeps _ _ _ (if bool_decide (?o < 0) then _ else _) _ =>
    assert (Ho : ¬ o < 0) by (destruct (bool_decide (off >= _)); lia);
    rewrite (bool_decide_eq_false_2 _ Ho) end.
  keeps_op; reflexivity.
Qed.

Lemma keeps_get p off count :
  (zx.UseAbsPath p = inr "/Ctl" → 0 ≤ off) →
  keeps true false [] (get fs p off count : M ()) released.
Proof.
  intros Hoff. unfold get.
  destruct (zx.UseAbsPath p) as [e|p'] eqn:Hp; [keeps_op; reflexivity|].
  destruct (decide (p' = "/Ctl")) as [->|Hctl].
  { apply keeps_getCtl, Hoff. reflexivity. }
  repeat first [apply keeps_f_getData | apply keeps_get_loop | keeps_op_step];
    try reflexivity; try apply not_elem_of_nil.
  destruct (negb false && _); lia.
Qed.

Lemma keeps_findr_children rec f spref dpref ds err :
  (∀ cf cd cp, keeps true true [cf] (rec cf cd cp : M ()) released) →
  keeps true true [] (findr_children fs rec f spref dpref ds err : M ()) released.
Proof.
  pose proof (calm_getDirData fs) as CD. pose proof (silent_getDirData fs) as SD.
  intros Hrec. revert err. induction ds as [|cd ds IH]; intros err; simpl.
  - keeps_op. reflexivity.
  - repeat first [apply IH | keeps_op_step];
      try reflexivity; try apply not_elem_of_nil.
    all: apply keeps_bind with (mid := released);
      [apply Hrec | intros [] h ->; apply IH | intros e' h ->; reflexivity].
Qed.

Lemma keeps_findr fuel fp spref dpref lvl f d p :
  keeps true true [f] (findr fs fuel fp spref dpref lvl f d p : M ()) released.
Proof.
  revert lvl f d p. induction fuel as [|fuel IH]; intros lvl f d p; simpl.
  { apply keeps_out_of_fuel. }
  destruct (EvalAt fp d lvl) as [[matched pruned] err].
  repeat first [apply keeps_findr_children; intros; apply IH | keeps_op_step];
    try reflexivity; try apply not_elem_of_nil.
Qed.

Lemma keeps_find fuel p fpred spref dpref depth :
  keeps true true [] (find fs fuel p fpred spref dpref depth : M ()) released.
Proof.
  unfold find.
  repeat first [apply keeps_findr | keeps_op_step];
    try reflexivity; try apply not_elem_of_nil.
Qed.

End Released.

(** ** get: what a listing sends *)

Section Listing.

Context {C R P : Type}.
Context `{!Remote R, !Cache C R, !Perms, !Preds P, !Sys C R}.
Variable fs : Fs.

Local Abbreviation State := (State C R).
Local Abbreviation M := (M C R).

Lemma sent_dirs_app l1 l2 : sent_dirs (l1 ++ l2) = sent_dirs l1 ++ sent_dirs l2.
Proof. apply omap_app. Qed.

Lemma sent_dirs_entries ds : sent_dirs ((λ d, EvSend (MDir d)) <$> ds) = ds.
Proof. induction ds as [|d ds IH]; [reflexivity|]. simpl. f_equal. exact IH. Qed.

Lemma sent_dirs_none evs : Forall no_entry evs → sent_dirs evs = [].
Proof.
  induction 1 as [|ev evs Hev _ IH]; [reflexivity|].
  destruct ev as [| | | | | | | | | | |[d|b]]; simpl in *; try exact IH.
  contradiction.
Qed.

Lemma walk_no_entry ev : walk_event ev → no_entry ev.
Proof. destruct ev as [| | | | | | | | | | |[d|b]]; simpl; tauto. Qed.

Lemma send_cases m (s : State) :
  send m s = (Ret false, s) ∨
  ∃ s1, send m s = (Ret true, s1) ∧ log s1 = log s ++ [EvSend m].
Proof.
  unfold send. destruct (budget s) as [[|n]|]; [left; reflexivity | right ..];
    eexists; split; reflexivity.
Qed.

Lemma hidden_ctldir : hidden ctldir = false.
Proof. reflexivity. Qed.

Lemma wrap64_dec count : 1 ≤ count < 2 ^ 63 → wrap64 (count - 1) = count - 1.
Proof. intros Hc. unfold wrap64. rewrite Z.mod_small; lia. Qed.

Lemma drop_delete_at {A} (l : list A) i :
  (i < length l)%nat → drop i (delete i l) = drop (S i) l.
Proof.
  intros Hi. rewrite delete_take_drop, drop_app_length'; [reflexivity|].
  rewrite length_take. lia.
Qed.

(** The entries the loop of [get] may still send: [/Ctl] if it is still to
    be sent, then the entries from [i] on that are not hidden. *)
Lemma get_loop_listing fuel p ds i off count ctlsent (s : State) o s' :
  (length ds - i + (if negb ctlsent && bool_decide (p = "/") then 1 else 0)
   < fuel)%nat →
  get_loop fuel p ds i off count ctlsent s = (o, s') →
  completes false o ∧
  ∃ sent, log s' = log s ++ ((λ d, EvSend (MDir d)) <$> sent) ∧
    sent `sublist_of`
      ((if negb ctlsent && bool_decide (p = "/") then [ctldir] else [])
       ++ filter (λ d, hidden d = false) (drop i ds)) ∧
    (0 ≤ count < 2 ^ 63 → (length sent ≤ Z.to_nat count)%nat).
Proof.
  revert ds i off count ctlsent s o s'.
  induction fuel as [|fuel IH]; intros ds i off count ctlsent s o s' Hm; [lia|].
  assert (Hnil : ∀ (l : list Dir),
    ∃ sent, log s = log s ++ ((λ d, EvSend (MDir d)) <$> sent) ∧
      sent `sublist_of` l ∧
      (0 ≤ count < 2 ^ 63 → (length sent ≤ Z.to_nat count)%nat)).
  { intros l. exists []. rewrite app_nil_r.
    split; [reflexivity|]. split; [apply sublist_nil_l | simpl; lia]. }
  simpl get_loop.
  destruct (bool_decide (i < length ds)%nat) eqn:Hi; simpl negb; cbv iota.
  2:{ intros [= <- <-]. split; [exact I | apply Hnil]. }
  apply bool_decide_eq_true in Hi.
  destruct (lookup_lt_is_Some_2 ds i Hi) as [d Hd].
  rewrite (drop_S ds d i Hd).
  destruct (bool_decide (off > 0)).
  { destruct (negb ctlsent && bool_decide (p = "/")) eqn:Hc.
    - intros E. apply IH in E; [|simpl; lia].
      destruct E as (Ho & sent & El & Hs & Hn). split; [exact Ho|].
      exists sent. split; [exact El|]. split; [|exact Hn].
      simpl in Hs. rewrite (drop_S ds d i Hd) in Hs.
      apply sublist_cons, Hs.
    - intros E. apply IH in E; [|rewrite Hc; lia].
      destruct E as (Ho & sent & El & Hs & Hn). split; [exact Ho|].
      exists sent. split; [exact El|]. split; [|exact Hn].
      rewrite Hc in Hs. simpl in Hs |- *. rewrite filter_cons.
      destruct (decide (hidden d = false)); [apply sublist_cons|]; exact Hs. }
  destruct (bool_decide (count = 0)) eqn:Hz.
  { intros [= <- <-]. split; [exact I | apply Hnil]. }
  apply bool_decide_eq_false in Hz.
  cbv zeta.
  set (count' := if bool_decide (count = zx.All) then count
                 else wrap64 (count - 1)).
  assert (Hcount : 0 ≤ count < 2 ^ 63 →
            0 ≤ count' < 2 ^ 63 ∧ Z.to_nat count = S (Z.to_nat count')).
  { intros Hr. unfold count'. rewrite bool_decide_eq_false_2
      by (unfold zx.All; lia).
    rewrite wrap64_dec by lia. lia. }
  clearbody count'.
  assert (Hsend : ∀ (x : Dir) (l : list Dir) i' b,
    (length ds - i' + (if negb b && bool_decide (p = "/") then 1 else 0)
     < fuel)%nat →
    (∀ sent, sent `sublist_of`
        ((if negb b && bool_decide (p = "/") then [ctldir] else [])
         ++ filter (λ d, hidden d = false) (drop i' ds)) →
      x :: sent `sublist_of` l) →
    (send (MDir x) ≫= λ ok : bool,
       if negb ok then cerror () else get_loop fuel p ds i' off count' b) s
      = (o, s') →
    completes false o ∧
    ∃ sent, log s' = log s ++ ((λ d, EvSend (MDir d)) <$> sent) ∧
      sent `sublist_of` l ∧
      (0 ≤ count < 2 ^ 63 → (length sent ≤ Z.to_nat count)%nat)).
  { intros x l i' b Hm' Hl E. rewrite bind_unfold in E.
    destruct (send_cases (MDir x) s) as [Es|(s1 & Es & El1)]; rewrite Es in E.
    - simpl in E. unfold cerror in E.
      destruct (cclose s); injection E as <- <-; (split; [exact I | apply Hnil]).
    - simpl in E. apply IH in E; [|exact Hm'].
      destruct E as (Ho & sent & El & Hs & Hn). split; [exact Ho|].
      exists (x :: sent). split; [|split].
      + rewrite El, El1, <- app_assoc. reflexivity.
      + apply Hl, Hs.
      + intros Hr. destruct (Hcount Hr) as [Hr' ->]. simpl.
        specialize (Hn Hr'). lia. }
  destruct (negb ctlsent && bool_decide (p = "/")) eqn:Hc.
  { apply (Hsend ctldir _ i true); [simpl; lia|].
    intros sent Hs. simpl in Hs |- *. rewrite (drop_S ds d i Hd) in Hs.
    apply sublist_skip, Hs. }
  rewrite Hd.
  destruct (bool_decide (dget d "name" = ".zx")
            || bool_decide (dget d "name" = ".#zx")) eqn:Hh.
  - destruct (bool_decide (i = length ds - 1)%nat).
    { intros [= <- <-]. split; [exact I | apply Hnil]. }
    intros E. apply IH in E; [|rewrite Hc, length_delete by (rewrite Hd; eauto); lia].
    destruct E as (Ho & sent & El & Hs & Hn). split; [exact Ho|].
    exists sent. split; [exact El|]. split.
    + rewrite Hc, drop_delete_at in Hs by exact Hi. simpl in Hs |- *.
      rewrite filter_cons_False; [exact Hs|]. unfold hidden. rewrite Hh. discriminate.
    + intros Hr. destruct (Hcount Hr) as [Hr' ->]. specialize (Hn Hr'). lia.
  - apply (Hsend d _ (S i) ctlsent); [rewrite Hc; lia|].
    intros sent Hs. rewrite Hc in Hs. simpl in Hs |- *.
    rewrite filter_cons_True by (unfold hidden; rewrite Hh; reflexivity).
    apply sublist_skip, Hs.
Qed.

Lemma appends_sendall Q err chunks :
  (∀ m, Q (EvSend m)) →
  appends Q ((fix sendall (chunks : list string) : M () :=
                match chunks with
                | [] => check err
                | b :: chunks =>
                    ok ← send (MBytes b);
                    if negb ok then cerror () else sendall chunks
                end) chunks).
Proof. intros HQ. induction chunks as [|b l IH]; appends_tac. Qed.

Lemma appends_f_getData f off count :
  appends no_entry (f_getData f off count : M ()).
Proof.
  unfold f_getData. apply appends_bind; [appends_tac|]. intros _.
  apply appends_bind; [apply appends_quiet; reflexivity|]. intros [chunks err].
  induction chunks as [|b l IH]; appends_tac.
Qed.

Lemma appends_getCtl off count : appends no_entry (getCtl fs off count : M ()).
Proof. unfold getCtl. cbv zeta. appends_tac. Qed.

Lemma listed_refl count (s : State) : listed count s s.
Proof.
  exists []. rewrite app_nil_r. split; [reflexivity|].
  split; [constructor | simpl; lia].
Qed.

Lemma listed_ext count (s s1 : State) : ext no_entry s s1 → listed count s s1.
Proof.
  intros (evs & E & F). exists evs. rewrite (sent_dirs_none evs F).
  split; [exact E|]. split; [constructor | simpl; lia].
Qed.

Lemma listed_pre count (s s1 s2 : State) :
  ext no_entry s s1 → listed count s1 s2 → listed count s s2.
Proof.
  intros (e1 & E1 & F1) (e2 & E2 & Hv & Hn). exists (e1 ++ e2).
  rewrite sent_dirs_app, (sent_dirs_none e1 F1). simpl.
  split; [rewrite E2, E1, app_assoc; reflexivity|]. split; assumption.
Qed.

Lemma wp_listed_bind {A B} count (m : M A) (k : A → M B) (s : State) :
  appends no_entry m →
  (∀ a s1, wp (k a) s1 (λ _ s', listed count s1 s')) →
  wp (m ≫= k) s (λ _ s', listed count s s').
Proof.
  intros Hm Hk. apply wp_bind. intros o s1 E. pose proof (Hm s o s1 E) as Hext.
  destruct o; try (apply listed_ext, Hext).
  eapply wp_mono; [apply Hk|]. intros o' s' Hl. eapply listed_pre; eassumption.
Qed.

Lemma wp_listed_end {A} count (m : M A) (s : State) :
  appends no_entry m → wp m s (λ _ s', listed count s s').
Proof. intros Hm o s' E. apply listed_ext. exact (Hm s o s' E). Qed.

Lemma get_loop_listed p ds off count (s : State) :
  wp (get_loop (length ds + 2) p ds 0 off count false) s
     (λ _ s', listed count s s').
Proof.
  intros o s' E. apply get_loop_listing in E.
  2:{ destruct (negb false && _); lia. }
  destruct E as (_ & sent & El & Hs & Hn).
  exists ((λ d, EvSend (MDir d)) <$> sent). rewrite sent_dirs_entries.
  split; [exact El|]. split; [|exact Hn].
  eapply Forall_impl with (P := λ d, d ∈ sent); [apply Forall_forall; auto|].
  intros d Hd. eapply elem_of_sublist in Hd; [|exact Hs].
  apply elem_of_app in Hd as [Hd|Hd].
  - destruct (negb false && _); [|inversion Hd].
    apply elem_of_cons in Hd as [->|Hd]; [apply hidden_ctldir | inversion Hd].
  - apply list_elem_of_filter in Hd as [Hd _]. exact Hd.
Qed.

End Listing.
(** ** The properties *)

Section Discipline.

Context {C R P : Type}.
Context `{!Remote R, !Cache C R, !Perms, !Preds P, !Sys C R}.
Variable fs : Fs.

Local Abbreviation State := (State C R).
Local Abbreviation M := (M C R).

Lemma keeps_back {A} solo (m : M A) (s : State) o s' :
  keeps solo false [] m released → held s = [] → m s = (o, s') →
  back_unlocked o s' ∧ orderly solo [] s s'.
Proof.
  intros Hm Hh E. destruct (Hm s Hh o s' E) as [Hc Hp].
  destruct o; simpl in Hc; try contradiction; try discriminate; exact Hp.
Qed.

Lemma keeps_back_fuel {A} solo (m : M A) (s : State) o s' :
  keeps solo true [] m released → held s = [] → m s = (o, s') →
  o = OutOfFuel ∨ (back_unlocked o s' ∧ orderly solo [] s s').
Proof.
  intros Hm Hh E. destruct (Hm s Hh o s' E) as [Hc Hp].
  destruct o; simpl in Hc; try contradiction; try (right; exact Hp).
  left. reflexivity.
Qed.

(** X1: [walk] (lines 306-437): run while none of the locks the request holds
    is on a node of the path, a walk neither blocks nor panics.  If the
    walk works the node is returned locked, on top of the locks held
    before, and it is the node at the end of the path or, walking to
    create or to link, the parent of a last element that does not exist; if
    the walk fails, it leaves the locks held before and no other. *)
Theorem walk_returns_locked why nd els (s : State) o s' :
  (∀ i, reach (File "/") (take i els) ∉ held s) →
  walk fs why nd els s = (o, s') →
  match o with
  | Ret g =>
      held s' = held s ++ [g] ∧
      (g = reach (File "/") els ∨
       (why ∈ [forCreat; forCreatAll; forLink] ∧ els ≠ [] ∧
        g = reach (File "/") (removelast els)))
  | Fail _ => held s' = held s
  | _ => False
  end.
Proof.
  intros Hout E.
  assert (Hs : false = true → held s = []) by discriminate.
  destruct (keeps_walk fs false why nd els (held s) Hs Hout s eq_refl o s' E)
    as [Hc Hp].
  destruct o; simpl in Hc; try contradiction; try discriminate;
    destruct Hp as [Hp _].
  - destruct Hp as (H1 & _ & H3). split; assumption.
  - exact Hp.
Qed.

(** X2: [stat], [wstat], [remove] and [link]: run while the request holds no
    lock, each of them comes back (it neither blocks nor panics), with or
    without an error, and holds no lock then; and on its way it took every
    lock while it held no other: the walk unlocks a directory before it
    locks the child. *)
Theorem requests_release_locks (s : State) :
  held s = [] →
  (∀ p o s', stat fs p s = (o, s') →
     back_unlocked o s' ∧ orderly true [] s s') ∧
  (∀ p nd o s', wstat fs p nd s = (o, s') →
     back_unlocked o s' ∧ orderly true [] s s') ∧
  (∀ p all o s', remove fs p all s = (o, s') →
     back_unlocked o s' ∧ orderly true [] s s') ∧
  (∀ to from o s', link fs to from s = (o, s') →
     back_unlocked o s' ∧ orderly true [] s s').
Proof.
  intros Hh. split; [|split; [|split]].
  - intros p o s' E. exact (keeps_back _ _ s o s' (keeps_stat fs p) Hh E).
  - intros p nd o s' E. exact (keeps_back _ _ s o s' (keeps_wstat fs p nd) Hh E).
  - intros p all o s' E. exact (keeps_back _ _ s o s' (keeps_remove fs p all) Hh E).
  - intros to from o s' E. exact (keeps_back _ _ s o s' (keeps_link fs to from) Hh E).
Qed.

(** X3: [move] (lines 695-782): run while the request holds no lock, a move
    never blocks on a lock of its own: it comes back, with or without an
    error, and holds no lock then.  The second parent is walked to while
    the first is locked, and the order [move] takes keeps the first parent
    off the path to the second. *)
Theorem move_never_blocks from to (s : State) o s' :
  held s = [] →
  move fs from to s = (o, s') →
  back_unlocked o s'.
Proof.
  intros Hh E. exact (proj1 (keeps_back _ _ s o s' (keeps_move fs from to) Hh E)).
Qed.

(** X4: [put] (lines 888-1027) and [putCtl] (863-886): run while the request
    holds no lock, a put comes back and holds no lock then, whatever the
    type put and whether the file existed, and it took every lock while it
    held no other; but for a put to [/Ctl] with a nil data channel:
    [putCtl] ranges over the channel before anything else, so that request
    blocks for ever and nothing changes. *)
Theorem put_releases_locks p d off c (s : State) :
  held s = [] →
  (∀ o s', (zx.UseAbsPath p = inr "/Ctl" → c ≠ None) →
     put fs p d off c s = (o, s') →
     back_unlocked o s' ∧ orderly true [] s s') ∧
  (zx.UseAbsPath p = inr "/Ctl" → put fs p d off None s = (Deadlock, s)).
Proof.
  intros Hh. split.
  - intros o s' Hc E.
    exact (keeps_back _ _ s o s' (keeps_put fs p d off c Hc) Hh E).
  - intros Hp. unfold put. rewrite Hp. reflexivity.
Qed.

(** X5: [get] (lines 556-621), [getCtl] (530-554): run while the request holds
    no lock, a get comes back and holds no lock then; every message it
    sent, it sent while no node was locked, so that a reader that is slow
    to take the data keeps no node of the cache locked; and it took every
    lock while it held no other.  An offset below zero on [/Ctl] is left
    out: that get panics. *)
Theorem get_sends_unlocked p off count (s : State) o s' :
  held s = [] →
  (zx.UseAbsPath p = inr "/Ctl" → 0 ≤ off) →
  get fs p off count s = (o, s') →
  back_unlocked o s' ∧ orderly true [] s s'.
Proof.
  intros Hh Hoff E.
  exact (keeps_back _ _ s o s' (keeps_get fs p off count Hoff) Hh E).
Qed.

(** X6: [find] and [findr] (lines 1049-1172): run while the request holds no
    lock, a find neither blocks on a lock nor panics, however deep it goes
    (the model's fuel bounds the depth); when it comes back it holds no
    lock, every entry it sent, it sent while no node was locked, and it
    took every lock while it held no other. *)
Theorem find_sends_unlocked fuel p fpred spref dpref depth (s : State) o s' :
  held s = [] →
  find fs fuel p fpred spref dpref depth s = (o, s') →
  o = OutOfFuel ∨ (back_unlocked o s' ∧ orderly true [] s s').
Proof.
  intros Hh E.
  exact (keeps_back_fuel _ _ s o s'
           (keeps_find fs fuel p fpred spref dpref depth) Hh E).
Qed.

End Discipline.

Section Reading.

Context {C R P : Type}.
Context `{!Remote R, !Cache C R, !Perms, !Preds P, !Sys C R}.
Variable fs : Fs.

Local Abbreviation State := (State C R).
Local Abbreviation M := (M C R).

Lemma get_listed p off count (s : State) :
  wp (get fs p off count) s (λ _ s', listed count s s').
Proof.
  pose proof (λ why nd els, appends_impl _ _ _ walk_no_entry
                (appends_walk fs why nd els)) as HW.
  unfold get. destruct (zx.UseAbsPath p) as [e|p'].
  { apply wp_listed_end. appends_tac. }
  destruct (decide (p' = "/Ctl")).
  { apply wp_listed_end, appends_getCtl. }
  apply wp_listed_bind; [apply HW|]. intros f s1.
  apply wp_listed_bind; [appends_tac|]. intros d s2.
  destruct (decide (dget d "type" ≠ "d")).
  { apply wp_listed_end, appends_f_getData. }
  apply wp_listed_bind; [appends_tac|]. intros r s3.
  apply wp_listed_bind; [appends_tac|]. intros _ s4.
  destruct r as [e|ds]; [apply wp_listed_end; appends_tac|].
  apply get_loop_listed.
Qed.

(** X7: [get] of a directory (lines 564-621): a listing never sends an entry
    named [.zx] or [.#zx], and sends at most [count] entries when [count]
    is a count (not negative).  When the walk returns the directory and the
    cache lists it, the get comes back, and what it sends after it unlocked
    the directory are entries of the listing, in the order of the listing,
    after [/Ctl] if the directory is the root; the model of the loop does
    not run out of fuel. *)
Theorem get_listing p p' off count (s : State) o s' :
  zx.UseAbsPath p = inr p' →
  get fs p off count s = (o, s') →
  listed count s s' ∧
  ∀ f s1 ds,
    p' ≠ "/Ctl" →
    walk fs forGet ∅ (zx.Elems p') s = (Ret f, s1) →
    dget (c_dir (cst s1) f) "type" = "d" →
    c_getDir (cst s1) f = inr ds →
    (o = Ret () ∨ ∃ e, o = Fail e) ∧
    ∃ sent,
      log s' = log s1 ++ EvUnlock f :: ((λ d, EvSend (MDir d)) <$> sent) ∧
      sent `sublist_of`
        ((if decide (p' = "/") then [ctldir] else [])
         ++ filter (λ d, hidden d = false) ds).
Proof.
  intros Hp E. split; [exact (get_listed p off count s o s' E)|].
  intros f s1 ds Hctl Hw Ht Hd. unfold get in E. rewrite Hp in E.
  destruct (decide (p' = "/Ctl")); [contradiction|].
  rewrite bind_unfold, Hw, bind_unfold in E. unfold dir at 1 in E.
  destruct (decide (dget (c_dir (cst s1) f) "type" ≠ "d")); [contradiction|].
  rewrite bind_unfold in E. unfold getDir at 1 in E. rewrite Hd in E.
  rewrite bind_unfold, (Unlock_held f s1 (walk_get_held fs _ _ _ _ Hw)) in E.
  apply get_loop_listing in E.
  2:{ destruct (negb false && _); lia. }
  destruct E as (Ho & sent & El & Hs & _). split.
  - destruct o as [[]| | | |]; simpl in Ho; try contradiction; try discriminate;
      [left; reflexivity | right; eauto].
  - exists sent. split.
    + rewrite El. simpl. rewrite <- app_assoc. reflexivity.
    + simpl in Hs. destruct (decide (p' = "/")) as [Hr|Hr].
      * rewrite (bool_decide_eq_true_2 _ Hr) in Hs. exact Hs.
      * rewrite (bool_decide_eq_false_2 _ Hr) in Hs. exact Hs.
Qed.

End Reading.
(** ** What a listing sends to a reader that takes it all *)

Section Window.

Context {C R P : Type}.
Context `{!Remote R, !Cache C R, !Perms, !Preds P, !Sys C R}.
Variable fs : Fs.

Local Abbreviation State := (State C R).
Local Abbreviation M := (M C R).

Lemma window_skip {A} off count (x : A) l :
  0 < off → window off count (x :: l) = window (off - 1) count l.
Proof.
  intros Ho. unfold window.
  replace (Z.to_nat off) with (S (Z.to_nat (off - 1))) by lia. reflexivity.
Qed.

Lemma window_none {A} off (l : list A) : off ≤ 0 → window off 0 l = [].
Proof. intros Ho. unfold window. rewrite bool_decide_eq_false_2; [reflexivity | discriminate]. Qed.

Lemma window_nil {A} off count : window off count (@nil A) = [].
Proof.
  unfold window. rewrite drop_nil. destruct (bool_decide _); [reflexivity|].
  apply take_nil.
Qed.

Lemma window_cons {A} off count (x : A) l :
  off ≤ 0 → count ≠ 0 → count = zx.All ∨ 0 ≤ count < 2 ^ 63 →
  let count' := if bool_decide (count = zx.All) then count
                else wrap64 (count - 1) in
  (count' = zx.All ∨ 0 ≤ count' < 2 ^ 63) ∧
  window off count (x :: l) = x :: window off count' l.
Proof.
  intros Ho Hz Hc. unfold window.
  replace (Z.to_nat off) with 0%nat by lia. simpl drop.
  destruct (bool_decide (count = zx.All)) eqn:Ha; simpl.
  - rewrite Ha. split; [exact Hc | reflexivity].
  - apply bool_decide_eq_false in Ha.
    assert (Hr : 1 ≤ count < 2 ^ 63) by (destruct Hc; [contradiction | lia]).
    rewrite (wrap64_dec count Hr).
    rewrite bool_decide_eq_false_2 by (unfold zx.All; lia).
    split; [right; lia|].
    replace (Z.to_nat count) with (S (Z.to_nat (count - 1))) by lia. reflexivity.
Qed.

Lemma send_open m (s : State) :
  budget s = None → send m s = (Ret true, add_log (EvSend m) s).
Proof. intros Hb. unfold send. rewrite Hb. reflexivity. Qed.

(** The loop of [get], for a reader that takes all it is sent: the loop
    ends, and sends the entries that are not hidden among those the offset
    and the count select of [/Ctl] (if it is still to be sent) and the
    entries from [i] on. *)
Lemma get_loop_window fuel p ds i off count ctlsent (s : State) :
  budget s = None →
  count = zx.All ∨ 0 ≤ count < 2 ^ 63 →
  (i < length ds)%nat ∨ negb ctlsent && bool_decide (p = "/") = false →
  (length ds - i + (if negb ctlsent && bool_decide (p = "/") then 1 else 0)
   < fuel)%nat →
  ∃ s', get_loop fuel p ds i off count ctlsent s = (Ret (), s') ∧
    log s' = log s ++
      ((λ d, EvSend (MDir d)) <$>
         filter (λ d, hidden d = false)
           (window off count
              ((if negb ctlsent && bool_decide (p = "/") then [ctldir] else [])
               ++ drop i ds))).
Proof.
  revert ds i off count ctlsent s.
  induction fuel as [|fuel IH]; intros ds i off count ctlsent s Hb Hc Hi Hm; [lia|].
  simpl get_loop.
  destruct (bool_decide (i < length ds)%nat) eqn:Hlt; simpl negb; cbv iota.
  2:{ apply bool_decide_eq_false in Hlt. destruct Hi as [Hi|Hi]; [contradiction|].
      rewrite Hi, drop_ge by lia. simpl. rewrite window_nil, app_nil_r.
      eexists; split; reflexivity. }
  apply bool_decide_eq_true in Hlt. clear Hi.
  destruct (lookup_lt_is_Some_2 ds i Hlt) as [d Hd].
  rewrite (drop_S ds d i Hd).
  destruct (bool_decide (off > 0)) eqn:Ho.
  { apply bool_decide_eq_true in Ho.
    destruct (negb ctlsent && bool_decide (p = "/")) eqn:Hp.
    - destruct (IH ds i (off - 1) count true s Hb Hc) as (s' & E & El);
        [right; reflexivity | simpl; lia |].
      exists s'. split; [exact E|]. rewrite El. simpl app.
      rewrite (window_skip off) by lia. rewrite (drop_S ds d i Hd). reflexivity.
    - destruct (IH ds (S i) (off - 1) count ctlsent s Hb Hc) as (s' & E & El);
        [right; exact Hp | rewrite Hp; lia |].
      exists s'. split; [exact E|]. rewrite El, Hp. simpl app.
      rewrite (window_skip off) by lia. reflexivity. }
  apply bool_decide_eq_false in Ho.
  destruct (bool_decide (count = 0)) eqn:Hz.
  { apply bool_decide_eq_true in Hz. subst count.
    rewrite window_none by lia. rewrite app_nil_r. eexists; split; reflexivity. }
  apply bool_decide_eq_false in Hz. cbv zeta.
  assert (Hw : ∀ (x : Dir) l,
    ((if bool_decide (count = zx.All) then count else wrap64 (count - 1))
       = zx.All
     ∨ 0 ≤ (if bool_decide (count = zx.All) then count else wrap64 (count - 1))
       < 2 ^ 63) ∧
    window off count (x :: l)
    = x :: window off (if bool_decide (count = zx.All) then count
                       else wrap64 (count - 1)) l).
  { intros x l. apply window_cons; [lia | exact Hz | exact Hc]. }
  set (count' := if bool_decide (count = zx.All) then count
                 else wrap64 (count - 1)) in *.
  clearbody count'.
  assert (Hsend : ∀ (x : Dir) (l : list Dir) i' b,
    (i' < length ds)%nat ∨ negb b && bool_decide (p = "/") = false →
    (length ds - i' + (if negb b && bool_decide (p = "/") then 1 else 0)
     < fuel)%nat →
    hidden x = false →
    l = (if negb b && bool_decide (p = "/") then [ctldir] else []) ++ drop i' ds →
    ∃ s', (send (MDir x) ≫= λ ok : bool,
             if negb ok then cerror () else get_loop fuel p ds i' off count' b) s
          = (Ret (), s') ∧
      log s' = log s ++
        ((λ d, EvSend (MDir d)) <$>
           filter (λ d, hidden d = false) (window off count (x :: l)))).
  { intros x l i' b Hi' Hm' Hx ->. rewrite bind_unfold, (send_open _ s Hb).
    simpl negb. cbv iota.
    destruct (Hw x ((if negb b && bool_decide (p = "/") then [ctldir] else [])
                    ++ drop i' ds)) as [Hc' ->].
    destruct (IH ds i' off count' b (add_log (EvSend (MDir x)) s) Hb Hc' Hi' Hm')
      as (s' & E & El).
    exists s'. split; [exact E|]. rewrite El. simpl log.
    rewrite filter_cons_True by exact Hx. rewrite <- app_assoc. reflexivity. }
  destruct (negb ctlsent && bool_decide (p = "/")) eqn:Hp.
  { apply (Hsend ctldir _ i true); [right; reflexivity | simpl; lia | reflexivity|].
    simpl. rewrite (drop_S ds d i Hd). reflexivity. }
  rewrite Hd. simpl app.
  destruct (bool_decide (dget d "name" = ".zx")
            || bool_decide (dget d "name" = ".#zx")) eqn:Hh.
  - destruct (Hw d (drop (S i) ds)) as [Hc' ->].
    rewrite filter_cons_False by (unfold hidden; rewrite Hh; discriminate).
    destruct (bool_decide (i = length ds - 1)%nat) eqn:Hl.
    { apply bool_decide_eq_true in Hl. rewrite drop_ge by lia.
      rewrite window_nil, app_nil_r. eexists; split; reflexivity. }
    apply bool_decide_eq_false in Hl.
    assert (Hlen : length (delete i ds) = (length ds - 1)%nat).
    { apply length_delete. rewrite Hd. eauto. }
    destruct (IH (delete i ds) i off count' ctlsent s Hb Hc') as (s' & E & El);
      [left; lia | rewrite Hp; lia |].
    exists s'. split; [exact E|]. rewrite El, Hp. simpl app.
    rewrite drop_delete_at by exact Hlt. reflexivity.
  - apply (Hsend d _ (S i) ctlsent); [right; exact Hp | rewrite Hp; lia | |].
    + unfold hidden. exact Hh.
    + rewrite Hp. reflexivity.
Qed.

(** X8: [get] of a directory (lines 564-621), for a reader that takes all it is
    sent.  When the walk returns the directory and the cache lists it, the
    get works and what it sends is: of [/Ctl] (for the root) followed by
    the entries of the listing, those the offset and the count select, less
    the entries named [.zx] or [.#zx].  So a hidden entry uses up one
    offset or one count like any other.  The listing of the root must not
    be empty: the loop does not run for an empty listing. *)
Theorem get_sends_window p p' off count (s : State) f s1 ds :
  zx.UseAbsPath p = inr p' → p' ≠ "/Ctl" →
  walk fs forGet ∅ (zx.Elems p') s = (Ret f, s1) →
  dget (c_dir (cst s1) f) "type" = "d" →
  c_getDir (cst s1) f = inr ds →
  budget s1 = None →
  (p' = "/" → ds ≠ []) →
  count = zx.All ∨ 0 ≤ count < 2 ^ 63 →
  ∃ s', get fs p off count s = (Ret (), s') ∧
    log s' = log s1 ++ EvUnlock f ::
      ((λ d, EvSend (MDir d)) <$>
         filter (λ d, hidden d = false)
           (window off count
              ((if decide (p' = "/") then [ctldir] else []) ++ ds))).
Proof.
  intros Hp Hctl Hw Ht Hd Hb Hne Hc. unfold get. rewrite Hp.
  destruct (decide (p' = "/Ctl")); [contradiction|].
  rewrite bind_unfold, Hw, bind_unfold. unfold dir at 1.
  destruct (decide (dget (c_dir (cst s1) f) "type" ≠ "d")); [contradiction|].
  rewrite bind_unfold. unfold getDir at 1. rewrite Hd.
  rewrite bind_unfold, (Unlock_held f s1 (walk_get_held fs _ _ _ _ Hw)).
  destruct (get_loop_window (length ds + 2) p' ds 0 off count false
              (add_log (EvUnlock f) s1) Hb Hc) as (s' & E & El).
  { destruct (decide (p' = "/")) as [Hr|Hr].
    - left. specialize (Hne Hr). destruct ds; [contradiction | simpl; lia].
    - right. simpl. apply bool_decide_eq_false_2, Hr. }
  { destruct (negb false && _); lia. }
  exists s'. split; [exact E|]. rewrite El. simpl log. rewrite <- app_assoc.
  simpl. destruct (decide (p' = "/")) as [Hr|Hr].
  - rewrite (bool_decide_eq_true_2 _ Hr). reflexivity.
  - rewrite (bool_decide_eq_false_2 _ Hr). reflexivity.
Qed.

End Window.

(** ** Bytes: [getCtl] and [dpath] *)

Module Bytes.

Lemma length_substring n m s :
  String.length (substring n m s) = (m `min` (String.length s - n))%nat.
Proof.
  revert n m. induction s as [|c s IH]; intros [|n] [|m]; simpl; try reflexivity.
  - rewrite IH. f_equal. lia.
  - apply IH.
  - apply IH.
Qed.

Lemma substring_0_substring k n m s :
  substring 0 k (substring n m s) = substring n (k `min` m) s.
Proof.
  revert k n m. induction s as [|c s IH]; intros k n m.
  - destruct n, m, k; reflexivity.
  - destruct n as [|n].
    + destruct m as [|m], k as [|k]; try reflexivity.
      simpl. f_equal. apply IH.
    + simpl. apply IH.
Qed.

Lemma substring_skip a n m b :
  substring (String.length a + n) m (a +:+ b) = substring n m b.
Proof. induction a as [|c a IH]; [reflexivity|]. simpl. exact IH. Qed.

Lemma substring_all s : substring 0 (String.length s) s = s.
Proof. induction s as [|c s IH]; [reflexivity|]. simpl. f_equal. exact IH. Qed.

Lemma length_app_s a b : String.length (a +:+ b) = (String.length a + String.length b)%nat.
Proof. induction a as [|c a IH]; [reflexivity|]. simpl. f_equal. exact IH. Qed.

Lemma last_index_none i s c last :
  occurs c s = false → last_index_from i s c last = last.
Proof.
  revert i last. induction s as [|x s IH]; intros i last; [reflexivity|].
  simpl. intros [Hx Hs]%orb_false_elim. rewrite Hx. apply IH, Hs.
Qed.

Lemma last_index_found i a c b last :
  occurs c b = false →
  last_index_from i (a +:+ String c b) c last = Z.of_nat (i + String.length a).
Proof.
  revert i last. induction a as [|x a IH]; intros i last Hb; simpl.
  - rewrite Ascii.eqb_refl, last_index_none by exact Hb. f_equal. lia.
  - rewrite IH by exact Hb. f_equal. lia.
Qed.

End Bytes.

Section CtlAndAddr.

Context {C R P : Type}.
Context `{!Remote R, !Cache C R, !Perms, !Preds P, !Sys C R}.
Variable fs : Fs.

Local Abbreviation State := (State C R).
Local Abbreviation M := (M C R).

(** X10: [dpath] (lines 1188-1197): the path of an entry is what follows the
    last [!] of its address, and all of the address if it has no [!].  So
    the address [zxc!<path>] that the file system gives an entry is read
    back as the path when the path has no [!] in it (and as its part after
    the last [!] when it has one). *)
Theorem dpath_of_addr (d : Dir) (pre suf : string) :
  occurs "!" suf = false →
  (dget d "addr" = suf → dpath d = suf) ∧
  (dget d "addr" = pre +:+ "!" +:+ suf → dpath d = suf).
Proof.
  intros Hs. unfold dpath, LastIndexByte, slice_from. split; intros ->.
  - rewrite Bytes.last_index_none by exact Hs. simpl.
    rewrite Nat.sub_0_r. apply Bytes.substring_all.
  - change (pre +:+ "!" +:+ suf) with (pre +:+ String "!" suf).
    rewrite Bytes.last_index_found by exact Hs.
    rewrite bool_decide_eq_false_2 by lia.
    replace (Z.to_nat (Z.of_nat (0 + String.length pre) + 1))
      with (String.length pre + 1)%nat by lia.
    rewrite Bytes.length_app_s. simpl String.length.
    replace (String.length pre + S (String.length suf) - (String.length pre + 1))%nat
      with (String.length suf) by lia.
    rewrite Bytes.substring_skip. simpl. apply Bytes.substring_all.
Qed.

(** X9: [getCtl] (lines 530-554): the text of [/Ctl] is what the file system
    prints followed by the [/Ctl] of the remote, if that can be read.  A
    get with an offset below zero panics (the slice [resp[o:]] is out of
    range).  With an offset that is not, and a reader that takes the
    message, exactly one message is sent: the bytes of the text from the
    offset on, at most [count] of them when [count] is not negative, and
    none when the offset is at or past the end. *)
Theorem getCtl_window off count (s : State) chunks err r' :
  r_get (rst s) "/Ctl" 0 zx.All = ((chunks, err), r') →
  let text := match err with
              | None => ctltext fs +:+ foldr String.append "" chunks
              | Some _ => ctltext fs
              end in
  let len := Z.of_nat (String.length text) in
  (off < 0 →
     getCtl fs off count s = (Panic, fetched (EvRemoteGet "/Ctl") r' s)) ∧
  (0 ≤ off → budget s ≠ Some 0%nat →
     ∃ b s', getCtl fs off count s = (Ret (), s') ∧
       log s' = log s ++ [EvRemoteGet "/Ctl"; EvSend (MBytes b)] ∧
       b = substring (Z.to_nat (off `min` len)) (String.length b) text ∧
       Z.of_nat (String.length b)
         = if bool_decide (count < 0) then (len - off) `max` 0
           else count `min` ((len - off) `max` 0)).
Proof.
  intros Hr text len.
  set (s1 := fetched (EvRemoteGet "/Ctl") r' s).
  assert (Hrem : remote (EvRemoteGet "/Ctl") (λ r, r_get r "/Ctl" 0 zx.All) s
                 = (Ret (chunks, err), s1)).
  { unfold remote. rewrite Hr. reflexivity. }
  split.
  - intros Hoff. unfold getCtl. rewrite bind_unfold, Hrem. cbv zeta.
    fold text. fold len.
    rewrite (bool_decide_eq_false_2 (off >= len)) by lia.
    rewrite bool_decide_eq_true_2 by lia. reflexivity.
  - intros Hoff Hb. unfold getCtl. rewrite bind_unfold, Hrem. cbv zeta.
    fold text. fold len.
    set (o := if bool_decide (off >= len) then len else off).
    assert (Ho : o = off `min` len) by (unfold o; destruct (bool_decide_reflect (off >= len)); lia).
    rewrite (bool_decide_eq_false_2 (o < 0)) by lia.
    set (resp := slice_from text (Z.to_nat o)).
    assert (Hlen : Z.of_nat (String.length resp) = len - o).
    { unfold resp, slice_from. rewrite Bytes.length_substring. fold len. lia. }
    set (n := if bool_decide (count > Z.of_nat (String.length resp))
                 || bool_decide (count < 0)
              then Z.of_nat (String.length resp) else count).
    set (b := slice_to resp (Z.to_nat n)).
    assert (Hn : 0 ≤ n ≤ len - o).
    { unfold n. destruct (bool_decide_reflect (count > Z.of_nat (String.length resp)));
        destruct (bool_decide_reflect (count < 0)); simpl; lia. }
    assert (Hbl : Z.of_nat (String.length b) = n).
    { unfold b, slice_to. rewrite Bytes.length_substring. lia. }
    rewrite bind_unfold. unfold send.
    assert (Hb1 : budget s1 = budget s) by reflexivity. rewrite Hb1.
    destruct (budget s) as [[|k]|]; [congruence | |].
    all: eexists b, _; split; [reflexivity|]; split; [simpl; rewrite <- app_assoc; reflexivity|].
    all: split.
    all: try (unfold b at 1, slice_to, resp, slice_from;
              rewrite Bytes.substring_0_substring; f_equal; lia).
    all: rewrite Hbl; unfold n;
      destruct (bool_decide_reflect (count > Z.of_nat (String.length resp)));
      destruct (bool_decide_reflect (count < 0)); simpl; lia.
Qed.

End CtlAndAddr.

(** ** Errors and what the requests never do *)

Section Edges.

Context {C R P : Type}.
Context `{!Remote R, !Cache C R, !Perms, !Preds P, !Sys C R}.
Variable fs : Fs.

Local Abbreviation State := (State C R).
Local Abbreviation M := (M C R).

Lemma held_fetched ev r' (s : State) :
  lock_free ev → held (fetched ev r' s) = held s.
Proof.
  intros Hev. apply held_ext. exists [ev].
  split; [reflexivity | repeat constructor; exact Hev].
Qed.

(** X11: [getData] (lines 292-303): when the transfer of the data of a file
    fails, the error is got over only if it is an I/O error, redial is
    enabled and the node has old data: then the syncer is told to redial
    and no error is returned.  Every other failure is returned as it is,
    and the node is never marked gone, not even when the error says that
    the file does not exist; the walk for a put that needed the data then
    fails with the error and releases the node. *)
Theorem getData_failures f (s : State) st r' c' e :
  r_get (rst s) (path_of f) 0 (-1) = (st, r') →
  c_gotData (cst s) f st = (Some e, c') →
  let s1 := set_cst c' (fetched (EvRemoteGet (path_of f)) r' s) in
  (kind_of e = IO → redialok fs = true → c_oldDataOk c' f = true →
     getData fs f s = (Ret None, add_log EvNeedRedial s1)) ∧
  (kind_of e ≠ IO ∨ redialok fs = false ∨ c_oldDataOk c' f = false →
     getData fs f s = (Ret (Some e), s1) ∧
     ∀ d, dget d "type" ≠ "d" → c_dataOk (cst s) f = false → f ∈ held s →
       walk_end fs forPut f d s
         = (Fail (ErrCtx (path_of f) e), add_log (EvUnlock f) s1)).
Proof.
  intros Hr Hg s1.
  assert (Hstart : ∀ B (k : option error → M B),
            (getData fs f ≫= k) s =
            (old ← oldDataOk f;
             r ← (if zx.IsIOError (Some e) && redialok fs && old
                  then needRedial fs;; mret None else mret (Some e));
             k r) s1).
  { intros B k. unfold getData. rewrite bind_assoc, bind_unfold.
    unfold remote at 1. rewrite Hr. rewrite bind_assoc, bind_unfold.
    unfold gotData at 1. simpl cst. rewrite Hg.
    fold (fetched (EvRemoteGet (path_of f)) r' s). fold s1.
    rewrite bind_assoc. reflexivity. }
  assert (Hself : getData fs f s = (getData fs f ≫= mret) s).
  { rewrite bind_unfold. destruct (getData fs f s) as [[| | | |] ?]; reflexivity. }
  split.
  - intros Hk Hd Ho. rewrite Hself, Hstart, bind_unfold. unfold oldDataOk at 1.
    change (cst s1) with c'. rewrite Ho, (IsIOError_true e Hk), Hd.
    unfold needRedial. rewrite Hd. reflexivity.
  - intros Hno.
    assert (Hc : zx.IsIOError (Some e) && redialok fs && c_oldDataOk c' f = false).
    { destruct Hno as [Hk|[Hd|Ho]].
      - rewrite (IsIOError_false e Hk). reflexivity.
      - rewrite Hd, andb_false_r. reflexivity.
      - rewrite Ho, andb_false_r. reflexivity. }
    split.
    + rewrite Hself, Hstart, bind_unfold. unfold oldDataOk at 1.
      change (cst s1) with c'. rewrite Hc. reflexivity.
    + intros d Ht Hok Hin. unfold walk_end.
      destruct (decide (dget d "type" = "d")); [contradiction|].
      rewrite bind_unfold. unfold dataOk at 1. rewrite Hok.
      change (negb false) with true. cbv iota.
      rewrite Hstart, bind_unfold. unfold oldDataOk at 1.
      change (cst s1) with c'. rewrite Hc. rewrite ret_bind.
      apply walk_fail_eq. unfold s1.
      change (held (set_cst c' (fetched (EvRemoteGet (path_of f)) r' s)))
        with (held (fetched (EvRemoteGet (path_of f)) r' s)).
      rewrite held_fetched by exact I. exact Hin.
Qed.

Lemma read_walk ev : walk_event ev → read_event ev.
Proof. destruct ev; simpl; tauto. Qed.

Lemma read_fetch ev : fetch_event ev → read_event ev.
Proof. destruct ev; simpl; tauto. Qed.

Lemma appends_read_findr_children rec f spref dpref ds err :
  (∀ cf cd cp, appends read_event (rec cf cd cp : M ())) →
  appends read_event (findr_children fs rec f spref dpref ds err : M ()).
Proof.
  pose proof (λ f, appends_impl _ _ _ read_fetch (appends_getDirData fs f)) as HD.
  intros Hrec. revert err. induction ds as [|cd ds IH]; intros err; simpl.
  - appends_tac.
  - repeat first [apply IH | apply Hrec | apply HD | appends_step | exact I].
Qed.

Lemma appends_read_findr fuel fp spref dpref lvl f d p :
  appends read_event (findr fs fuel fp spref dpref lvl f d p : M ()).
Proof.
  revert lvl f d p. induction fuel as [|fuel IH]; intros lvl f d p; simpl.
  { appends_tac. }
  destruct (EvalAt fp d lvl) as [[matched pruned] err].
  repeat first [apply appends_read_findr_children; intros; apply IH
               | appends_step | exact I].
Qed.

Lemma appends_read_get_loop fuel p ds i off count ctlsent :
  appends read_event (get_loop fuel p ds i off count ctlsent : M ()).
Proof.
  revert ds i off count ctlsent.
  induction fuel as [|fuel IH]; intros ds i off count ctlsent; simpl.
  - appends_tac.
  - repeat first [apply IH | appends_step | exact I].
Qed.

(** X12: [stat], [get] and [find] (lines 439-453, 556-621, 1049-1172) only
    read: all they do that others can see is to lock and unlock nodes, to
    fetch from the remote (stat, directory, data; and tell the syncer to
    redial) and to send what was asked for.  They never put, move or link
    on the remote, and never sync the cache or ask for a sync. *)
Theorem reads_only (s : State) :
  (∀ p o s', stat fs p s = (o, s') → ext read_event s s') ∧
  (∀ p off count o s', get fs p off count s = (o, s') → ext read_event s s') ∧
  (∀ fuel p fpred spref dpref depth o s',
     find fs fuel p fpred spref dpref depth s = (o, s') → ext read_event s s').
Proof.
  pose proof (λ why nd els, appends_impl _ _ _ read_walk
                (appends_walk fs why nd els)) as HW.
  assert (Hstat : ∀ p, appends read_event (stat fs p : M Dir)).
  { intros p. unfold stat. appends_tac. }
  assert (Hget : ∀ p off count, appends read_event (get fs p off count : M ())).
  { intros p off count. unfold get, getCtl, f_getData. cbv zeta.
    repeat first [apply appends_sendall; intros; exact I
                 | apply appends_quiet; reflexivity
                 | apply appends_read_get_loop
                 | appends_step | exact I | apply HW]. }
  assert (Hfind : ∀ fuel p fpred spref dpref depth,
            appends read_event (find fs fuel p fpred spref dpref depth : M ())).
  { intros. unfold find.
    repeat first [apply appends_read_findr | appends_step | exact I | apply HW]. }
  repeat split.
  - intros p o s' E. exact (Hstat p s o s' E).
  - intros p off count o s' E. exact (Hget p off count s o s' E).
  - intros fuel p fpred spref dpref depth o s' E.
    exact (Hfind fuel p fpred spref dpref depth s o s' E).
Qed.

Lemma bind_ext_s {A B} (m : M A) (k k' : A → M B) (s : State) :
  (∀ a s1, k a s1 = k' a s1) → (m ≫= k) s = (m ≫= k') s.
Proof.
  intros Hk. rewrite !bind_unfold. destruct (m s) as [[a| | | |] s1]; auto.
Qed.

Lemma dget_delete_ne (d : Dir) k k' : k ≠ k' → dget (delete k d) k' = dget d k'.
Proof. intros Hne. unfold dget. rewrite lookup_delete_ne by exact Hne. reflexivity. Qed.

Lemma dget_delete (d : Dir) k : dget (delete k d) k = "".
Proof. unfold dget. rewrite lookup_delete_eq. reflexivity. Qed.

(** X14: [wstat] (lines 469-513): a [wuid] in the delta is ignored: the request
    does what it does for the delta without it, whatever the file and
    whatever else the delta holds. *)
Theorem wstat_ignores_wuid p nd (s : State) :
  dget nd "wuid" ≠ "" →
  wstat fs p nd s = wstat fs p (delete "wuid" nd) s.
Proof.
  intros Hw. unfold wstat. destruct (zx.UseAbsPath p) as [e|p']; [reflexivity|].
  destruct (decide (p' = "/Ctl")); [reflexivity|].
  rewrite (dget_delete_ne nd "wuid" "size") by discriminate.
  apply bind_ext_s. intros f s1. apply bind_ext_s. intros d s2. cbv zeta.
  assert (E : (if decide (dget (if decide (dget d "type" = "d")
                                then delete "size" nd else nd) "wuid" ≠ "")
               then delete "wuid" (if decide (dget d "type" = "d")
                                   then delete "size" nd else nd)
               else (if decide (dget d "type" = "d")
                     then delete "size" nd else nd))
              = (if decide (dget (if decide (dget d "type" = "d")
                                  then delete "size" (delete "wuid" nd)
                                  else delete "wuid" nd) "wuid" ≠ "")
                 then delete "wuid" (if decide (dget d "type" = "d")
                                     then delete "size" (delete "wuid" nd)
                                     else delete "wuid" nd)
                 else (if decide (dget d "type" = "d")
                       then delete "size" (delete "wuid" nd)
                       else delete "wuid" nd))).
  { destruct (decide (dget d "type" = "d")).
    - rewrite (dget_delete_ne nd "size" "wuid") by discriminate.
      rewrite (dget_delete_ne (delete "wuid" nd) "size" "wuid") by discriminate.
      rewrite dget_delete.
      destruct (decide (dget nd "wuid" ≠ "")); [|contradiction].
      destruct (decide ("" ≠ "")); [congruence|].
      apply delete_delete.
    - rewrite dget_delete.
      destruct (decide (dget nd "wuid" ≠ "")); [|contradiction].
      destruct (decide ("" ≠ "")); [congruence | reflexivity]. }
  rewrite E. reflexivity.
Qed.

(** X15: [remove] (lines 637-660): [/] and [/Ctl] are not removed: the request
    fails with [Perm] and changes nothing.  For another path, once the walk
    has returned the node, the node is removed in the cache, unlocked, and
    a sync is asked for (or made, when writing through), also when the
    cache refused the removal; the error of the cache is the error of the
    request. *)
Theorem remove_checks_and_syncs p p' all (s : State) :
  zx.UseAbsPath p = inr p' →
  (p' = "/Ctl" ∨ p' = "/" →
     remove fs p all s = (Fail (ErrCtx ("remove " +:+ p') ErrPerm), s) ∧
     kind_of (ErrCtx ("remove " +:+ p') ErrPerm) = Perm) ∧
  (¬ (p' = "/Ctl" ∨ p' = "/") →
   ∀ f s1 err c,
     walk fs forDel ∅ (zx.Elems p') s = (Ret f, s1) →
     c_remove (cst s1) f all = (err, c) →
     remove fs p all s
       = ((if wsync fs then f_sync f else needSync);; check err)
           (add_log (EvUnlock f) (set_cst c s1))).
Proof.
  intros Hp. split.
  - intros Hr. unfold remove. rewrite Hp.
    destruct (decide (p' = "/Ctl" ∨ p' = "/")); [|contradiction].
    split; reflexivity.
  - intros Hr f s1 err c Hw Hc. unfold remove. rewrite Hp.
    destruct (decide (p' = "/Ctl" ∨ p' = "/")); [contradiction|].
    cbv zeta. rewrite bind_unfold, Hw, bind_unfold. unfold f_remove at 1.
    rewrite Hc. rewrite bind_unfold.
    pose proof (walk_from_held fs forDel ∅ (zx.Elems p') (File "/") s _ _ Hw)
      as (Hh & _ & _).
    rewrite (Unlock_held f (set_cst c s1)); [reflexivity|].
    change (held (set_cst c s1)) with (held s1). rewrite Hh.
    apply elem_of_app. right. constructor.
Qed.

(** X16: A path that is not absolute is refused by every request before
    anything is done: the request fails with the error of the path and the
    cache, the remote, the locks and the log are as they were ([move] and
    [link] look at their paths only if the remote can move or link). *)
Theorem bad_path_rejected p e (s : State) :
  zx.UseAbsPath p = inl e →
  stat fs p s = (Fail e, s) ∧
  (∀ nd, wstat fs p nd s = (Fail e, s)) ∧
  (∀ off count, get fs p off count s = (Fail e, s)) ∧
  (∀ all, remove fs p all s = (Fail e, s)) ∧
  (∀ d off c, put fs p d off c s = (Fail e, s)) ∧
  (∀ fuel fpred spref dpref depth,
     find fs fuel p fpred spref dpref depth s = (Fail e, s)) ∧
  (is_Some r_move → ∀ to, move fs p to s = (Fail e, s)) ∧
  (is_Some r_link → ∀ to, link fs to p s = (Fail e, s)).
Proof.
  intros Hp. repeat split; intros.
  - unfold stat. rewrite Hp. reflexivity.
  - unfold wstat. rewrite Hp. reflexivity.
  - unfold get. rewrite Hp. reflexivity.
  - unfold remove. rewrite Hp. reflexivity.
  - unfold put. rewrite Hp. reflexivity.
  - unfold find. rewrite Hp. reflexivity.
  - match goal with Hm : is_Some _ |- _ => destruct Hm as [m Em] end.
    unfold move. rewrite Em, Hp. reflexivity.
  - match goal with Hm : is_Some _ |- _ => destruct Hm as [m Em] end.
    unfold link. rewrite Em, Hp. reflexivity.
Qed.

End Edges.
(** ** Requests answered from the cache *)

Section FromCache.

Context {C R P : Type}.
Context `{!Remote R, !Cache C R, !Perms, !Preds P, !Sys C R}.
Variable fs : Fs.

Local Abbreviation State := (State C R).
Local Abbreviation M := (M C R).

Lemma from_cache_refl (s : State) : from_cache s s.
Proof. split; [reflexivity|]. split; [reflexivity | apply ext_refl]. Qed.

Lemma from_cache_trans (s1 s2 s3 : State) :
  from_cache s1 s2 → from_cache s2 s3 → from_cache s1 s3.
Proof.
  intros (C1 & R1 & E1) (C2 & R2 & E2).
  split; [congruence|]. split; [congruence | eapply ext_trans; eassumption].
Qed.

Lemma from_cache_add (s : State) ev : local_event ev → from_cache s (add_log ev s).
Proof.
  intros Hev. split; [reflexivity|]. split; [reflexivity | apply ext_add, Hev].
Qed.

Lemma quiet_ret {A} c (a : A) : quiet c (mret a : M A).
Proof. intros s _ o s' [= <- <-]. apply from_cache_refl. Qed.

Lemma quiet_fail {A} c e : quiet c (fail e : M A).
Proof. intros s _ o s' [= <- <-]. apply from_cache_refl. Qed.

Lemma quiet_check c err : quiet c (check err : M ()).
Proof. destruct err; [apply quiet_fail | apply quiet_ret]. Qed.

Lemma quiet_cerror {A} c (a : A) : quiet c (cerror a : M A).
Proof.
  intros s _ o s'. unfold cerror.
  destruct (cclose s); intros [= <- <-]; apply from_cache_refl.
Qed.

Lemma quiet_bind {A B} c (m : M A) (k : A → M B) :
  quiet c m → (∀ a, quiet c (k a)) → quiet c (m ≫= k).
Proof.
  intros Hm Hk s Hc o s' E. rewrite bind_unfold in E.
  destruct (m s) as [o1 s1] eqn:E1. pose proof (Hm s Hc o1 s1 E1) as H1.
  destruct o1; try (injection E as <- <-; exact H1).
  eapply from_cache_trans; [exact H1|].
  refine (Hk a s1 _ o s' E). destruct H1 as [-> _]. exact Hc.
Qed.

(** A read of the cache: the rest of the request runs on what the cache
    [c] holds. *)
Lemma quiet_read {A B} c (g : C → A) (k : A → M B) :
  quiet c (k (g c)) →
  quiet c (((λ s, (Ret (g (cst s)), s)) : M A) ≫= k).
Proof. intros Hk s Hc o s' E. rewrite bind_unfold, Hc in E. exact (Hk s Hc o s' E). Qed.

Lemma quiet_Lock c f : quiet c (Lock f : M ()).
Proof.
  intros s _ o s'. unfold Lock.
  destruct (decide _); intros [= <- <-];
    [apply from_cache_refl | apply from_cache_add; exact I].
Qed.

Lemma quiet_Unlock c f : quiet c (Unlock f : M ()).
Proof.
  intros s _ o s'. unfold Unlock.
  destruct (decide _); intros [= <- <-];
    [apply from_cache_add; exact I | apply from_cache_refl].
Qed.

Lemma quiet_send c m : quiet c (send m : M bool).
Proof.
  intros s _ o s'. unfold send.
  destruct (budget s) as [[|n]|]; intros [= <- <-].
  - apply from_cache_refl.
  - split; [reflexivity|]. split; [reflexivity|].
    exists [EvSend m]. split; [reflexivity | repeat constructor].
  - apply from_cache_add. exact I.
Qed.

Lemma quiet_walk_fail {A} c f e : quiet c (walk_fail f e : M A).
Proof.
  unfold walk_fail. apply quiet_bind; [apply quiet_Unlock|].
  intros _. apply quiet_fail.
Qed.

Lemma quiet_walk_end c why f d :
  c_metaOk c f = true →
  (why ∈ [forGet; forPut; forDel] → c_dataOk c f = true) →
  quiet c (walk_end fs why f d).
Proof.
  intros Hm Hd. unfold walk_end.
  destruct why; try apply quiet_ret; try apply quiet_walk_fail.
  - destruct (_ && _); [apply quiet_walk_fail|].
    apply (quiet_read c (λ c, c_dataOk c f)).
    rewrite Hd by (repeat constructor). apply quiet_ret.
  - destruct (decide _); [apply quiet_walk_fail|].
    apply (quiet_read c (λ c, c_dataOk c f)).
    rewrite Hd by (repeat constructor). apply quiet_ret.
  - apply (quiet_read c (λ c, c_dataOk c f)).
    rewrite Hd by (repeat constructor). apply quiet_ret.
Qed.

Lemma path_cached_tail all c f el rest :
  path_cached all c f (el :: rest) → path_cached all c (child f el) rest.
Proof.
  intros Hp i Hi. destruct (Hp (S i) ltac:(simpl; lia)) as [H1 H2].
  split; [exact H1|]. intros Hl. apply H2. simpl. destruct Hl; [left; lia | right; assumption].
Qed.

(** A walk through nodes that are valid in the cache, but for one that
    makes the directories that are missing. *)
Lemma quiet_walk_from c why nd all f els :
  why ≠ forCreatAll →
  (why ∈ [forGet; forPut; forDel] → all = true) →
  path_cached all c f els →
  quiet c (walk_from fs why nd f els).
Proof.
  intros Hw Ha. revert f. induction els as [|el rest IH]; intros f Hp;
    rewrite walk_from_eq.
  all: destruct (Hp 0%nat ltac:(simpl; lia)) as [Hm Hd]; simpl in Hm, Hd.
  all: apply quiet_bind; [apply quiet_Lock|]; intros _.
  all: apply (quiet_read c (λ c, c_metaOk c f)); rewrite Hm; simpl negb; cbv iota.
  all: apply quiet_bind; [apply quiet_ret|]; intros [e|]; [apply quiet_walk_fail|].
  all: unfold walk_node.
  all: apply (quiet_read c (λ c, c_isDel c f)).
  all: destruct (c_isDel c f); [apply quiet_walk_fail|].
  all: apply (quiet_read c (λ c, c_dir c f)).
  - apply quiet_walk_end; [exact Hm|]. intros Hin. apply Hd. right. apply Ha, Hin.
  - destruct (decide _); [apply quiet_walk_fail|].
    destruct (_ && _); [apply quiet_walk_fail|].
    apply (quiet_read c (λ c, c_dataOk c f)).
    rewrite Hd by (left; simpl; lia). simpl negb. cbv iota.
    apply quiet_bind; [apply quiet_ret|]. intros [e|]; [apply quiet_walk_fail|].
    unfold walk_step. cbv zeta.
    destruct (_ && _ && _ && _); [apply quiet_walk_fail|].
    destruct (_ && _ && _ && _); [apply quiet_walk_fail|].
    apply (quiet_read c (λ c, c_walk1 c f el)).
    rewrite (bool_decide_eq_false_2 (why = forCreatAll)) by exact Hw.
    simpl andb. cbv iota.
    apply quiet_bind; [apply quiet_ret|]. intros [e|].
    + destruct (_ && _ && _); [apply quiet_ret | apply quiet_walk_fail].
    + apply quiet_bind; [apply quiet_Unlock|]. intros _.
      apply IH. apply path_cached_tail with (el := el), Hp.
Qed.

Lemma quiet_f_getData c f off count : quiet c (f_getData f off count : M ()).
Proof.
  unfold f_getData. apply quiet_bind; [apply quiet_Unlock|]. intros _.
  apply (quiet_read c (λ c, c_getData c f off count)).
  destruct (c_getData c f off count) as [chunks err].
  induction chunks as [|b l IH]; [apply quiet_check|].
  apply quiet_bind; [apply quiet_send|]. intros [|]; [exact IH | apply quiet_cerror].
Qed.

Lemma quiet_get_loop c fuel p ds i off count ctlsent :
  quiet c (get_loop fuel p ds i off count ctlsent : M ()).
Proof.
  revert ds i off count ctlsent.
  induction fuel as [|fuel IH]; intros ds i off count ctlsent; simpl get_loop.
  { intros s _ o s' [= <- <-]. apply from_cache_refl. }
  destruct (negb _); [apply quiet_ret|].
  destruct (bool_decide (off > 0)); [destruct (_ && _); apply IH|].
  destruct (bool_decide (count = 0)); [apply quiet_ret|]. cbv zeta.
  destruct (_ && _).
  { apply quiet_bind; [apply quiet_send|].
    intros [|]; [apply IH | apply quiet_cerror]. }
  destruct (ds !! i) as [d|]; [|intros s _ o s' [= <- <-]; apply from_cache_refl].
  destruct (_ || _); [destruct (bool_decide _); [apply quiet_ret | apply IH]|].
  apply quiet_bind; [apply quiet_send|].
  intros [|]; [apply IH | apply quiet_cerror].
Qed.

(** X13: [stat] and [get] (lines 439-453, 556-621) on what the cache holds: when
    the nodes on the path are valid in the cache (the metadata of each, the
    entries of each directory walked through and, for [get], the data of
    the last), the request is answered from the cache.  It makes no call to
    the remote, asks for no redial and no sync, and leaves the cache and
    the remote as they were; all it logs are its locks and, for [get], what
    it sends.  [get] of [/Ctl] is left out: it reads the [/Ctl] of the
    remote. *)
Theorem cached_reads p p' (s : State) :
  zx.UseAbsPath p = inr p' →
  (path_cached false (cst s) (File "/") (zx.Elems p') →
   ∀ o s', stat fs p s = (o, s') → from_cache s s') ∧
  (path_cached true (cst s) (File "/") (zx.Elems p') → p' ≠ "/Ctl" →
   ∀ off count o s', get fs p off count s = (o, s') → from_cache s s').
Proof.
  intros Hp. split.
  - intros Hc o s'. revert s' o.
    cut (quiet (cst s) (stat fs p)); [intros Hq s' o; exact (Hq s eq_refl o s')|].
    unfold stat. rewrite Hp.
    destruct (decide _); [apply quiet_ret|].
    apply quiet_bind.
    { apply quiet_walk_from with (all := false); [discriminate | | exact Hc].
      intros Hin. repeat (apply elem_of_cons in Hin as [Hin|Hin]; [discriminate|]).
      inversion Hin. }
    intros f. apply (quiet_read _ (λ c, c_dir c f)).
    apply quiet_bind; [apply quiet_Unlock|]. intros _. apply quiet_ret.
  - intros Hc Hctl off count o s'. revert s' o.
    cut (quiet (cst s) (get fs p off count));
      [intros Hq s' o; exact (Hq s eq_refl o s')|].
    unfold get. rewrite Hp. destruct (decide _); [contradiction|].
    apply quiet_bind.
    { apply quiet_walk_from with (all := true); [discriminate | reflexivity | exact Hc]. }
    intros f. apply (quiet_read _ (λ c, c_dir c f)).
    destruct (decide _); [apply quiet_f_getData|].
    apply (quiet_read _ (λ c, c_getDir c f)).
    apply quiet_bind; [apply quiet_Unlock|]. intros _.
    destruct (c_getDir _ f); [apply quiet_fail | apply quiet_get_loop].
Qed.

End FromCache.
(** * More runs on concrete trees *)

Section MoreRuns.

Local Abbreviation st := (Mem.state Mem.warm Mem.tree).

Local Ltac conjs := repeat match goal with |- _ ∧ _ => split end.
Local Ltac run := vm_compute; reflexivity.
Local Ltac runs := first [apply run_to; run | run].

(** X1, at [walk] to [/a/x]: the node comes back locked, and no other. *)
Lemma walk_returns_locked_witness :
  held (walk Mem.fs0 forStat ∅ ["a"; "x"] st).2 = [File "/a/x"].
Proof.
  pose proof (walk_returns_locked Mem.fs0 forStat ∅ ["a"; "x"] st
                (walk Mem.fs0 forStat ∅ ["a"; "x"] st).1
                (walk Mem.fs0 forStat ∅ ["a"; "x"] st).2
                ltac:(intros i; apply not_elem_of_nil)
                (surjective_pairing _)) as H.
  assert (E : (walk Mem.fs0 forStat ∅ ["a"; "x"] st).1 = Ret (File "/a/x"))
    by run.
  rewrite E in H. exact (proj1 H).
Defined.

(** X2, at [stat] of [/a/x] and [remove] of [/a/b]. *)
Lemma requests_release_locks_witness :
  (back_unlocked (stat Mem.fs0 "/a/x" st).1 (stat Mem.fs0 "/a/x" st).2 ∧
   orderly true [] st (stat Mem.fs0 "/a/x" st).2) ∧
  (back_unlocked (remove Mem.fs0 "/a/b" false st).1
                 (remove Mem.fs0 "/a/b" false st).2 ∧
   orderly true [] st (remove Mem.fs0 "/a/b" false st).2).
Proof.
  destruct (requests_release_locks Mem.fs0 st eq_refl) as (H1 & _ & H3 & _).
  split.
  - exact (H1 "/a/x" _ _ (surjective_pairing _)).
  - exact (H3 "/a/b" false _ _ (surjective_pairing _)).
Defined.

(** X3, at [move] of [/a/x] to [/a/b/y], which locks two parents. *)
Lemma move_never_blocks_witness :
  back_unlocked (move Mem.fs0 "/a/x" "/a/b/y" st).1
                (move Mem.fs0 "/a/x" "/a/b/y" st).2.
Proof.
  exact (move_never_blocks Mem.fs0 "/a/x" "/a/b/y" st _ _ eq_refl
           (surjective_pairing _)).
Defined.

(** X4, at [put] of data on [/a/x], and on [/Ctl] with no channel. *)
Lemma put_releases_locks_witness :
  (back_unlocked (put Mem.fs0 "/a/x" ∅ 0 None st).1
                 (put Mem.fs0 "/a/x" ∅ 0 None st).2 ∧
   orderly true [] st (put Mem.fs0 "/a/x" ∅ 0 None st).2) ∧
  put Mem.fs0 "/Ctl" ∅ 0 None st = (Deadlock, st).
Proof.
  split.
  - destruct (put_releases_locks Mem.fs0 "/a/x" ∅ 0 None st eq_refl) as [H _].
    apply H; [discriminate | apply surjective_pairing].
  - destruct (put_releases_locks Mem.fs0 "/Ctl" ∅ 0 None st eq_refl) as [_ H].
    apply H. reflexivity.
Defined.

(** X5, at [get] of the directory [/a]. *)
Lemma get_sends_unlocked_witness :
  back_unlocked (get Mem.fs0 "/a" 0 zx.All st).1
                (get Mem.fs0 "/a" 0 zx.All st).2 ∧
  orderly true [] st (get Mem.fs0 "/a" 0 zx.All st).2.
Proof.
  apply (get_sends_unlocked Mem.fs0 "/a" 0 zx.All st).
  - reflexivity.
  - discriminate.
  - apply surjective_pairing.
Defined.

(** X6, at [find] from [/a]: the fuel is enough, and the three entries are sent. *)
Lemma find_sends_unlocked_witness :
  back_unlocked (find Mem.fs0 10 "/a" "" "/" "/" 0 st).1
                (find Mem.fs0 10 "/a" "" "/" "/" 0 st).2 ∧
  orderly true [] st (find Mem.fs0 10 "/a" "" "/" "/" 0 st).2.
Proof.
  destruct (find_sends_unlocked Mem.fs0 10 "/a" "" "/" "/" 0 st _ _ eq_refl
              (surjective_pairing _)) as [E|H]; [|exact H].
  vm_compute in E. discriminate E.
Defined.

(** X7, at [get] of the directory [/a]. *)
Lemma get_listing_witness :
  listed zx.All st (get Mem.fs0 "/a" 0 zx.All st).2.
Proof.
  exact (proj1 (get_listing Mem.fs0 "/a" "/a" 0 zx.All st _ _
                  ltac:(run) (surjective_pairing _))).
Defined.

(** X8, at [get] of [/a], which holds [b] and [x], from the offset 1: [x] is
    sent. *)
Lemma get_sends_window_witness :
  ∃ s', get Mem.fs0 "/a" 1 zx.All st = (Ret (), s') ∧
        Mem.sent (log s') = ["/a/x"].
Proof.
  destruct (get_sends_window Mem.fs0 "/a" "/a" 1 zx.All st (File "/a")
              (walk Mem.fs0 forGet ∅ ["a"] st).2
              [Mem.entry "d" "/a/b" "b"; Mem.entry "-" "/a/x" "x"])
    as (s' & E & El).
  - run.
  - discriminate.
  - runs.
  - run.
  - run.
  - run.
  - discriminate.
  - left. reflexivity.
  - exists s'. split; [exact E|]. rewrite El. run.
Defined.

(** X10, at the address [zxc!/a/b]. *)
Lemma dpath_of_addr_witness : dpath {["addr" := "zxc!/a/b"]} = "/a/b".
Proof.
  destruct (dpath_of_addr {["addr" := "zxc!/a/b"]} "zxc" "/a/b" eq_refl)
    as [_ H].
  apply H. reflexivity.
Defined.

(** X9, at [getCtl] when the remote has no [/Ctl]: three bytes from the offset 4
    of the text of the cache. *)
Lemma getCtl_window_witness :
  ∃ b s', getCtl Mem.fs0 4 3 st = (Ret (), s') ∧
          log s' = [EvRemoteGet "/Ctl"; EvSend (MBytes b)] ∧
          Z.of_nat (String.length b) = 3.
Proof.
  assert (Hr : r_get (rst st) "/Ctl" 0 zx.All
               = (([], Some ErrNotExist), Mem.tree)) by reflexivity.
  destruct (getCtl_window Mem.fs0 4 3 st [] (Some ErrNotExist) Mem.tree Hr)
    as [_ H].
  destruct (H ltac:(lia) ltac:(discriminate)) as (b & s' & E & El & _ & Hn).
  exists b, s'. split; [exact E|]. split; [exact El | exact Hn].
Defined.

(** X11, at [getData] of [/a/x] when the remote cannot be reached and the cache has
    old data. *)
Lemma getData_failures_witness :
  (getData Mem.fs0 (File "/a/x") (Mem.state Mem.warm Mem.offline)).1
    = Ret None.
Proof.
  destruct (getData_failures Mem.fs0 (File "/a/x")
              (Mem.state Mem.warm Mem.offline)
              ([], Some Mem.ioerr) Mem.offline
              (c_gotData (R := Mem.rTree) Mem.warm (File "/a/x")
                 ([], Some Mem.ioerr)).2
              Mem.ioerr) as [H _].
  - reflexivity.
  - runs.
  - rewrite (H ltac:(reflexivity) ltac:(reflexivity) ltac:(run)). reflexivity.
Defined.

(** X14, at [wstat] of [/a/x] with a mode and a [wuid]. *)
Lemma wstat_ignores_wuid_witness :
  wstat Mem.fs0 "/a/x" {["mode" := "0644"; "wuid" := "elf"]} st
    = wstat Mem.fs0 "/a/x" (delete "wuid" {["mode" := "0644"; "wuid" := "elf"]}) st.
Proof.
  apply (wstat_ignores_wuid Mem.fs0 "/a/x" {["mode" := "0644"; "wuid" := "elf"]} st).
  vm_compute. discriminate.
Defined.

(** X15, at [remove] of [/], and of [/a/x], which asks for a sync. *)
Lemma remove_checks_and_syncs_witness :
  remove Mem.fs0 "/" false st = (Fail (ErrCtx "remove /" ErrPerm), st) ∧
  (remove Mem.fs0 "/a/x" false st).1 = Ret () ∧
  last (log (remove Mem.fs0 "/a/x" false st).2) = Some EvNeedSync.
Proof.
  split.
  - destruct (remove_checks_and_syncs Mem.fs0 "/" "/" false st ltac:(run))
      as [H _].
    exact (proj1 (H (or_intror eq_refl))).
  - destruct (remove_checks_and_syncs Mem.fs0 "/a/x" "/a/x" false st ltac:(run))
      as [_ H].
    rewrite (H ltac:(intros [E|E]; discriminate E) (File "/a/x")
               (walk Mem.fs0 forDel ∅ ["a"; "x"] st).2
               _ _ ltac:(runs) (surjective_pairing _)).
    split; run.
Defined.

(** X16, at the relative path [a]. *)
Lemma bad_path_rejected_witness :
  stat Mem.fs0 "a" st = (Fail (ErrCtx "a" ErrNotAbs), st) ∧
  move Mem.fs0 "a" "/a/b" st = (Fail (ErrCtx "a" ErrNotAbs), st).
Proof.
  destruct (bad_path_rejected Mem.fs0 "a" (ErrCtx "a" ErrNotAbs) st
              ltac:(reflexivity)) as (H1 & _ & _ & _ & _ & _ & H7 & _).
  split; [exact H1|]. apply H7. eexists; reflexivity.
Defined.

(** X13, at [stat] of [/a/x] and [get] of [/a] on the cache that has all of the
    tree. *)
Lemma cached_reads_witness :
  from_cache st (stat Mem.fs0 "/a/x" st).2 ∧
  from_cache st (get Mem.fs0 "/a" 0 zx.All st).2.
Proof.
  split.
  - destruct (cached_reads Mem.fs0 "/a/x" "/a/x" st ltac:(run)) as [H _].
    apply (H ltac:(intros [|[|[|i]]] Hi; [| | |simpl in Hi; lia];
                   (split; [|intros _]; reflexivity))
             _ _ (surjective_pairing _)).
  - destruct (cached_reads Mem.fs0 "/a" "/a" st ltac:(run)) as [_ H].
    apply (H ltac:(intros [|[|i]] Hi; [| |simpl in Hi; lia];
                   (split; [|intros _]; reflexivity))
             ltac:(discriminate)
             0 zx.All _ _ (surjective_pairing _)).
Defined.

End MoreRuns.
